(** * Drift detection and OSPF reconciliation of [scripts/troubleshooting.py]

    A shallow embedding of the audit script: the configuration normaliser,
    the unified diff it feeds to the rollback-command deriver, the two OSPF
    text parsers and the neighbour reconciliation loop, followed by the
    properties the specification states about them.

    Python values are modelled as follows.
    - [str] is [string]; characters are the code points below 256.
    - a [list] is a [list]; a [dict] is an association list kept in
      insertion order (assigning to an existing key keeps its position);
      a [set] is a duplicate-free list whose iteration order is a
      parameter of the development.
    - an exception is a value of [exn] carried by [result].
    - the device session is an abstract state with two operations that can
      raise; everything the script does to the outside world (commands,
      configuration sets, sleeps, log records, files written) is appended
      to a trace. *)

From Stdlib Require Import String Ascii List ZArith Lia Bool Arith PeanoNat.
From Stdlib Require Import Permutation Sorting.Sorted DecimalString.
Import ListNotations.

Local Open Scope string_scope.
Local Open Scope list_scope.
Local Open Scope nat_scope.

(** ** Python string primitives *)

Module PyStr.

(** [str.isspace] on one character, for code points below 256. *)
Definition is_space (c : ascii) : bool :=
  let n := nat_of_ascii c in
  ((9 <=? n) && (n <=? 13)) || ((28 <=? n) && (n <=? 32))
  || (n =? 133) || (n =? 160).

(** [s.lstrip()] *)
Fixpoint lstrip (s : string) : string :=
  match s with
  | EmptyString => EmptyString
  | String c s' => if is_space c then lstrip s' else s
  end.

(** [s.rstrip()] *)
Fixpoint rstrip (s : string) : string :=
  match s with
  | EmptyString => EmptyString
  | String c s' =>
      match rstrip s' with
      | EmptyString => if is_space c then EmptyString else String c EmptyString
      | r => String c r
      end
  end.

(** [s.strip()] *)
Definition strip (s : string) : string := rstrip (lstrip s).

(** [s.startswith(p)] *)
Definition startswith (s p : string) : bool := String.prefix p s.

(** [needle in s] *)
Fixpoint contains (needle s : string) : bool :=
  String.prefix needle s
  || match s with
     | EmptyString => false
     | String _ s' => contains needle s'
     end.

Definition rev_string (cs : list ascii) : string :=
  string_of_list_ascii (rev cs).

(** [s.split()]: the maximal runs of non-whitespace characters. [cur]
    holds the run being read, last character first. *)
Fixpoint split_ws_go (cur : list ascii) (s : string) : list string :=
  match s with
  | EmptyString =>
      match cur with [] => [] | _ => [rev_string cur] end
  | String c s' =>
      if is_space c
      then match cur with
           | [] => split_ws_go [] s'
           | _ => rev_string cur :: split_ws_go [] s'
           end
      else split_ws_go (c :: cur) s'
  end.

Definition split (s : string) : list string := split_ws_go [] s.

(** [s.split(sep)] for a non-empty separator: [skip] counts the
    characters of a separator occurrence that are still to be passed. *)
Fixpoint split_sep_go (sep : string) (skip : nat) (cur : list ascii)
         (s : string) : list string :=
  match s with
  | EmptyString => [rev_string cur]
  | String c s' =>
      match skip with
      | S k => split_sep_go sep k cur s'
      | O =>
          if String.prefix sep s
          then rev_string cur :: split_sep_go sep (String.length sep - 1) [] s'
          else split_sep_go sep 0 (c :: cur) s'
      end
  end.

Definition split_on (sep s : string) : list string :=
  split_sep_go sep 0 [] s.

(** Line boundaries of [str.splitlines]: LF, VT, FF, CR, FS, GS, RS and
    NEL; CR LF counts as one boundary. *)
Definition is_linebreak (c : ascii) : bool :=
  let n := nat_of_ascii c in
  ((10 <=? n) && (n <=? 13)) || ((28 <=? n) && (n <=? 30)) || (n =? 133).

Definition is_cr (c : ascii) : bool := nat_of_ascii c =? 13.
Definition is_lf (c : ascii) : bool := nat_of_ascii c =? 10.

(** [s.splitlines()]. [after_cr] is set just after a carriage return,
    so that an immediately following line feed is swallowed. *)
Fixpoint splitlines_go (after_cr : bool) (cur : list ascii) (s : string)
  : list string :=
  match s with
  | EmptyString =>
      match cur with [] => [] | _ => [rev_string cur] end
  | String c s' =>
      if after_cr && is_lf c then splitlines_go false cur s'
      else if is_linebreak c
           then rev_string cur :: splitlines_go (is_cr c) [] s'
           else splitlines_go false (c :: cur) s'
  end.

Definition splitlines (s : string) : list string := splitlines_go false [] s.

(** [sep.join(l)] *)
Fixpoint join (sep : string) (l : list string) : string :=
  match l with
  | [] => EmptyString
  | [x] => x
  | x :: rest => (x ++ sep ++ join sep rest)%string
  end.

Definition digit_val (c : ascii) : option Z :=
  let n := nat_of_ascii c in
  if (48 <=? n) && (n <=? 57) then Some (Z.of_nat (n - 48)) else None.

Definition is_underscore (c : ascii) : bool := nat_of_ascii c =? 95.

(** The digits of an integer literal, read left to right. [prev_digit]
    tells whether the previous character was a digit: an underscore is
    accepted only between two digits. *)
Fixpoint int_digits (prev_digit : bool) (acc : Z) (s : string) : option Z :=
  match s with
  | EmptyString => if prev_digit then Some acc else None
  | String c s' =>
      match digit_val c with
      | Some d => int_digits true (10 * acc + d) s'
      | None =>
          if is_underscore c && prev_digit
          then match s' with
               | EmptyString => None
               | String c' _ =>
                   match digit_val c' with
                   | Some _ => int_digits false acc s'
                   | None => None
                   end
               end
          else None
      end
  end.

(** The number of digits of a text. *)
Fixpoint digit_count (s : string) : nat :=
  match s with
  | EmptyString => 0
  | String c s' =>
      match digit_val c with
      | Some _ => S (digit_count s')
      | None => digit_count s'
      end
  end.

(** The value of an unsigned literal. A literal of more than 4300 digits
    is refused ([sys.get_int_max_str_digits()], CPython 3.11); the
    underscores do not count. *)
Definition int_literal (r : string) : option Z :=
  if 4300 <? digit_count r then None else int_digits false 0 r.

(** [int(s)] in base ten; [None] stands for [ValueError]. *)
Definition int (s : string) : option Z :=
  match strip s with
  | String "+" r => int_literal r
  | String "-" r => option_map Z.opp (int_literal r)
  | r => int_literal r
  end.

End PyStr.

Arguments PyStr.startswith s p : simpl never.
Arguments PyStr.contains needle s : simpl never.
Arguments PyStr.strip s : simpl never.
Arguments PyStr.split s : simpl never.
Arguments PyStr.split_on sep s : simpl never.

(** ** Exceptions *)

Inductive exn : Type :=
| IndexError          (* a list index out of range *)
| ValueError          (* [int] of a string that is no integer literal *)
| OSError             (* a file that cannot be read *)
| UnboundLocalError   (* a local variable read before any assignment *)
| SessionError.       (* anything the device session raises *)

Inductive result (A : Type) : Type :=
| Ok (a : A)
| Raise (e : exn).

Arguments Ok {A} a.
Arguments Raise {A} e.

Definition bind {A B : Type} (r : result A) (k : A -> result B) : result B :=
  match r with
  | Ok a => k a
  | Raise e => Raise e
  end.

Declare Scope result_scope.
Delimit Scope result_scope with result.
Notation "'let*' x ':=' r 'in' k" := (bind r (fun x => k))
  (at level 10, x pattern, r at level 100, k at level 200) : result_scope.

(** [l[i]] *)
Definition index {A : Type} (l : list A) (i : nat) : result A :=
  match nth_error l i with
  | Some x => Ok x
  | None => Raise IndexError
  end.

(** [int(s)] *)
Definition py_int (s : string) : result Z :=
  match PyStr.int s with
  | Some z => Ok z
  | None => Raise ValueError
  end.

(** ** Config Normalizer *)

(** [normalize_config]: every line stripped, the lines that are empty
    once stripped left out. *)
Definition normalize_config (config : string) : list string :=
  flat_map (fun line =>
              match PyStr.strip line with
              | EmptyString => []
              | stripped => [stripped]
              end)
           (PyStr.splitlines config).

(** ** Rollback-command derivation *)

(** A pair [(context, command)]; [None] is Python's [None]. *)
Definition contextual_command : Type := option string * string.

(** Truth value of [current_context]: [None] and the empty string are
    false. *)
Definition truthy (ctx : option string) : bool :=
  match ctx with
  | None | Some EmptyString => false
  | Some _ => true
  end.

(** [line[1:]] *)
Definition drop_first (line : string) : string :=
  match line with
  | EmptyString => EmptyString
  | String _ rest => rest
  end.

(** The two branches of the loop body of [parse_contextual_commands]. *)
Definition is_added (line : string) : bool :=
  PyStr.startswith line "+" && negb (PyStr.startswith line "+++").

Definition is_context_candidate (line : string) : bool :=
  negb (PyStr.startswith line "-") && negb (PyStr.startswith line "@")
  && negb (PyStr.startswith line "+").

Definition is_mode_header (stripped_line : string) : bool :=
  PyStr.startswith stripped_line "interface"
  || PyStr.startswith stripped_line "router".

(** One iteration of the loop of [parse_contextual_commands]; the state is
    [(current_context, contextual_commands)]. *)
Definition pcc_step (st : option string * list contextual_command)
           (line : string) : option string * list contextual_command :=
  let '(current_context, contextual_commands) := st in
  if is_added line then
    let command := PyStr.strip (drop_first line) in
    match command with
    | EmptyString => st
    | _ =>
        if negb (PyStr.startswith command "!") then
          if truthy current_context
          then (current_context,
                contextual_commands ++ [(current_context, ("no " ++ command)%string)])
          else (current_context,
                contextual_commands ++ [(None, ("no " ++ command)%string)])
        else st
    end
  else if is_context_candidate line then
    let stripped_line := PyStr.strip line in
    if is_mode_header stripped_line
    then (Some stripped_line, contextual_commands)
    else st
  else st.

Definition parse_contextual_commands (diff_lines : list string)
  : list contextual_command :=
  snd (fold_left pcc_step diff_lines (None, [])).

(** ** OSPF State Parser *)

Record neighbor : Type := mk_neighbor {
  neighbor_id : string;
  instance : string;
  vrf : string;
  priority : string;
  state : string;
  address : string;
  interface : string
}.

(** The body of the row loop shared by [parse_ospf_neighbors] and
    [load_golden_ospf_neighbors]: a row of at least eight fields gives a
    record, any other row is passed over. The list indexing cannot go out
    of range under the length test, so the default of [nth] is never
    used. *)
Definition parse_neighbor_row (line : string) : list neighbor :=
  let parts := PyStr.split line in
  if 8 <=? length parts then
    [ {| neighbor_id := nth 0 parts "";
         instance := nth 1 parts "";
         vrf := nth 2 parts "";
         priority := nth 3 parts "";
         state := nth 4 parts "";
         address := nth 6 parts "";
         interface := nth 7 parts "" |} ]
  else [].

(** [parse_ospf_neighbors]: the header line is skipped. *)
Definition parse_ospf_neighbors (output : string) : list neighbor :=
  flat_map parse_neighbor_row (tl (PyStr.splitlines output)).

Record timer_fault : Type := mk_timer_fault {
  tf_interface : string;
  hello_timer : Z;
  dead_timer : Z;
  retransmit_timer : Z
}.

(** [int(parts[i].split()[1])] *)
Definition timer_field (parts : list string) (i : nat) : result Z :=
  (let* field := index parts i in
   let* token := index (PyStr.split field) 1 in
   py_int token)%result.

(** One iteration of the loop of [parse_ospf_timers]. The state is the
    local variable [interface_name] ([None] while it is unbound) and the
    list [interfaces_to_fix]. *)
Definition timers_step (st : option string * list timer_fault) (line : string)
  : result (option string * list timer_fault) :=
  let '(interface_name, interfaces_to_fix) := st in
  if PyStr.contains "is up" line then
    (let* name := index (PyStr.split line) 0 in
     Ok (Some name, interfaces_to_fix))%result
  else if PyStr.contains "Timer intervals configured" line then
    let parts := PyStr.split_on ", " line in
    (let* hello := timer_field parts 1 in
     let* dead := timer_field parts 2 in
     let* retransmit := timer_field parts 3 in
     if negb (hello =? 10)%Z || negb (dead =? 40)%Z || negb (retransmit =? 5)%Z
     then match interface_name with
          | None => Raise UnboundLocalError
          | Some name =>
              Ok (interface_name,
                  interfaces_to_fix ++
                    [ {| tf_interface := name; hello_timer := hello;
                         dead_timer := dead; retransmit_timer := retransmit |} ])
          end
     else Ok st)%result
  else Ok st.

(** The [for line in lines] loop: it stops at the first exception. *)
Fixpoint timers_loop (st : option string * list timer_fault)
         (lines : list string) : result (list timer_fault) :=
  match lines with
  | [] => Ok (snd st)
  | line :: rest =>
      (let* st' := timers_step st line in timers_loop st' rest)%result
  end.

Definition parse_ospf_timers (output : string) : result (list timer_fault) :=
  timers_loop (None, []) (PyStr.splitlines output).

(** ** Dictionaries and sets *)

(** A [dict] from strings to strings, in insertion order. *)
Definition dict : Type := list (string * string).

(** [d[k] = v]: an existing key keeps its place and takes the new value, a
    new key goes to the end. *)
Fixpoint dict_set (d : dict) (k v : string) : dict :=
  match d with
  | [] => [(k, v)]
  | (k', v') :: d' =>
      if String.eqb k' k then (k', v) :: d' else (k', v') :: dict_set d' k v
  end.

(** [d.get(k)] *)
Fixpoint dict_get (d : dict) (k : string) : option string :=
  match d with
  | [] => None
  | (k', v') :: d' => if String.eqb k' k then Some v' else dict_get d' k
  end.

(** [k in d] *)
Definition dict_mem (d : dict) (k : string) : bool :=
  match dict_get d k with Some _ => true | None => false end.

(** [d.keys()] *)
Definition dict_keys (d : dict) : list string := map fst d.

(** [{neighbor["neighbor_id"]: neighbor["state"] for neighbor in rows}] *)
Definition neighbors_map (rows : list neighbor) : dict :=
  fold_left (fun d n => dict_set d (neighbor_id n) (state n)) rows [].

(** [x in s] for a set or a list of strings. *)
Definition mem (x : string) (s : list string) : bool :=
  existsb (String.eqb x) s.

(** [s - t] on sets. *)
Definition set_diff (s t : list string) : list string :=
  filter (fun x => negb (mem x t)) s.

(** The healthy-adjacency test of the script. *)
Definition healthy (st : string) : bool :=
  PyStr.startswith st "2" || PyStr.startswith st "FULL".

(** ** The unified diff of Python's [difflib]

    [compare_configs] calls [difflib.unified_diff] with the default three
    lines of context and an empty line terminator. The definitions below
    follow the CPython implementation of [SequenceMatcher] (no junk
    function, automatic junk heuristic on) and of [unified_diff],
    function by function. Indices never become negative in the Python
    code, so they are natural numbers here. *)

Module Difflib.

(** [Match(a=i, b=j, size=k)] *)
Definition block : Type := (nat * nat * nat)%type.

(** The dictionary [b2j]: element to the list of its indices in [b]. *)
Definition b2j_t : Type := list (string * list nat).

(** [b2j.get(elt, [])] *)
Fixpoint b2j_get (b2j : b2j_t) (elt : string) : list nat :=
  match b2j with
  | [] => []
  | (e, idxs) :: rest => if String.eqb e elt then idxs else b2j_get rest elt
  end.

(** [b2j.setdefault(elt, []).append(i)] *)
Fixpoint b2j_append (b2j : b2j_t) (elt : string) (i : nat) : b2j_t :=
  match b2j with
  | [] => [(elt, [i])]
  | (e, idxs) :: rest =>
      if String.eqb e elt then (e, idxs ++ [i]) :: rest
      else (e, idxs) :: b2j_append rest elt i
  end.

(** [for i, elt in enumerate(b)] of [__chain_b], from index [i] on. *)
Fixpoint chain_fill (b : list string) (i : nat) (b2j : b2j_t) : b2j_t :=
  match b with
  | [] => b2j
  | elt :: rest => chain_fill rest (S i) (b2j_append b2j elt i)
  end.

(** [__chain_b]: with at least 200 elements, the elements that occur more
    than [n // 100 + 1] times are deleted from [b2j]. No element is junk,
    since [isjunk] is [None]. *)
Definition chain_b (b : list string) : b2j_t :=
  let b2j := chain_fill b 0 [] in
  let n := length b in
  if 200 <=? n then
    let ntest := n / 100 + 1 in
    filter (fun '(_, idxs) => negb (ntest <? length idxs)) b2j
  else b2j.

(** The dictionaries [j2len] and [newj2len]. *)
Definition j2len_t : Type := list (nat * nat).

(** [j2len.get(j, 0)] *)
Fixpoint j2len_get (j2len : j2len_t) (j : nat) : nat :=
  match j2len with
  | [] => 0
  | (j', k) :: rest => if j' =? j then k else j2len_get rest j
  end.

(** [j2len.get(j-1, 0)]: the key [-1] is never present. *)
Definition j2len_prev (j2len : j2len_t) (j : nat) : nat :=
  match j with
  | 0 => 0
  | S j' => j2len_get j2len j'
  end.

(** The inner loop of [find_longest_match], over the indices [js] of the
    occurrences of [a[i]] in [b]. *)
Fixpoint flm_inner (j2len : j2len_t) (i blo bhi : nat) (js : list nat)
         (newj2len : j2len_t) (best : block) : j2len_t * block :=
  match js with
  | [] => (newj2len, best)
  | j :: js' =>
      if j <? blo then flm_inner j2len i blo bhi js' newj2len best
      else if bhi <=? j then (newj2len, best)
      else
        let k := j2len_prev j2len j + 1 in
        let '(_, _, bestsize) := best in
        flm_inner j2len i blo bhi js' ((j, k) :: newj2len)
                  (if bestsize <? k then (i + 1 - k, j + 1 - k, k) else best)
  end.

(** The outer loop [for i in range(alo, ahi)], over the list [rows] of
    the values of [i]. *)
Fixpoint flm_outer (a : list string) (b2j : b2j_t) (blo bhi : nat)
         (rows : list nat) (j2len : j2len_t) (best : block) : block :=
  match rows with
  | [] => best
  | i :: rows' =>
      let '(newj2len, best') :=
        flm_inner j2len i blo bhi (b2j_get b2j (nth i a "")) [] best in
      flm_outer a b2j blo bhi rows' newj2len best'
  end.

(** First [while] loop: the match grows to the left. *)
Fixpoint extend_left (a b : list string) (alo blo : nat)
         (besti bestj bestsize : nat) {struct besti} : block :=
  match besti, bestj with
  | S i', S j' =>
      if (alo <? besti) && (blo <? bestj)
         && String.eqb (nth i' a "") (nth j' b "")
      then extend_left a b alo blo i' j' (bestsize + 1)
      else (besti, bestj, bestsize)
  | _, _ => (besti, bestj, bestsize)
  end.

(** Second [while] loop: the match grows to the right. [room] is
    [ahi - (besti + bestsize)], which is positive exactly when the first
    test of the loop condition holds. *)
Fixpoint extend_right (a b : list string) (bhi : nat) (room : nat)
         (besti bestj bestsize : nat) {struct room} : block :=
  match room with
  | 0 => (besti, bestj, bestsize)
  | S room' =>
      if (bestj + bestsize <? bhi)
         && String.eqb (nth (besti + bestsize) a "") (nth (bestj + bestsize) b "")
      then extend_right a b bhi room' besti bestj (bestsize + 1)
      else (besti, bestj, bestsize)
  end.

(** [find_longest_match(alo, ahi, blo, bhi)]. The last two [while] loops
    of the Python function only pass over junk elements; there is none,
    so they do nothing. *)
Definition find_longest_match (a b : list string) (b2j : b2j_t)
           (alo ahi blo bhi : nat) : block :=
  let '(besti, bestj, bestsize) :=
    flm_outer a b2j blo bhi (seq alo (ahi - alo)) [] (alo, blo, 0) in
  let '(besti, bestj, bestsize) :=
    extend_left a b alo blo besti bestj bestsize in
  extend_right a b bhi (ahi - (besti + bestsize)) besti bestj bestsize.

(** A pending region [(alo, ahi, blo, bhi)]. *)
Definition region : Type := (nat * nat * nat * nat)%type.

(** The [while queue] loop of [get_matching_blocks]; [queue.pop()] takes
    the region appended last, which is kept at the head here. The loop
    runs for at most [fuel] rounds and returns what is left of the queue
    together with the blocks found. *)
Fixpoint matching_loop (a b : list string) (b2j : b2j_t) (fuel : nat)
         (queue : list region) (matching_blocks : list block)
  : list region * list block :=
  match fuel with
  | 0 => (queue, matching_blocks)
  | S fuel' =>
      match queue with
      | [] => ([], matching_blocks)
      | (alo, ahi, blo, bhi) :: queue' =>
          let '(i, j, k) := find_longest_match a b b2j alo ahi blo bhi in
          if k =? 0 then matching_loop a b b2j fuel' queue' matching_blocks
          else
            let queue1 :=
              if (alo <? i) && (blo <? j) then (alo, i, blo, j) :: queue'
              else queue' in
            let queue2 :=
              if (i + k <? ahi) && (j + k <? bhi)
              then (i + k, ahi, j + k, bhi) :: queue1
              else queue1 in
            matching_loop a b b2j fuel' queue2 (matching_blocks ++ [(i, j, k)])
      end
  end.

(** Tuple comparison [x <= y]. *)
Definition block_leb (x y : block) : bool :=
  let '(i1, j1, k1) := x in
  let '(i2, j2, k2) := y in
  (i1 <? i2)
  || ((i1 =? i2) && ((j1 <? j2) || ((j1 =? j2) && (k1 <=? k2)))).

Fixpoint insert_block (x : block) (l : list block) : list block :=
  match l with
  | [] => [x]
  | y :: rest => if block_leb x y then x :: l else y :: insert_block x rest
  end.

(** [matching_blocks.sort()] *)
Definition sort_blocks (l : list block) : list block :=
  fold_right insert_block [] l.

(** The loop that merges adjacent blocks; the state is [(i1, j1, k1)] and
    [non_adjacent]. *)
Fixpoint collapse (blocks : list block) (cur : block)
         (non_adjacent : list block) : block * list block :=
  match blocks with
  | [] => (cur, non_adjacent)
  | (i2, j2, k2) :: rest =>
      let '(i1, j1, k1) := cur in
      if (i1 + k1 =? i2) && (j1 + k1 =? j2)
      then collapse rest (i1, j1, k1 + k2) non_adjacent
      else collapse rest (i2, j2, k2)
                    (if k1 =? 0 then non_adjacent
                     else non_adjacent ++ [(i1, j1, k1)])
  end.

(** Every round of the loop removes a region or replaces it by regions
    that are shorter in total, so [2 * len(a) + 1] rounds empty the
    queue. *)
Definition matching_fuel (a : list string) : nat := 2 * length a + 1.

Definition get_matching_blocks (a b : list string) : list block :=
  let la := length a in
  let lb := length b in
  let found :=
    snd (matching_loop a b (chain_b b) (matching_fuel a) [(0, la, 0, lb)] []) in
  let '((i1, j1, k1), non_adjacent) := collapse (sort_blocks found) (0, 0, 0) [] in
  (if k1 =? 0 then non_adjacent else non_adjacent ++ [(i1, j1, k1)])
  ++ [(la, lb, 0)].

Inductive tag : Type := Replace | Delete | Insert | Equal.

(** [(tag, i1, i2, j1, j2)] *)
Definition opcode : Type := (tag * nat * nat * nat * nat)%type.

(** The loop of [get_opcodes]; the state is [(i, j)] and [answer]. *)
Fixpoint opcodes_loop (blocks : list block) (i j : nat) (answer : list opcode)
  : list opcode :=
  match blocks with
  | [] => answer
  | (ai, bj, size) :: rest =>
      let answer1 :=
        if (i <? ai) && (j <? bj) then answer ++ [(Replace, i, ai, j, bj)]
        else if i <? ai then answer ++ [(Delete, i, ai, j, bj)]
        else if j <? bj then answer ++ [(Insert, i, ai, j, bj)]
        else answer in
      let answer2 :=
        if size =? 0 then answer1
        else answer1 ++ [(Equal, ai, ai + size, bj, bj + size)] in
      opcodes_loop rest (ai + size) (bj + size) answer2
  end.

Definition get_opcodes (a b : list string) : list opcode :=
  opcodes_loop (get_matching_blocks a b) 0 0 [].

Definition is_equal (t : tag) : bool :=
  match t with Equal => true | _ => false end.

(** [codes[0] = ...] when the first opcode is [equal]. *)
Definition trim_first (n : nat) (codes : list opcode) : list opcode :=
  match codes with
  | (Equal, i1, i2, j1, j2) :: rest =>
      (Equal, Nat.max i1 (i2 - n), i2, Nat.max j1 (j2 - n), j2) :: rest
  | _ => codes
  end.

(** [codes[-1] = ...] when the last opcode is [equal]. *)
Fixpoint trim_last (n : nat) (codes : list opcode) : list opcode :=
  match codes with
  | [] => []
  | [(Equal, i1, i2, j1, j2)] =>
      [(Equal, i1, Nat.min i2 (i1 + n), j1, Nat.min j2 (j1 + n))]
  | c :: rest => c :: trim_last n rest
  end.

(** The grouping loop of [get_grouped_opcodes]: [group] is the group
    being filled, the result lists the groups yielded, the last group
    that the loop leaves behind included. *)
Fixpoint group_loop (n : nat) (codes : list opcode) (group : list opcode)
  : list (list opcode) * list opcode :=
  match codes with
  | [] => ([], group)
  | (t, i1, i2, j1, j2) :: rest =>
      if is_equal t && (n + n <? i2 - i1) then
        let yielded := group ++ [(t, i1, Nat.min i2 (i1 + n), j1, Nat.min j2 (j1 + n))] in
        let '(groups, final) :=
          group_loop n rest [(t, Nat.max i1 (i2 - n), i2, Nat.max j1 (j2 - n), j2)] in
        (yielded :: groups, final)
      else group_loop n rest (group ++ [(t, i1, i2, j1, j2)])
  end.

(** [get_grouped_opcodes(n)] applied to the opcode list [codes]. *)
Definition group_opcodes (n : nat) (codes : list opcode) : list (list opcode) :=
  let codes1 := match codes with [] => [(Equal, 0, 1, 0, 1)] | _ => codes end in
  let codes2 := trim_last n (trim_first n codes1) in
  let '(groups, final) := group_loop n codes2 [] in
  match final with
  | [] => groups
  | [(Equal, _, _, _, _)] => groups
  | _ => groups ++ [final]
  end.

Definition get_grouped_opcodes (a b : list string) (n : nat) : list (list opcode) :=
  group_opcodes n (get_opcodes a b).

(** ['{}'.format(n)] *)
Definition format_nat (n : nat) : string :=
  NilEmpty.string_of_uint (Nat.to_uint n).

(** [_format_range_unified(start, stop)] *)
Definition format_range_unified (start stop : nat) : string :=
  let beginning := start + 1 in
  let length := stop - start in
  if length =? 1 then format_nat beginning
  else
    let beginning := if length =? 0 then beginning - 1 else beginning in
    (format_nat beginning ++ "," ++ format_nat length)%string.

(** [l[i1:i2]] *)
Definition slice {A : Type} (l : list A) (i1 i2 : nat) : list A :=
  firstn (i2 - i1) (skipn i1 l).

Definition prefix_lines (p : string) (lines : list string) : list string :=
  map (fun line => (p ++ line)%string) lines.

(** The lines yielded for one opcode of a group. *)
Definition opcode_lines (a b : list string) (c : opcode) : list string :=
  let '(t, i1, i2, j1, j2) := c in
  match t with
  | Equal => prefix_lines " " (slice a i1 i2)
  | Replace => prefix_lines "-" (slice a i1 i2) ++ prefix_lines "+" (slice b j1 j2)
  | Delete => prefix_lines "-" (slice a i1 i2)
  | Insert => prefix_lines "+" (slice b j1 j2)
  end.

Definition group_body (a b : list string) (group : list opcode) : list string :=
  flat_map (opcode_lines a b) group.

(** The line ranges of a group: [first[1], last[2], first[3], last[4]]. A
    group is never empty. *)
Definition group_range (group : list opcode) : region :=
  match group, last group (Equal, 0, 0, 0, 0) with
  | (_, i1, _, j1, _) :: _, (_, _, i2, _, j2) => (i1, i2, j1, j2)
  | [], _ => (0, 0, 0, 0)
  end.

Definition hunk_header (group : list opcode) : string :=
  let '(i1, i2, j1, j2) := group_range group in
  ("@@ -" ++ format_range_unified i1 i2 ++ " +" ++ format_range_unified j1 j2
   ++ " @@")%string.

Definition hunk_lines (a b : list string) (group : list opcode) : list string :=
  hunk_header group :: group_body a b group.

(** [unified_diff(a, b, fromfile, tofile, lineterm="")]: the two file
    header lines come before the first hunk, and only if there is one. *)
Definition unified_diff (a b : list string) (fromfile tofile : string)
  : list string :=
  match get_grouped_opcodes a b 3 with
  | [] => []
  | groups =>
      ("--- " ++ fromfile)%string :: ("+++ " ++ tofile)%string
      :: flat_map (hunk_lines a b) groups
  end.

End Difflib.

(** ** Device session, trace and the monad of the script *)

(** The [net_connect] object: the state of the device and of the
    connection to it, with the operations the script calls. Each may
    raise. The device goes on running while the script sleeps. *)
Class Session (session : Type) : Type := {
  send_command : string -> session -> result string * session;
  send_config_set : list string -> session -> result unit * session;
  send_config_from_file : string -> session -> result unit * session;
  enable : session -> result unit * session;
  sleep : Z -> session -> session
}.

(** Iteration order of a [set] of strings: unspecified, but some
    arrangement of its elements. *)
Class SetOrder : Type := {
  set_order : list string -> list string;
  set_order_perm : forall s, Permutation (set_order s) s
}.

Inductive level : Type := DEBUG | INFO | SUCCESS | WARNING | ERROR.

(** One constructor for each [logger] call of the modelled functions; the
    device name, which is fixed during a run, is left out of the record. *)
Inductive log_record : Type :=
| NoGoldenConfig                                  (* compare_configs, warning *)
| DifferencesFound (differences : string)         (* compare_configs, warning *)
| RevertedToGolden                                (* compare_configs, success *)
| ConfigCompliant                                 (* compare_configs, debug *)
| CompareConfigsError (e : exn)                   (* compare_configs, error *)
| ComparingOspfConfig (neighbor : string)         (* compare_ospf_config, debug *)
| ShutdownFound                                   (* compare_ospf_config, warning *)
| ShutdownRemoved                                 (* compare_ospf_config, debug *)
| TimerMismatches                                 (* both timer steps, warning *)
| TimersFixed (ifname : string)                   (* both timer steps, debug *)
| TimersCorrect                                   (* compare_ospf_config, debug *)
| CompareOspfConfigError (neighbor : string) (e : exn)  (* compare_ospf_config, error *)
| MissingHeader                                   (* compare_ospf_neighbors, error *)
| MissingNeighbor (neighbor : string)             (* compare_ospf_neighbors, error *)
| BadState (neighbor st : string)                 (* compare_ospf_neighbors, error *)
| UnexpectedHeader                                (* compare_ospf_neighbors, warning *)
| UnexpectedNeighbor (neighbor : string)          (* compare_ospf_neighbors, warning *)
| RecheckAfterShutdown (neighbor : string)        (* compare_ospf_neighbors, debug *)
| FixedByShutdown (neighbor : string)             (* compare_ospf_neighbors, success *)
| RecheckAfterTimers                              (* compare_ospf_neighbors, debug *)
| FixedByTimers (neighbor : string)               (* compare_ospf_neighbors, success *)
| Unresolved (neighbor : string)                  (* compare_ospf_neighbors, error *)
| NeighborsMatch.                                 (* compare_ospf_neighbors, info *)

(** What the script does to the outside world. A session call records
    what the session answered. *)
Inductive event : Type :=
| SendCommand (command : string) (answer : result string)
| SendConfigSet (commands : list string) (answer : result unit)
| SendConfigFromFile (path : string) (answer : result unit)
| Enable (answer : result unit)
| Sleep (seconds : Z)
| WriteFile (path content : string)
| Log (lvl : level) (rec : log_record).

Definition show_ospf_config : string := "show running-config | section router ospf".
Definition show_ospf_timers : string := "show ip ospf interface | section Hello".
Definition show_ospf_neighbor : string := "show ip ospf neighbor".

Definition shutdown_fix : list string := ["router ospf 1"; "no shutdown"].

(** The command list of the timer fix for one faulty interface. *)
Definition timer_fix (f : timer_fault) : list string :=
  [ ("interface " ++ tf_interface f)%string;
    "ip ospf hello-interval 10";
    "ip ospf dead-interval 40";
    "ip ospf retransmit-interval 5" ].

(** What [os.path.exists] and [open(...).read()] find at the path of the
    golden configuration. *)
Inductive golden_file : Type :=
| NoSuchFile
| ReadFails
| Contents (text : string).

(** What [open(diff_file, "w")] and [file.write] meet at the path of the
    diff report: the report is written, or the call raises. *)
Inductive diff_file : Type :=
| Writable
| NotWritable.

Definition newline : string := String "010"%char EmptyString.

Declare Scope io_scope.
Delimit Scope io_scope with io.

Section Engine.

Context {session : Type} {net_connect : Session session} {order : SetOrder}.

Definition world : Type := session * list event.

(** A computation reads and changes the world and returns or raises. *)
Definition M (A : Type) : Type := world -> result A * world.

Definition ret {A : Type} (a : A) : M A := fun w => (Ok a, w).

Definition raise {A : Type} (e : exn) : M A := fun w => (Raise e, w).

Definition mbind {A B : Type} (m : M A) (k : A -> M B) : M B :=
  fun w =>
    match m w with
    | (Ok a, w') => k a w'
    | (Raise e, w') => (Raise e, w')
    end.

(** [try: body  except Exception as e: handler(e)] *)
Definition try_except {A : Type} (body : M A) (handler : exn -> M A) : M A :=
  fun w =>
    match body w with
    | (Ok a, w') => (Ok a, w')
    | (Raise e, w') => handler e w'
    end.

Definition lift {A : Type} (r : result A) : M A := fun w => (r, w).

Definition emit (e : event) : M unit :=
  fun w => (Ok tt, (fst w, snd w ++ [e])).

Definition log (lvl : level) (rec : log_record) : M unit := emit (Log lvl rec).

Definition do_send_command (command : string) : M string :=
  fun w =>
    let '(r, s') := send_command command (fst w) in
    (r, (s', snd w ++ [SendCommand command r])).

Definition do_send_config_set (commands : list string) : M unit :=
  fun w =>
    let '(r, s') := send_config_set commands (fst w) in
    (r, (s', snd w ++ [SendConfigSet commands r])).

Definition do_send_config_from_file (path : string) : M unit :=
  fun w =>
    let '(r, s') := send_config_from_file path (fst w) in
    (r, (s', snd w ++ [SendConfigFromFile path r])).

Definition do_enable : M unit :=
  fun w =>
    let '(r, s') := enable (fst w) in
    (r, (s', snd w ++ [Enable r])).

Definition do_sleep (seconds : Z) : M unit :=
  fun w => (Ok tt, (sleep seconds (fst w), snd w ++ [Sleep seconds])).

Notation "x <- m ;; k" := (mbind m (fun x => k))
  (at level 61, m at next level, right associativity) : io_scope.
Notation "m ;; k" := (mbind m (fun _ => k))
  (at level 61, right associativity) : io_scope.

(** [for x in l: body(x)] *)
Fixpoint for_each {A : Type} (l : list A) (body : A -> M unit) : M unit :=
  match l with
  | [] => ret tt
  | x :: rest => (body x ;; for_each rest body)%io
  end.

(** ** Config remediation *)

(** The body of the loop over the contextual commands. *)
Definition apply_contextual (c : contextual_command) : M unit :=
  match c with
  | (Some (String _ _ as context), command) =>
      do_send_config_set [context; command]
  | (_, command) => do_send_config_set [command]
  end.

(** [with open(path, "w") as file: file.write(content)] *)
Definition write_file (report : diff_file) (path content : string) : M unit :=
  match report with
  | Writable => emit (WriteFile path content)
  | NotWritable => raise OSError
  end.

(** [compare_configs]. The diff report is written under [diffs/], a
    directory that [main] creates beforehand; the write can still fail,
    and the exception is then handled like any other. *)
Definition compare_configs (device_name current_config golden_config_path : string)
           (golden : golden_file) (report : diff_file) : M unit :=
  try_except
    (match golden with
     | NoSuchFile => log WARNING NoGoldenConfig
     | ReadFails => raise OSError
     | Contents golden_config =>
         let normalized_current := normalize_config current_config in
         let normalized_golden := normalize_config golden_config in
         let diff := Difflib.unified_diff normalized_golden normalized_current
                                          "Golden Config" "Current Config" in
         let differences := PyStr.join newline diff in
         match differences with
         | EmptyString => log DEBUG ConfigCompliant
         | _ =>
             log WARNING (DifferencesFound differences) ;;
             write_file report ("diffs/" ++ device_name ++ "_diff.txt")%string
                        differences ;;
             let contextual_commands := parse_contextual_commands diff in
             match contextual_commands with
             | _ :: _ =>
                 do_enable ;;
                 for_each contextual_commands apply_contextual
             | [] => ret tt
             end ;;
             do_send_config_from_file golden_config_path ;;
             log SUCCESS RevertedToGolden
         end
     end)%io
    (fun e => log ERROR (CompareConfigsError e)).

(** ** Reconciliation Engine *)

(** The loop that pushes the three timer values under every faulty
    interface; it occurs in [compare_ospf_config] and again in
    [compare_ospf_neighbors]. *)
Definition fix_timers (interfaces_to_fix : list timer_fault) : M unit :=
  for_each interfaces_to_fix
    (fun f => (do_send_config_set (timer_fix f) ;;
               log DEBUG (TimersFixed (tf_interface f)))%io).

Definition compare_ospf_config (neighbor : string) : M unit :=
  try_except
    (log DEBUG (ComparingOspfConfig neighbor) ;;
     ospf_config_device <- do_send_command show_ospf_config ;;
     if PyStr.contains "shutdown" ospf_config_device then
       log WARNING ShutdownFound ;;
       do_send_config_set shutdown_fix ;;
       log DEBUG ShutdownRemoved ;;
       do_sleep 10
     else
       interface_timers_output <- do_send_command show_ospf_timers ;;
       interfaces_to_fix <- lift (parse_ospf_timers interface_timers_output) ;;
       match interfaces_to_fix with
       | _ :: _ =>
           log WARNING TimerMismatches ;;
           fix_timers interfaces_to_fix ;;
           do_sleep 10
       | [] => log DEBUG TimersCorrect
       end)%io
    (fun e => log ERROR (CompareOspfConfigError neighbor e)).

(** [show ip ospf neighbor] again, parsed and turned into a map. *)
Definition repoll : M dict :=
  (rechecked_output <- do_send_command show_ospf_neighbor ;;
   ret (neighbors_map (parse_ospf_neighbors rechecked_output)))%io.

(** [neighbor_id in m and (m[neighbor_id].startswith("2") or
    m[neighbor_id].startswith("FULL"))] *)
Definition healthy_in (rechecked : dict) (neighbor : string) : bool :=
  match dict_get rechecked neighbor with
  | Some st => healthy st
  | None => false
  end.

(** The body of the [for neighbor_id in problematic_neighbors] loop. *)
Definition remediate (neighbor : string) : M unit :=
  (compare_ospf_config neighbor ;;
   log DEBUG (RecheckAfterShutdown neighbor) ;;
   do_sleep 10 ;;
   rechecked <- repoll ;;
   if healthy_in rechecked neighbor then
     log SUCCESS (FixedByShutdown neighbor)
   else
     interface_timers_output <- do_send_command show_ospf_timers ;;
     interfaces_to_fix <- lift (parse_ospf_timers interface_timers_output) ;;
     match interfaces_to_fix with
     | _ :: _ =>
         log WARNING TimerMismatches ;;
         fix_timers interfaces_to_fix ;;
         log DEBUG RecheckAfterTimers ;;
         do_sleep 10 ;;
         rechecked' <- repoll ;;
         if healthy_in rechecked' neighbor then
           log SUCCESS (FixedByTimers neighbor)
         else
           log ERROR (Unresolved neighbor)
     | [] => log ERROR (Unresolved neighbor)
     end)%io.

(** The classification part of [compare_ospf_neighbors]. *)
Definition missing_neighbors (live_map golden_map : dict) : list string :=
  set_diff (dict_keys golden_map) (dict_keys live_map).

Definition unexpected_neighbors (live_map golden_map : dict) : list string :=
  set_diff (dict_keys live_map) (dict_keys golden_map).

(** The neighbours appended by the state-mismatch loop, in the order of
    [live_neighbors_map.items()]. *)
Definition unhealthy_neighbors (live_map golden_map : dict) : list string :=
  flat_map (fun '(neighbor, st) =>
              if dict_mem golden_map neighbor && negb (healthy st)
              then [neighbor] else [])
           live_map.

Definition problematic_neighbors (live_map golden_map : dict) : list string :=
  set_order (missing_neighbors live_map golden_map)
  ++ unhealthy_neighbors live_map golden_map.

(** The log records of the state-mismatch loop. *)
Definition log_state_mismatches (live_map golden_map : dict) : M unit :=
  for_each live_map
    (fun '(neighbor, st) =>
       if dict_mem golden_map neighbor && negb (healthy st)
       then log ERROR (BadState neighbor st) else ret tt).

Definition compare_ospf_neighbors (live_neighbors golden_neighbors : list neighbor)
  : M unit :=
  let live_map := neighbors_map live_neighbors in
  let golden_map := neighbors_map golden_neighbors in
  let missing := missing_neighbors live_map golden_map in
  let unexpected := unexpected_neighbors live_map golden_map in
  let problematic := problematic_neighbors live_map golden_map in
  (match missing with
   | _ :: _ =>
       log ERROR MissingHeader ;;
       for_each (set_order missing) (fun n => log ERROR (MissingNeighbor n))
   | [] => ret tt
   end ;;
   log_state_mismatches live_map golden_map ;;
   match unexpected with
   | _ :: _ =>
       log WARNING UnexpectedHeader ;;
       for_each (set_order unexpected) (fun n => log WARNING (UnexpectedNeighbor n))
   | [] => ret tt
   end ;;
   for_each problematic remediate ;;
   match problematic with
   | [] => log INFO NeighborsMatch
   | _ :: _ => ret tt
   end)%io.

End Engine.

(** The events a computation adds to an empty trace, and its result. *)
Definition run {session : Type} {A : Type} (m : M A) (s : session)
  : result A * list event :=
  let '(r, (_, tr)) := m (s, []) in (r, tr).

(** ** Definitions used to state the properties *)

(** The row of a neighbour table that decides the state recorded for
    a neighbour: the last one that carries the identifier [k]. *)
Definition last_row (rows : list neighbor) (k : string) : option neighbor :=
  find (fun n => String.eqb (neighbor_id n) k) (rev rows).

(** A diff line that sets [current_context]: it starts with none of "+",
    "-" and "@", and its stripped text starts with "interface" or
    "router". *)
Definition sets_context (line : string) : bool :=
  is_context_candidate line && is_mode_header (PyStr.strip line).

(** The value of [current_context] once the diff lines [pre] have been
    read: the stripped text of the last line of [pre] that sets it. *)
Definition last_context (pre : list string) : option string :=
  option_map PyStr.strip (find sets_context (rev pre)).

(** Properties of a computation stated on its trace. *)
Section TraceProperties.

Context {session : Type} {net_connect : Session session}.

(** [m] leaves the trace it finds in place and adds events that all
    satisfy [P]. *)
Definition appends {A : Type} (P : event -> Prop) (m : @M session A) : Prop :=
  forall (s : session) (tr : list event), exists evs, snd (snd (m (s, tr))) = tr ++ evs /\ Forall P evs.

(** [m] never raises. *)
Definition total {A : Type} (m : @M session A) : Prop :=
  forall w, exists a w', m w = (Ok a, w').

(** However [m] ends, the trace then holds the event [e]. *)
Definition establishes {A : Type} (e : event) (m : @M session A) : Prop :=
  forall (s : session) (tr : list event), In e (snd (snd (m (s, tr)))).

End TraceProperties.

(** The neighbour a log record of the remediation loop is about. *)
Definition remediation_target (rec : log_record) : option string :=
  match rec with
  | ComparingOspfConfig n | CompareOspfConfigError n _
  | RecheckAfterShutdown n | FixedByShutdown n | FixedByTimers n
  | Unresolved n => Some n
  | _ => None
  end.

(** An event that is not a remediation record about the neighbour [k]. *)
Definition not_about (k : string) (e : event) : Prop :=
  forall lvl rec, e = Log lvl rec -> remediation_target rec <> Some k.

(** A poll of the neighbour table. *)
Definition is_poll (e : event) : bool :=
  match e with
  | SendCommand command _ => String.eqb command show_ospf_neighbor
  | _ => false
  end.

Definition polls (evs : list event) : nat := length (filter is_poll evs).

(** A configuration set that is the shutdown fix. *)
Definition is_shutdown_fix (e : event) : bool :=
  match e with
  | SendConfigSet commands _ =>
      if list_eq_dec string_dec commands shutdown_fix then true else false
  | _ => false
  end.

Definition shutdown_fixes (evs : list event) : nat :=
  length (filter is_shutdown_fix evs).

(** A configuration set that is the timer fix of some interface. *)
Definition is_timer_fix (e : event) : Prop :=
  forall commands answer,
    e = SendConfigSet commands answer -> exists f, commands = timer_fix f.

(** What a re-poll says about the neighbour [k]. *)
Definition shows_healthy (answer : string) (k : string) : bool :=
  healthy_in (neighbors_map (parse_ospf_neighbors answer)) k.

(** The three records that close the remediation of a neighbour. *)
Definition is_outcome (k : string) (e : event) : Prop :=
  e = Log SUCCESS (FixedByShutdown k) \/ e = Log SUCCESS (FixedByTimers k)
  \/ e = Log ERROR (Unresolved k).

(** An event that is neither a poll of the neighbour table nor the
    shutdown fix. *)
Definition quiet (e : event) : Prop :=
  is_poll e = false /\ is_shutdown_fix e = false.

(** The events of the first phase of the remediation of [k], which is
    the call of [compare_ospf_config]: either "shutdown" is found and the
    shutdown fix is sent, or the events are all quiet (the two fetches,
    the timer fixes that [compare_ospf_config] applies itself, and log
    records). *)
Inductive first_phase (k : string) : list event -> Prop :=
| FirstShutdown (out : string) (answer : result unit) :
    PyStr.contains "shutdown" out = true ->
    first_phase k
      ([Log DEBUG (ComparingOspfConfig k);
        SendCommand show_ospf_config (Ok out);
        Log WARNING ShutdownFound;
        SendConfigSet shutdown_fix answer]
       ++ match answer with
          | Ok _ => [Log DEBUG ShutdownRemoved; Sleep 10]
          | Raise e => [Log ERROR (CompareOspfConfigError k e)]
          end)
| FirstQuiet (evs : list event) :
    Forall quiet evs -> first_phase k evs.

(** The first re-poll, with the record and the sleep before it. *)
Definition first_repoll (k : string) (answer : result string) : list event :=
  [Log DEBUG (RecheckAfterShutdown k); Sleep 10;
   SendCommand show_ospf_neighbor answer].

(** The second re-poll, likewise. *)
Definition second_repoll (answer : result string) : list event :=
  [Log DEBUG RecheckAfterTimers; Sleep 10;
   SendCommand show_ospf_neighbor answer].

(** The events of the second phase and how it ends: the timer fetch,
    then, if a fault is found, the timer fixes and the second re-poll. *)
Inductive second_phase (k : string) : result unit -> list event -> Prop :=
| SecondFetchRaises (e : exn) :
    second_phase k (Raise e) [SendCommand show_ospf_timers (Raise e)]
| SecondParseRaises (out : string) (e : exn) :
    parse_ospf_timers out = Raise e ->
    second_phase k (Raise e) [SendCommand show_ospf_timers (Ok out)]
| SecondNoFault (out : string) :
    parse_ospf_timers out = Ok [] ->
    second_phase k (Ok tt)
      [SendCommand show_ospf_timers (Ok out); Log ERROR (Unresolved k)]
| SecondFixRaises (out : string) (fixes : list event) (e : exn) :
    Forall quiet fixes ->
    second_phase k (Raise e)
      (SendCommand show_ospf_timers (Ok out) :: Log WARNING TimerMismatches
       :: fixes)
| SecondPollRaises (out : string) (fixes : list event) (e : exn) :
    Forall quiet fixes ->
    second_phase k (Raise e)
      (SendCommand show_ospf_timers (Ok out) :: Log WARNING TimerMismatches
       :: fixes ++ second_repoll (Raise e))
| SecondFixed (out : string) (fixes : list event) (out2 : string) :
    Forall quiet fixes ->
    shows_healthy out2 k = true ->
    second_phase k (Ok tt)
      (SendCommand show_ospf_timers (Ok out) :: Log WARNING TimerMismatches
       :: fixes ++ second_repoll (Ok out2) ++ [Log SUCCESS (FixedByTimers k)])
| SecondUnresolved (out : string) (fixes : list event) (out2 : string) :
    Forall quiet fixes ->
    shows_healthy out2 k = false ->
    second_phase k (Ok tt)
      (SendCommand show_ospf_timers (Ok out) :: Log WARNING TimerMismatches
       :: fixes ++ second_repoll (Ok out2) ++ [Log ERROR (Unresolved k)]).

(** The runs of the remediation of one neighbour: the first phase and
    the first re-poll; the second phase only when that re-poll answered
    and did not show the neighbour healthy. *)
Inductive remediation (k : string) : result unit -> list event -> Prop :=
| PollRaises (phase1 : list event) (e : exn) :
    first_phase k phase1 ->
    remediation k (Raise e) (phase1 ++ first_repoll k (Raise e))
| FixedAtFirstPoll (phase1 : list event) (out : string) :
    first_phase k phase1 ->
    shows_healthy out k = true ->
    remediation k (Ok tt)
      (phase1 ++ first_repoll k (Ok out) ++ [Log SUCCESS (FixedByShutdown k)])
| SecondPhase (phase1 : list event) (out : string) (r : result unit)
              (phase2 : list event) :
    first_phase k phase1 ->
    shows_healthy out k = false ->
    second_phase k r phase2 ->
    remediation k r (phase1 ++ first_repoll k (Ok out) ++ phase2).

(** *** The diff *)

(** The indices, counted from [i], at which [e] occurs in [b]. *)
Fixpoint positions (b : list string) (i : nat) (e : string) : list nat :=
  match b with
  | [] => []
  | x :: rest =>
      if String.eqb x e then i :: positions rest (S i) e
      else positions rest (S i) e
  end.

(** The length of the run of elements present in the index [b2j] that
    ends at index [j] of [x]. *)
Fixpoint diag_run (b2j : Difflib.b2j_t) (x : list string) (j : nat) : nat :=
  match Difflib.b2j_get b2j (nth j x "") with
  | [] => 0
  | _ :: _ =>
      match j with
      | 0 => 1
      | S j' => S (diag_run b2j x j')
      end
  end.

(** The run that ends just before index [j]. *)
Definition diag_run_before (b2j : Difflib.b2j_t) (x : list string) (j : nat)
  : nat :=
  match j with
  | 0 => 0
  | S j' => diag_run b2j x j'
  end.

(** The state of the search of [find_longest_match] on a sequence [x]
    and itself while row [i] is read: the best block lies on the
    diagonal, it is at least as long as every diagonal run that ends
    before [i], and the entries written so far are bounded by the
    diagonal runs. [js] lists the indices still to be read. *)
Definition row_inv (b2j : Difflib.b2j_t) (x : list string) (i : nat)
           (js : list nat) (newj2len : Difflib.j2len_t) (best : Difflib.block)
  : Prop :=
  (exists bi bs, best = (bi, bi, bs) /\ bi + bs <= i + 1
                 /\ (forall j, j < i -> diag_run b2j x j <= bs)
                 /\ (In i js \/ diag_run b2j x i <= bs))
  /\ (forall j, Difflib.j2len_get newj2len j
                <= Nat.min (diag_run b2j x j) (diag_run b2j x i))
  /\ (In i js \/ Difflib.j2len_get newj2len i = diag_run b2j x i).

(** [R] holds between every element of the list and every later one. *)
Fixpoint pairwise {A : Type} (R : A -> A -> Prop) (l : list A) : Prop :=
  match l with
  | [] => True
  | x :: rest => Forall (R x) rest /\ pairwise R rest
  end.

(** A block that is a match of [a] and [b]: it lies inside both
    sequences and the elements it pairs are equal. *)
Definition vblock (a b : list string) (blk : Difflib.block) : Prop :=
  let '(i, j, k) := blk in
  i + k <= length a /\ j + k <= length b
  /\ forall t, t < k -> nth (i + t) a "" = nth (j + t) b "".

(** A match that lies inside the region [(alo, ahi, blo, bhi)]. *)
Definition match_in (a b : list string) (r : Difflib.region)
           (blk : Difflib.block) : Prop :=
  let '(alo, ahi, blo, bhi) := r in
  let '(i, j, k) := blk in
  alo <= i /\ i + k <= ahi /\ blo <= j /\ j + k <= bhi
  /\ forall t, t < k -> nth (i + t) a "" = nth (j + t) b "".

(** A region inside both sequences. *)
Definition region_ok (a b : list string) (r : Difflib.region) : Prop :=
  let '(alo, ahi, blo, bhi) := r in
  alo <= ahi /\ ahi <= length a /\ blo <= bhi /\ bhi <= length b.

(** The first block ends, in both sequences, where the second starts or
    earlier. *)
Definition before (x y : Difflib.block) : Prop :=
  let '(i1, j1, k1) := x in
  let '(i2, j2, _) := y in
  i1 + k1 <= i2 /\ j1 + k1 <= j2.

(** The region a block covers. *)
Definition region_of (blk : Difflib.block) : Difflib.region :=
  let '(i, j, k) := blk in (i, i + k, j, j + k).

Definition region_before (r1 r2 : Difflib.region) : Prop :=
  let '(_, ahi, _, bhi) := r1 in
  let '(alo, _, blo, _) := r2 in
  ahi <= alo /\ bhi <= blo.

(** Two regions of which one lies wholly before the other. *)
Definition apart (r1 r2 : Difflib.region) : Prop :=
  region_before r1 r2 \/ region_before r2 r1.

Definition inside (r' r : Difflib.region) : Prop :=
  let '(alo', ahi', blo', bhi') := r' in
  let '(alo, ahi, blo, bhi) := r in
  alo <= alo' /\ ahi' <= ahi /\ blo <= blo' /\ bhi' <= bhi.

(** The entries of [j2len] when row [i] is about to be read: an entry
    [k] at [j] is a match of length [k] that ends at [a[i-1]] and
    [b[j]], inside the region. *)
Definition j2len_ok (a b : list string) (alo blo bhi i : nat)
           (j2len : Difflib.j2len_t) : Prop :=
  forall j, 0 < Difflib.j2len_get j2len j ->
            Difflib.j2len_get j2len j <= i - alo
            /\ blo + Difflib.j2len_get j2len j <= j + 1
            /\ j < bhi
            /\ forall t, t < Difflib.j2len_get j2len j ->
                         nth (i - Difflib.j2len_get j2len j + t) a ""
                         = nth (j + 1 - Difflib.j2len_get j2len j + t) b "".

(** What holds while [get_matching_blocks] runs its queue: the pending
    regions lie inside the sequences, the blocks found are matches of
    positive size, and the regions and blocks are pairwise apart. *)
Definition loop_inv (a b : list string) (queue : list Difflib.region)
           (blocks : list Difflib.block) : Prop :=
  Forall (region_ok a b) queue
  /\ Forall (fun blk => vblock a b blk /\ 0 < snd blk) blocks
  /\ pairwise apart (queue ++ map region_of blocks).

(** A bound on the rounds that the queue still needs. *)
Fixpoint queue_measure (queue : list Difflib.region) : nat :=
  match queue with
  | [] => 0
  | (alo, ahi, _, _) :: rest => 2 * (ahi - alo) + 1 + queue_measure rest
  end.

(** An opcode that describes [a] and [b] truly: its ranges lie inside
    the sequences, an [equal] opcode pairs equal elements, a [delete]
    opcode takes nothing from [b] and an [insert] opcode nothing from
    [a]. *)
Definition op_ok (a b : list string) (c : Difflib.opcode) : Prop :=
  let '(t, i1, i2, j1, j2) := c in
  i1 <= i2 /\ i2 <= length a /\ j1 <= j2 /\ j2 <= length b
  /\ match t with
     | Difflib.Equal =>
         i2 - i1 = j2 - j1
         /\ forall t, t < i2 - i1 -> nth (i1 + t) a "" = nth (j1 + t) b ""
     | Difflib.Delete => j1 = j2
     | Difflib.Insert => i1 = i2
     | Difflib.Replace => True
     end.

(** The opcodes start at [(i, j)] and each starts where the one before
    it ends. *)
Fixpoint linked (i j : nat) (ops : list Difflib.opcode) : Prop :=
  match ops with
  | [] => True
  | (_, i1, i2, j1, j2) :: rest => i1 = i /\ j1 = j /\ linked i2 j2 rest
  end.

(** Where the last of the opcodes ends; [(i, j)] if there is none. *)
Fixpoint ends (i j : nat) (ops : list Difflib.opcode) : nat * nat :=
  match ops with
  | [] => (i, j)
  | (_, _, i2, _, j2) :: rest => ends i2 j2 rest
  end.

(** The text of the lines of a hunk that are not tagged removed, and of
    those that are not tagged added; the tag is the first character. *)
Definition live_side (lines : list string) : list string :=
  map drop_first
      (filter (fun line => negb (PyStr.startswith line "-")) lines).

Definition golden_side (lines : list string) : list string :=
  map drop_first
      (filter (fun line => negb (PyStr.startswith line "+")) lines).

(** The same for a whole diff, where the two file header lines and the
    hunk header lines carry no tag. *)
Definition is_diff_header (line : string) : bool :=
  PyStr.startswith line "---" || PyStr.startswith line "+++"
  || PyStr.startswith line "@@".

Definition diff_live_side (diff : list string) : list string :=
  live_side (filter (fun line => negb (is_diff_header line)) diff).

Definition diff_golden_side (diff : list string) : list string :=
  golden_side (filter (fun line => negb (is_diff_header line)) diff).

(** *** The diff as a patch *)

(** The lines of [a] from [i] up to [s] are the lines of [b] from [j] up
    to [t]: a stretch that the two sequences share. *)
Definition same_stretch (a b : list string) (i j s t : nat) : Prop :=
  i <= s /\ s <= length a /\ j <= t /\ t <= length b
  /\ Difflib.slice a i s = Difflib.slice b j t.

(** Groups of opcodes that describe [a] and [b] from [(i, j)] up to
    [(i', j')]: each group is a run of true opcodes that continue each
    other, and what lies before, between and after the groups is shared
    by the two sequences. *)
Fixpoint covers (a b : list string) (i j : nat)
         (groups : list (list Difflib.opcode)) (i' j' : nat) : Prop :=
  match groups with
  | [] => same_stretch a b i j i' j'
  | g :: rest =>
      exists s t,
        same_stretch a b i j s t
        /\ Forall (op_ok a b) g /\ linked s t g
        /\ covers a b (fst (ends s t g)) (snd (ends s t g)) rest i' j'
  end.

(** A hunk of the diff: the four numbers of its header,
    [(i1, i2, j1, j2)] for the lines [i1] to [i2] of the first sequence
    and [j1] to [j2] of the second, counted from 0 with the upper bound
    left out, and its tagged lines. *)
Definition hunk : Type := (Difflib.region * list string)%type.

(** The hunks of the diff of [a] and [b]. *)
Definition diff_hunks (a b : list string) : list hunk :=
  map (fun g => (Difflib.group_range g, Difflib.group_body a b g))
      (Difflib.get_grouped_opcodes a b 3).

(** The header line of a hunk with the ranges [r]. *)
Definition range_header (r : Difflib.region) : string :=
  let '(i1, i2, j1, j2) := r in
  ("@@ -" ++ Difflib.format_range_unified i1 i2 ++ " +"
   ++ Difflib.format_range_unified j1 j2 ++ " @@")%string.

(** The hunks [hunks] account for [a] from line [i] and for [b] from
    line [j] to their ends: they come in order and inside the two
    sequences; the lines of a hunk that are not tagged removed are the
    lines [j1] to [j2] of [b], those not tagged added the lines [i1] to
    [i2] of [a]; and the lines left out before a hunk, and after the last
    one, are the same in [a] and [b]. *)
Fixpoint hunks_from (a b : list string) (i j : nat) (hunks : list hunk)
  : Prop :=
  match hunks with
  | [] => same_stretch a b i j (length a) (length b)
  | ((i1, i2, j1, j2), body) :: rest =>
      same_stretch a b i j i1 j1
      /\ i1 <= i2 /\ j1 <= j2
      /\ live_side body = Difflib.slice b j1 j2
      /\ golden_side body = Difflib.slice a i1 i2
      /\ hunks_from a b i2 j2 rest
  end.

(** The diff applied to the first sequence from line [i] on: the lines
    that a hunk covers are replaced by the lines of the hunk that are not
    tagged removed, the others are kept. *)
Fixpoint patch (a : list string) (i : nat) (hunks : list hunk) : list string :=
  match hunks with
  | [] => skipn i a
  | ((i1, i2, _, _), body) :: rest =>
      Difflib.slice a i i1 ++ live_side body ++ patch a i2 rest
  end.

(** The diff taken back from the second sequence from line [j] on. *)
Fixpoint unpatch (b : list string) (j : nat) (hunks : list hunk) : list string :=
  match hunks with
  | [] => skipn j b
  | ((_, _, j1, j2), body) :: rest =>
      Difflib.slice b j j1 ++ golden_side body ++ unpatch b j2 rest
  end.

(** *** Interface blocks of the timer output *)






(** ** Concrete sessions used in the examples *)

Module Demo.

(** A device whose answer to a show command depends on the command only,
    and which accepts every configuration command. *)
Definition static (answer : string -> result string) : Session unit :=
  {| send_command := fun command s => (answer command, s);
     send_config_set := fun _ s => (Ok tt, s);
     send_config_from_file := fun _ s => (Ok tt, s);
     enable := fun s => (Ok tt, s);
     sleep := fun _ s => s |}.

(** Sets iterated in the order in which they were built. *)
Definition insertion_order : SetOrder :=
  {| set_order := fun s => s;
     set_order_perm := fun s => Permutation_refl s |}.

Definition row (id st : string) : neighbor :=
  {| neighbor_id := id; instance := "1"; vrf := "default"; priority := "1";
     state := st; address := "10.1.1.2"; interface := "Ethernet1" |}.

(** A golden and a live configuration: the live one has lost the
    [interface] line and gained a [shutdown]. *)
Definition golden_lost_header : list string :=
  ["interface Gi0/1"; "description uplink"].

Definition live_lost_header : list string :=
  ["description uplink"; "shutdown"].

Definition up_line : string := "Ethernet1 is up, line protocol is up".

Definition timer_line (hello dead retransmit : string) : string :=
  ("  Timer intervals configured, Hello " ++ hello ++ ", Dead " ++ dead
   ++ ", Retransmit " ++ retransmit)%string.

(** The text of a show command: its lines joined by line feeds. *)
Definition text (lines : list string) : string := PyStr.join newline lines.

(** A golden configuration of eight lines and a live one that differs
    in the last line. *)
Definition golden_eight : list string :=
  ["hostname R1"; "interface Gi0/0"; "ip address 10.0.0.1 255.255.255.0";
   "ip ospf cost 10"; "interface Gi0/1"; "ip address 10.0.1.1 255.255.255.0";
   "router ospf 1"; "network 10.0.0.0 0.0.255.255 area 0"].

Definition live_eight : list string :=
  ["hostname R1"; "interface Gi0/0"; "ip address 10.0.0.1 255.255.255.0";
   "ip ospf cost 10"; "interface Gi0/1"; "ip address 10.0.1.1 255.255.255.0";
   "router ospf 1"; "network 10.0.0.0 0.0.255.255 area 1"].

(** A device whose OSPF process 7 is shut down. *)
Definition shut_down : Session unit :=
  static (fun command =>
            if String.eqb command show_ospf_config
            then Ok (text ["router ospf 7"; " shutdown"])
            else Ok "").

Definition neighbor_header : string :=
  "Neighbor ID     Instance VRF      Pri State      Dead Time   Address   Interface".

Definition neighbor_line (id st : string) : string :=
  (id ++ " 1 default 1 " ++ st ++ " 00:00:35 10.1.1.2 Ethernet1")%string.

(** A device with no shutdown in its OSPF configuration, a dead interval
    of 30 on Ethernet1, and a neighbour table that shows 10.0.0.2 in
    state FULL. *)
Definition wrong_timers : Session unit :=
  static (fun command =>
            if String.eqb command show_ospf_config
            then Ok (text ["router ospf 1"; " network 10.0.0.0/8 area 0"])
            else if String.eqb command show_ospf_timers
            then Ok (text [up_line; timer_line "10" "30" "5"])
            else Ok (text [neighbor_header; neighbor_line "10.0.0.2" "FULL/DR"])).




End Demo.

(** ** Further definitions: text shapes *)

(** Every character of [s] satisfies [p]. *)
Fixpoint all_chars (p : ascii -> bool) (s : string) : bool :=
  match s with
  | EmptyString => true
  | String c s' => p c && all_chars p s'
  end.

(** A text that holds no line boundary, and one that holds no
    whitespace. *)
Definition no_linebreak (s : string) : bool :=
  all_chars (fun c => negb (PyStr.is_linebreak c)) s.

Definition no_space (s : string) : bool :=
  all_chars (fun c => negb (PyStr.is_space c)) s.

(** ** Further definitions: diff lines *)

(** A diff line that [parse_contextual_commands] passes over whatever it
    holds: a removed line, a hunk header, or a line that starts with
    "+++". *)
Definition is_ignored (line : string) : bool :=
  PyStr.startswith line "-" || PyStr.startswith line "@"
  || PyStr.startswith line "+++".

(** Where a list of matching blocks read from [(i, j)] ends: after its
    last block. *)
Fixpoint blocks_end (blocks : list Difflib.block) (i j : nat) : nat * nat :=
  match blocks with
  | [] => (i, j)
  | (ai, bj, size) :: rest => blocks_end rest (ai + size) (bj + size)
  end.

(** ** Further definitions: failing session calls *)

(** The exception of a session call that failed. *)
Definition failure (e : event) : option exn :=
  match e with
  | SendCommand _ (Raise x) | SendConfigSet _ (Raise x)
  | SendConfigFromFile _ (Raise x) | Enable (Raise x) => Some x
  | _ => None
  end.

(** Events among which no session call failed. *)
Definition all_answered (evs : list event) : Prop :=
  Forall (fun e => failure e = None) evs.

Section FailStop.

Context {session : Type} {net_connect : Session session}.

(** A computation that a failing session call ends at once: when it
    returns, every session call of it was answered; when it raises, either
    the same holds (the script itself raised) or the last event is the
    session call that failed, with the exception it raised. *)
Definition fail_stop {A : Type} (m : @M session A) : Prop :=
  forall (s : session) (tr : list event),
  exists evs,
    snd (snd (m (s, tr))) = tr ++ evs
    /\ match fst (m (s, tr)) with
       | Ok _ => all_answered evs
       | Raise x =>
           all_answered evs
           \/ exists pre ev, evs = pre ++ [ev] /\ all_answered pre
                             /\ failure ev = Some x
       end.

End FailStop.

(** ** Further definitions: parsed tables *)

(** A field of a table row: not empty and free of whitespace. *)
Definition is_token (s : string) : Prop := s <> "" /\ no_space s = true.

(** A fault that [parse_ospf_timers] may report for the lines [lines]:
    one of its timers is not the default, its interface is the first
    word of a line that says "is up", and its timers are the three
    values of a line that says "Timer intervals configured". *)
Definition fault_of (lines : list string) (f : timer_fault) : Prop :=
  (hello_timer f <> 10 \/ dead_timer f <> 40 \/ retransmit_timer f <> 5)%Z
  /\ (exists up, In up lines /\ PyStr.contains "is up" up = true
                 /\ index (PyStr.split up) 0 = Ok (tf_interface f))
  /\ (exists timers,
         In timers lines
         /\ PyStr.contains "Timer intervals configured" timers = true
         /\ timer_field (PyStr.split_on ", " timers) 1 = Ok (hello_timer f)
         /\ timer_field (PyStr.split_on ", " timers) 2 = Ok (dead_timer f)
         /\ timer_field (PyStr.split_on ", " timers) 3 = Ok (retransmit_timer f)).

(** ** Golden neighbour state and the neighbour check *)

(** [file.readlines()] on the text of a file opened in text mode: the
    lines, each with the line feed that ends it. A carriage return, and
    a carriage return with the line feed after it, end a line as a line
    feed does and are read as one line feed. [after_cr] is set just
    after a carriage return. *)
Fixpoint readlines_go (after_cr : bool) (cur : list ascii) (s : string)
  : list string :=
  match s with
  | EmptyString =>
      match cur with [] => [] | _ => [PyStr.rev_string cur] end
  | String c s' =>
      if after_cr && PyStr.is_lf c then readlines_go false cur s'
      else if PyStr.is_lf c || PyStr.is_cr c
           then PyStr.rev_string ("010"%char :: cur)
                :: readlines_go (PyStr.is_cr c) [] s'
           else readlines_go false (c :: cur) s'
  end.

Definition readlines (s : string) : list string := readlines_go false [] s.

(** The log records of [load_golden_ospf_neighbors] and of
    [check_ospf_neighbors]; again without the device name. *)
Inductive check_record : Type :=
| CheckingNeighbors                       (* check_ospf_neighbors, debug *)
| GoldenStateNotFound (path : string)     (* load_golden_ospf_neighbors, error *)
| GoldenStateError (e : exn)              (* load_golden_ospf_neighbors, error *)
| CheckNeighborsError (e : exn).          (* check_ospf_neighbors, error *)

Definition golden_state_path (device_name : string) : string :=
  ("/home/student/git/csci5840/golden-state/" ++ device_name ++ "/ospf")%string.

(** [load_golden_ospf_neighbors]: the rows of the golden file, read like
    the rows of the live table but from [readlines]; with no file, or a
    file that cannot be read, the empty list and an error record. The
    second component lists the records logged, all at level [ERROR]. *)
Definition load_golden_ospf_neighbors (device_name : string) (file : golden_file)
  : list neighbor * list check_record :=
  match file with
  | NoSuchFile => ([], [GoldenStateNotFound (golden_state_path device_name)])
  | ReadFails => ([], [GoldenStateError OSError])
  | Contents text => (flat_map parse_neighbor_row (tl (readlines text)), [])
  end.

(** The events of [check_ospf_neighbors]: those of the engine and its own
    log records. *)
Inductive check_event : Type :=
| Engine (e : event)
| CheckLog (lvl : level) (rec : check_record).

Section Check.

Context {session : Type} {net_connect : Session session} {order : SetOrder}.

(** [check_ospf_neighbors]: the live table is fetched and parsed, the
    golden table loaded and the two compared; an exception of any of
    these is logged and not raised again. The result is the session
    afterwards and the events in order. *)
Definition check_ospf_neighbors (device_name : string) (file : golden_file)
           (s : session) : session * list check_event :=
  let '(live_output, s1) := send_command show_ospf_neighbor s in
  let start :=
    [CheckLog DEBUG CheckingNeighbors;
     Engine (SendCommand show_ospf_neighbor live_output)] in
  match live_output with
  | Raise e => (s1, start ++ [CheckLog ERROR (CheckNeighborsError e)])
  | Ok live_output =>
      let live_neighbors := parse_ospf_neighbors live_output in
      let '(golden_neighbors, records) :=
        load_golden_ospf_neighbors device_name file in
      let '(r, (s2, evs)) :=
        compare_ospf_neighbors live_neighbors golden_neighbors (s1, []) in
      (s2,
       start ++ map (CheckLog ERROR) records ++ map Engine evs
       ++ match r with
          | Ok _ => []
          | Raise e => [CheckLog ERROR (CheckNeighborsError e)]
          end)
  end.

End Check.

(** ** Further definitions: what the reconciliation does *)

Definition is_log (e : event) : bool :=
  match e with Log _ _ => true | _ => false end.

(** The events of the reconciliation: the three show commands, the
    shutdown fix, the timer fix of an interface of which a timer is off
    its default, sleeps of ten seconds and log records. *)
Definition reconcile_event (e : event) : Prop :=
  match e with
  | SendCommand command _ =>
      command = show_ospf_config \/ command = show_ospf_timers
      \/ command = show_ospf_neighbor
  | SendConfigSet commands _ =>
      commands = shutdown_fix
      \/ exists f, commands = timer_fix f
                   /\ (hello_timer f <> 10 \/ dead_timer f <> 40
                       \/ retransmit_timer f <> 5)%Z
  | Sleep seconds => seconds = 10%Z
  | Log _ _ => True
  | SendConfigFromFile _ _ | Enable _ | WriteFile _ _ => False
  end.

(** The configuration set [commands], sent after the events [before],
    answers what the device said earlier in the run: it is the shutdown
    fix and an answer to the configuration command had "shutdown" in it,
    or it is the timer fix of a fault that [parse_ospf_timers] reports
    for an answer to the timer command, a fault with a timer off its
    default. *)
Definition known_fix (before : list event) (commands : list string) : Prop :=
  (commands = shutdown_fix
   /\ exists config,
        In (SendCommand show_ospf_config (Ok config)) before
        /\ PyStr.contains "shutdown" config = true)
  \/ (exists output faults fault,
         In (SendCommand show_ospf_timers (Ok output)) before
         /\ parse_ospf_timers output = Ok faults
         /\ In fault faults
         /\ (hello_timer fault <> 10 \/ dead_timer fault <> 40
             \/ retransmit_timer fault <> 5)%Z
         /\ commands = timer_fix fault).

(** Every configuration set of the trace answers what came before it. *)
Definition sends_known (trace : list event) : Prop :=
  forall before commands answer after,
    trace = before ++ SendConfigSet commands answer :: after ->
    known_fix before commands.

(** A property of traces that more events do not undo. *)
Definition lasting (pre : list event -> Prop) : Prop :=
  forall trace more, pre trace -> pre (trace ++ more).

Section Evidence.

Context {session : Type} {net_connect : Session session}.

(** Started after a trace with [pre] in which every configuration set
    answers what came before it, [m] leaves such a trace, and one with
    [post] when it returns. *)
Definition keeps_known {A : Type} (pre : list event -> Prop) (m : @M session A)
           (post : A -> list event -> Prop) : Prop :=
  forall (s : session) (tr : list event),
    sends_known tr -> pre tr ->
    sends_known (snd (snd (m (s, tr))))
    /\ forall a, fst (m (s, tr)) = Ok a -> post a (snd (snd (m (s, tr)))).

End Evidence.

(** The seconds slept in a run. *)
Fixpoint slept (evs : list event) : Z :=
  match evs with
  | [] => 0
  | Sleep seconds :: rest => seconds + slept rest
  | _ :: rest => slept rest
  end.

(** A text in which the only line boundary is the line feed. *)
Definition lf_only (s : string) : bool :=
  all_chars (fun c => negb (PyStr.is_linebreak c) || PyStr.is_lf c) s.

Section Waiting.

Context {session : Type} {net_connect : Session session}.

(** A computation that sleeps [n] seconds at most in all. *)
Definition sleeps_at_most {A : Type} (n : Z) (m : @M session A) : Prop :=
  forall (s : session) (tr : list event),
  exists evs, snd (snd (m (s, tr))) = tr ++ evs /\ (0 <= slept evs <= n)%Z.

End Waiting.

(** ** Further concrete sessions and texts *)

Module Lab.

(** A device that answers every show command with [table] and refuses
    what [refuses] names: to enter enable mode, or any configuration
    set. *)
Inductive refusal : Type := RefuseEnable | RefuseConfigSet | RefuseNothing.

Definition device (table : string) (refuses : refusal) : Session unit :=
  {| send_command := fun _ s => (Ok table, s);
     send_config_set :=
       fun _ s => (match refuses with
                   | RefuseConfigSet => Raise SessionError
                   | _ => Ok tt
                   end, s);
     send_config_from_file := fun _ s => (Ok tt, s);
     enable :=
       fun s => (match refuses with
                 | RefuseEnable => Raise SessionError
                 | _ => Ok tt
                 end, s);
     sleep := fun _ s => s |}.

(** A device that answers no show command. *)
Definition silent : Session unit :=
  Demo.static (fun _ => Raise SessionError).

(** A live configuration with a [shutdown] under an interface that the
    golden configuration does not have. *)
Definition golden_interface : string := Demo.text ["interface Gi0/1"].

Definition live_interface : string :=
  Demo.text ["interface Gi0/1"; " shutdown"].

(** A neighbour table with one healthy neighbour. *)
Definition table : string :=
  Demo.text [Demo.neighbor_header; Demo.neighbor_line "10.0.0.2" "FULL/DR"].

(** An OSPF configuration that is shut down, as a device answers it. *)
Definition shut : string := Demo.text ["router ospf 1"; " shutdown"].

End Lab.

(** * Properties *)

(** ** Dictionaries and neighbour maps *)

Lemma dict_get_set (d : dict) (k v k' : string) :
  dict_get (dict_set d k v) k' = if String.eqb k k' then Some v else dict_get d k'.
Proof.
  induction d as [|[k0 v0] d IH]; simpl.
  - reflexivity.
  - destruct (String.eqb k0 k) eqn:E0; simpl.
    + apply String.eqb_eq in E0; subst k0.
      destruct (String.eqb k k'); reflexivity.
    + destruct (String.eqb k0 k') eqn:E1.
      * apply String.eqb_eq in E1; subst k0. rewrite String.eqb_sym, E0. reflexivity.
      * exact IH.
Qed.

Lemma dict_keys_set (d : dict) (k v x : string) :
  In x (dict_keys (dict_set d k v)) <-> x = k \/ In x (dict_keys d).
Proof.
  unfold dict_keys. induction d as [|[k0 v0] d IH]; simpl.
  - intuition.
  - destruct (String.eqb k0 k) eqn:E0; simpl.
    + apply String.eqb_eq in E0; subst k0. intuition.
    + rewrite IH. intuition.
Qed.

Lemma dict_set_NoDup (d : dict) (k v : string) :
  NoDup (dict_keys d) -> NoDup (dict_keys (dict_set d k v)).
Proof.
  unfold dict_keys. induction d as [|[k0 v0] d IH]; simpl; intros H.
  - constructor; [intros []|constructor].
  - inversion H as [|? ? Hnin Hd]; subst.
    destruct (String.eqb k0 k) eqn:E0; simpl.
    + constructor; assumption.
    + constructor; [|auto].
      intros Hin. apply (dict_keys_set d k v k0) in Hin.
      destruct Hin as [->|Hin]; [|contradiction].
      rewrite String.eqb_refl in E0. discriminate.
Qed.

Lemma dict_get_In (d : dict) (k v : string) :
  dict_get d k = Some v -> In (k, v) d.
Proof.
  induction d as [|[k0 v0] d IH]; simpl; [discriminate|].
  destruct (String.eqb k0 k) eqn:E.
  - apply String.eqb_eq in E; subst. intros [= ->]. now left.
  - auto.
Qed.

Lemma dict_In_get (d : dict) (k v : string) :
  NoDup (dict_keys d) -> In (k, v) d -> dict_get d k = Some v.
Proof.
  unfold dict_keys. induction d as [|[k0 v0] d IH]; simpl; [intros _ []|].
  intros H Hin. inversion H as [|? ? Hnin Hd]; subst.
  destruct Hin as [[= -> ->]|Hin].
  - now rewrite String.eqb_refl.
  - destruct (String.eqb k0 k) eqn:E; [|auto].
    apply String.eqb_eq in E; subst k0. exfalso. apply Hnin.
    change k with (fst (k, v)). now apply in_map.
Qed.

Lemma dict_mem_keys (d : dict) (k : string) :
  dict_mem d k = true <-> In k (dict_keys d).
Proof.
  unfold dict_mem, dict_keys. induction d as [|[k0 v0] d IH]; simpl.
  - split; [discriminate|intros []].
  - destruct (String.eqb k0 k) eqn:E.
    + apply String.eqb_eq in E. intuition.
    + rewrite IH. apply String.eqb_neq in E. intuition.
Qed.

Lemma mem_In (x : string) (s : list string) : mem x s = true <-> In x s.
Proof.
  unfold mem. rewrite existsb_exists. split.
  - intros (y & Hy & E). apply String.eqb_eq in E. now subst.
  - intros H. exists x. split; [assumption|apply String.eqb_refl].
Qed.

Lemma set_diff_In (x : string) (s t : list string) :
  In x (set_diff s t) <-> In x s /\ ~ In x t.
Proof.
  unfold set_diff. rewrite filter_In, negb_true_iff, <- not_true_iff_false, mem_In.
  reflexivity.
Qed.

Lemma find_append {A : Type} (f : A -> bool) (l l' : list A) :
  find f (l ++ l') = match find f l with Some x => Some x | None => find f l' end.
Proof.
  induction l as [|x l IH]; simpl; [reflexivity|].
  destruct (f x); [reflexivity|exact IH].
Qed.

Lemma neighbors_fold_get (rows : list neighbor) (d : dict) (k : string) :
  dict_get (fold_left (fun d n => dict_set d (neighbor_id n) (state n)) rows d) k
  = match last_row rows k with
    | Some n => Some (state n)
    | None => dict_get d k
    end.
Proof.
  unfold last_row. revert d. induction rows as [|n rows IH]; intros d; simpl.
  - reflexivity.
  - rewrite IH, find_append.
    destruct (find _ (rev rows)); [reflexivity|]. simpl.
    rewrite dict_get_set. destruct (String.eqb (neighbor_id n) k); reflexivity.
Qed.

Lemma neighbors_fold_NoDup (rows : list neighbor) (d : dict) :
  NoDup (dict_keys d) ->
  NoDup (dict_keys (fold_left (fun d n => dict_set d (neighbor_id n) (state n)) rows d)).
Proof.
  revert d. induction rows as [|n rows IH]; intros d H; simpl; [assumption|].
  apply IH, dict_set_NoDup, H.
Qed.

Lemma neighbors_map_get (rows : list neighbor) (k : string) :
  dict_get (neighbors_map rows) k = option_map state (last_row rows k).
Proof.
  unfold neighbors_map. rewrite neighbors_fold_get.
  destruct (last_row rows k); reflexivity.
Qed.

Lemma neighbors_map_NoDup (rows : list neighbor) :
  NoDup (dict_keys (neighbors_map rows)).
Proof. apply neighbors_fold_NoDup. constructor. Qed.

Section Classification.

Context {order : SetOrder}.

Lemma unhealthy_In (lm gm : dict) (k : string) :
  In k (unhealthy_neighbors lm gm)
  <-> exists st, In (k, st) lm /\ dict_mem gm k = true /\ healthy st = false.
Proof.
  unfold unhealthy_neighbors. rewrite in_flat_map. split.
  - intros ([k' st] & Hin & Hk).
    destruct (dict_mem gm k') eqn:Em; simpl in Hk; [|contradiction].
    destruct (healthy st) eqn:Eh; simpl in Hk; [contradiction|].
    destruct Hk as [->|[]]. exists st. auto.
  - intros (st & Hin & Em & Eh). exists (k, st). split; [assumption|].
    rewrite Em, Eh. simpl. now left.
Qed.

Lemma problematic_In (lm gm : dict) (k : string) :
  In k (problematic_neighbors lm gm)
  <-> (In k (dict_keys gm) /\ ~ In k (dict_keys lm))
      \/ In k (unhealthy_neighbors lm gm).
Proof.
  unfold problematic_neighbors, missing_neighbors. rewrite in_app_iff.
  rewrite <- set_diff_In. split; (intros [H|H]; [left|now right]).
  - eapply Permutation_in; [apply set_order_perm|exact H].
  - eapply Permutation_in; [apply Permutation_sym, set_order_perm|exact H].
Qed.

(** C5. A neighbour that the live and the golden map both contain is
    classified problematic exactly when its live state starts neither
    with "2" nor with "FULL"; so "FULL/BDR" is never problematic and
    "DOWN" always is, whatever the golden state. *)
Theorem C5_problematic_iff_unhealthy
        (live_neighbors golden_neighbors : list neighbor) (k st : string) :
  dict_get (neighbors_map live_neighbors) k = Some st ->
  dict_mem (neighbors_map golden_neighbors) k = true ->
  (In k (problematic_neighbors (neighbors_map live_neighbors)
                               (neighbors_map golden_neighbors))
   <-> PyStr.startswith st "2" = false /\ PyStr.startswith st "FULL" = false)
  /\ (st = "FULL/BDR" ->
      ~ In k (problematic_neighbors (neighbors_map live_neighbors)
                                    (neighbors_map golden_neighbors)))
  /\ (st = "DOWN" ->
      In k (problematic_neighbors (neighbors_map live_neighbors)
                                  (neighbors_map golden_neighbors))).
Proof.
  intros Hlive Hgold.
  set (lm := neighbors_map live_neighbors) in *.
  set (gm := neighbors_map golden_neighbors) in *.
  assert (Hiff : In k (problematic_neighbors lm gm) <-> healthy st = false).
  { rewrite problematic_In, unhealthy_In. split.
    - intros [[_ Hnot]|(st' & Hin & _ & Hh)].
      + exfalso. apply Hnot. apply dict_mem_keys. unfold dict_mem.
        now rewrite Hlive.
      + apply dict_In_get in Hin; [|apply neighbors_map_NoDup].
        rewrite Hlive in Hin. now injection Hin as ->.
    - intros Hh. right. exists st. split; [now apply dict_get_In|auto]. }
  split; [|split].
  - rewrite Hiff. unfold healthy. apply orb_false_iff.
  - intros ->. rewrite Hiff. discriminate.
  - intros ->. now rewrite Hiff.
Qed.

End Classification.

Lemma C5_witness :
  let live := [Demo.row "10.0.0.1" "DOWN"] in
  let golden := [Demo.row "10.0.0.1" "FULL/DR"] in
  In "10.0.0.1"
     (@problematic_neighbors Demo.insertion_order
        (neighbors_map live) (neighbors_map golden)).
Proof.
  intros live golden.
  apply (@C5_problematic_iff_unhealthy Demo.insertion_order live golden
           "10.0.0.1" "DOWN"); reflexivity.
Defined.

(** C10. When several rows of a neighbour table carry the same
    identifier, the map built from the table records the state of the
    last of them, and both the classification of the live table and the
    check of a re-polled table read that state only. *)
Theorem C10_last_row_wins (rows : list neighbor) (k : string) :
  dict_get (neighbors_map rows) k = option_map state (last_row rows k)
  /\ healthy_in (neighbors_map rows) k
     = match last_row rows k with
       | Some n => healthy (state n)
       | None => false
       end
  /\ (forall golden_map,
         In k (unhealthy_neighbors (neighbors_map rows) golden_map)
         <-> exists n, last_row rows k = Some n
                       /\ dict_mem golden_map k = true
                       /\ healthy (state n) = false).
Proof.
  split; [apply neighbors_map_get|split].
  - unfold healthy_in. rewrite neighbors_map_get.
    destruct (last_row rows k); reflexivity.
  - intros gm. rewrite unhealthy_In. split.
    + intros (st & Hin & Hm & Hh).
      apply dict_In_get in Hin; [|apply neighbors_map_NoDup].
      rewrite neighbors_map_get in Hin.
      destruct (last_row rows k) as [n|]; [|discriminate].
      injection Hin as <-. exists n. auto.
    + intros (n & Hn & Hm & Hh). exists (state n). split; [|auto].
      apply dict_get_In. rewrite neighbors_map_get, Hn. reflexivity.
Qed.

(** ** Rollback-command derivation *)

Lemma pcc_step_acc (ctx : option string) (acc : list contextual_command)
      (line : string) :
  pcc_step (ctx, acc) line
  = (fst (pcc_step (ctx, []) line), acc ++ snd (pcc_step (ctx, []) line)).
Proof.
  unfold pcc_step.
  destruct (is_added line).
  - destruct (PyStr.strip (drop_first line)) as [|c s]; simpl.
    + now rewrite app_nil_r.
    + destruct (PyStr.startswith (String c s) "!"); simpl.
      * now rewrite app_nil_r.
      * destruct (truthy ctx); reflexivity.
  - destruct (is_context_candidate line); simpl.
    + destruct (is_mode_header (PyStr.strip line)); simpl; now rewrite app_nil_r.
    + now rewrite app_nil_r.
Qed.

Lemma pcc_fold_acc (l : list string) (ctx : option string)
      (acc : list contextual_command) :
  fold_left pcc_step l (ctx, acc)
  = (fst (fold_left pcc_step l (ctx, [])),
     acc ++ snd (fold_left pcc_step l (ctx, []))).
Proof.
  revert ctx acc. induction l as [|x l IH]; intros ctx acc; cbn [fold_left].
  - cbn. now rewrite app_nil_r.
  - rewrite pcc_step_acc.
    destruct (pcc_step (ctx, []) x) as [c1 a1] eqn:E. cbn [fst snd].
    rewrite IH. rewrite (IH c1 a1). cbn [fst snd]. now rewrite app_assoc.
Qed.

Lemma added_not_candidate (line : string) :
  is_added line = true -> is_context_candidate line = false.
Proof.
  unfold is_added, is_context_candidate.
  destruct (PyStr.startswith line "+"); simpl; [|discriminate].
  intros _. now rewrite andb_false_r.
Qed.

Lemma pcc_step_ctx (ctx : option string) (acc : list contextual_command)
      (line : string) :
  fst (pcc_step (ctx, acc) line)
  = if sets_context line then Some (PyStr.strip line) else ctx.
Proof.
  unfold pcc_step, sets_context.
  destruct (is_added line) eqn:Ea.
  - rewrite (added_not_candidate _ Ea). simpl.
    destruct (PyStr.strip (drop_first line)) as [|c s]; [reflexivity|].
    destruct (PyStr.startswith (String c s) "!"); simpl; [reflexivity|].
    destruct (truthy ctx); reflexivity.
  - destruct (is_context_candidate line); simpl; [|reflexivity].
    destruct (is_mode_header (PyStr.strip line)); reflexivity.
Qed.

Lemma last_context_snoc (l : list string) (x : string) :
  last_context (l ++ [x])
  = if sets_context x then Some (PyStr.strip x) else last_context l.
Proof.
  unfold last_context. rewrite rev_app_distr. simpl.
  destruct (sets_context x); reflexivity.
Qed.

Lemma pcc_fold_ctx (l : list string) (ctx : option string)
      (acc : list contextual_command) :
  fst (fold_left pcc_step l (ctx, acc))
  = match last_context l with Some c => Some c | None => ctx end.
Proof.
  induction l as [|x l IH] using rev_ind.
  - reflexivity.
  - rewrite fold_left_app. cbn [fold_left].
    destruct (fold_left pcc_step l (ctx, acc)) as [c a]. cbn [fst] in IH.
    rewrite pcc_step_ctx, last_context_snoc.
    destruct (sets_context x); [reflexivity|exact IH].
Qed.

Lemma last_context_truthy (l : list string) (c : string) :
  last_context l = Some c -> truthy (Some c) = true.
Proof.
  unfold last_context. destruct (find sets_context (rev l)) as [x|] eqn:E;
    [|discriminate].
  apply find_some in E. destruct E as [_ E]. simpl. intros [= <-].
  unfold sets_context in E. apply andb_true_iff in E. destruct E as [_ E].
  destruct (PyStr.strip x); [discriminate|reflexivity].
Qed.

Lemma last_context_after (pre mid : list string) (u : string) :
  sets_context u = true ->
  (forall l, In l mid -> sets_context l = false) ->
  last_context (pre ++ u :: mid) = Some (PyStr.strip u).
Proof.
  intros Hu Hmid. unfold last_context.
  rewrite rev_app_distr. simpl. rewrite <- app_assoc. rewrite find_append.
  assert (Hnone : find sets_context (rev mid) = None).
  { destruct (find sets_context (rev mid)) as [y|] eqn:E; [|reflexivity].
    apply find_some in E. destruct E as [Hin Hy].
    apply in_rev in Hin. rewrite (Hmid y Hin) in Hy. discriminate. }
  rewrite Hnone. simpl. now rewrite Hu.
Qed.

(** C3, as the code has it. An added line (it starts with "+" but not
    with "+++") whose stripped text is not empty and does not start with
    "!" yields, right after the commands of the lines before it, the pair
    of the current context and "no " followed by that text. The current
    context is the stripped text of the last earlier line that starts
    with none of "+", "-", "@" and is an [interface] or [router] line;
    so after an unchanged "interface Gi0/1" line with no such line in
    between the context is "interface Gi0/1". A removed line never sets
    the context. *)
Theorem C3_added_line_negated_in_context (pre post : list string) (line : string) :
  is_added line = true ->
  PyStr.strip (drop_first line) <> "" ->
  PyStr.startswith (PyStr.strip (drop_first line)) "!" = false ->
  (exists rest,
      parse_contextual_commands (pre ++ line :: post)
      = parse_contextual_commands pre
        ++ (last_context pre, ("no " ++ PyStr.strip (drop_first line))%string)
        :: rest)
  /\ (forall pre0 u mid,
         pre = pre0 ++ u :: mid ->
         is_context_candidate u = true ->
         PyStr.strip u = "interface Gi0/1" ->
         (forall l, In l mid -> sets_context l = false) ->
         last_context pre = Some "interface Gi0/1")
  /\ (forall l, PyStr.startswith l "-" = true -> sets_context l = false).
Proof.
  intros Hadd Hne Hbang. split; [|split].
  - unfold parse_contextual_commands.
    rewrite fold_left_app. cbn [fold_left].
    pose proof (pcc_fold_ctx pre None []) as Hctx.
    destruct (fold_left pcc_step pre (None, [])) as [c a] eqn:Epre.
    cbn [fst snd] in Hctx |- *.
    assert (Hc : c = last_context pre).
    { rewrite Hctx. destruct (last_context pre); reflexivity. }
    assert (Hstep : pcc_step (c, a) line
                    = (c, a ++ [(c, ("no " ++ PyStr.strip (drop_first line))%string)])).
    { unfold pcc_step. rewrite Hadd.
      destruct (PyStr.strip (drop_first line)) as [|ch s] eqn:Es;
        [contradiction|].
      rewrite Hbang. simpl.
      destruct c as [c0|].
      - symmetry in Hc. rewrite (last_context_truthy _ _ Hc). reflexivity.
      - reflexivity. }
    rewrite Hstep, pcc_fold_acc. cbn [fst snd]. rewrite <- Hc.
    exists (snd (fold_left pcc_step post (c, []))).
    now rewrite <- app_assoc.
  - intros pre0 u mid -> Hu Hs Hmid.
    rewrite <- Hs. apply last_context_after; [|assumption].
    unfold sets_context. rewrite Hu, Hs. reflexivity.
  - intros l Hl. unfold sets_context, is_context_candidate. now rewrite Hl.
Qed.

Lemma C3_witness :
  exists rest,
    parse_contextual_commands
      ([" interface Gi0/1"; " description uplink"] ++ "+shutdown" :: ["+!"])
    = parse_contextual_commands [" interface Gi0/1"; " description uplink"]
      ++ (Some "interface Gi0/1", "no shutdown") :: rest.
Proof.
  refine (proj1 (C3_added_line_negated_in_context
                   [" interface Gi0/1"; " description uplink"] ["+!"] "+shutdown"
                   _ _ _)).
  - reflexivity.
  - vm_compute. discriminate.
  - reflexivity.
Defined.

(** C3, counterexample. The live configuration has lost the line
    "interface Gi0/1" and gained "shutdown": in the diff the added line
    comes after the removed "interface Gi0/1" line and no other context
    line, yet its command is derived with no context. *)
Lemma C3_counterexample :
  let diff := Difflib.unified_diff Demo.golden_lost_header Demo.live_lost_header
                                   "Golden Config" "Current Config" in
  diff = ["--- Golden Config"; "+++ Current Config"; "@@ -1,2 +1,2 @@";
          "-interface Gi0/1"; " description uplink"; "+shutdown"]
  /\ parse_contextual_commands diff = [(None, "no shutdown")]
  /\ ~ In (Some "interface Gi0/1", "no shutdown") (parse_contextual_commands diff).
Proof.
  vm_compute. split; [reflexivity|split; [reflexivity|]].
  intros [H|[]]. discriminate H.
Qed.

(** ** OSPF State Parser *)








Example parse_ospf_timers_default :
  parse_ospf_timers (Demo.text [Demo.up_line; Demo.timer_line "10" "40" "5"])
  = Ok [].
Proof. reflexivity. Qed.

Example parse_ospf_timers_one_changed :
  parse_ospf_timers (Demo.text [Demo.up_line; Demo.timer_line "10" "40" "7"])
  = Ok [ {| tf_interface := "Ethernet1"; hello_timer := 10;
            dead_timer := 40; retransmit_timer := 7 |} ].
Proof. reflexivity. Qed.

(** The neighbour parser passes over a row of fewer than eight fields
    and keeps reading. *)
Lemma parse_neighbor_row_short (line : string) :
  length (PyStr.split line) < 8 -> parse_neighbor_row line = [].
Proof.
  intros H. unfold parse_neighbor_row.
  destruct (8 <=? length (PyStr.split line)) eqn:E; [|reflexivity].
  apply Nat.leb_le in E. lia.
Qed.

Lemma parse_ospf_neighbors_rows (header : string) (rows : list string) :
  flat_map parse_neighbor_row (header :: rows) = parse_neighbor_row header
  ++ flat_map parse_neighbor_row rows.
Proof. reflexivity. Qed.

(** C4, the timer parser on malformed output. A timer line with fewer
    than four fields, with a value that is no integer, or met before any
    "is up" line with values other than the defaults does not get
    skipped: [parse_ospf_timers] raises, and the well-formed block that
    follows is never read. *)
Theorem C4_parse_ospf_timers_raises :
  parse_ospf_timers
    (Demo.text ["  Timer intervals configured, Hello 10";
                Demo.up_line; Demo.timer_line "10" "30" "5"])
  = Raise IndexError
  /\ parse_ospf_timers
       (Demo.text [Demo.up_line; Demo.timer_line "ten" "40" "5";
                   Demo.up_line; Demo.timer_line "10" "30" "5"])
     = Raise ValueError
  /\ parse_ospf_timers
       (Demo.text [Demo.timer_line "10" "30" "5";
                   Demo.up_line; Demo.timer_line "10" "30" "5"])
     = Raise UnboundLocalError.
Proof. repeat split. Qed.

(** ** Traces of the engine *)

Section EngineFacts.

Context {session : Type} {net_connect : Session session}.

Lemma run_trace {A : Type} (m : @M session A) (s : session) :
  snd (run m s) = snd (snd (m (s, []))).
Proof.
  unfold run. destruct (m (s, [])) as [r [s' tr]]. reflexivity.
Qed.

Lemma run_result {A : Type} (m : @M session A) (s : session) :
  fst (run m s) = fst (m (s, [])).
Proof.
  unfold run. destruct (m (s, [])) as [r [s' tr]]. reflexivity.
Qed.

Lemma appends_weaken {A : Type} (P Q : event -> Prop) (m : @M session A) :
  (forall e, P e -> Q e) -> appends P m -> appends Q m.
Proof.
  intros HPQ Hm s tr. destruct (Hm s tr) as (evs & E & F).
  exists evs. split; [assumption|]. eapply Forall_impl; eassumption.
Qed.

Lemma appends_ret {A : Type} (P : event -> Prop) (a : A) :
  appends P (@ret session A a).
Proof. intros s tr. exists []. simpl. now rewrite app_nil_r. Qed.

Lemma appends_raise {A : Type} (P : event -> Prop) (e : exn) :
  appends P (@raise session A e).
Proof. intros s tr. exists []. simpl. now rewrite app_nil_r. Qed.

Lemma appends_lift {A : Type} (P : event -> Prop) (r : result A) :
  appends P (@lift session A r).
Proof. intros s tr. exists []. simpl. now rewrite app_nil_r. Qed.

Lemma appends_emit (P : event -> Prop) (e : event) :
  P e -> appends P (@emit session e).
Proof. intros He s tr. exists [e]. simpl. auto. Qed.

Lemma appends_send_command (P : event -> Prop) (command : string) :
  (forall r, P (SendCommand command r)) -> appends P (do_send_command command).
Proof.
  intros He s tr. unfold do_send_command. simpl.
  destruct (send_command command s) as [r s']. exists [SendCommand command r].
  simpl. auto.
Qed.

Lemma appends_send_config_set (P : event -> Prop) (commands : list string) :
  (forall r, P (SendConfigSet commands r)) ->
  appends P (do_send_config_set commands).
Proof.
  intros He s tr. unfold do_send_config_set. simpl.
  destruct (send_config_set commands s) as [r s'].
  exists [SendConfigSet commands r]. simpl. auto.
Qed.

Lemma appends_send_config_from_file (P : event -> Prop) (path : string) :
  (forall r, P (SendConfigFromFile path r)) ->
  appends P (do_send_config_from_file path).
Proof.
  intros He s tr. unfold do_send_config_from_file. simpl.
  destruct (send_config_from_file path s) as [r s'].
  exists [SendConfigFromFile path r]. simpl. auto.
Qed.

Lemma appends_enable (P : event -> Prop) :
  (forall r, P (Enable r)) -> appends P do_enable.
Proof.
  intros He s tr. unfold do_enable. simpl.
  destruct (enable s) as [r s']. exists [Enable r]. simpl. auto.
Qed.

Lemma appends_sleep (P : event -> Prop) (seconds : Z) :
  P (Sleep seconds) -> appends P (@do_sleep session _ seconds).
Proof. intros He s tr. exists [Sleep seconds]. simpl. auto. Qed.

Lemma appends_bind {A B : Type} (P : event -> Prop) (m : @M session A) (k : A -> @M session B) :
  appends P m -> (forall a, appends P (k a)) -> appends P (mbind m k).
Proof.
  intros Hm Hk s tr. unfold mbind.
  destruct (Hm s tr) as (e1 & E1 & F1).
  destruct (m (s, tr)) as [[a|e] [s1 tr1]]; simpl in E1; subst tr1.
  - destruct (Hk a s1 (tr ++ e1)) as (e2 & E2 & F2).
    exists (e1 ++ e2). rewrite E2, app_assoc. split; [reflexivity|].
    apply Forall_app. auto.
  - exists e1. auto.
Qed.

Lemma appends_try {A : Type} (P : event -> Prop) (body : @M session A)
      (handler : exn -> @M session A) :
  appends P body -> (forall e, appends P (handler e)) ->
  appends P (try_except body handler).
Proof.
  intros Hm Hk s tr. unfold try_except.
  destruct (Hm s tr) as (e1 & E1 & F1).
  destruct (body (s, tr)) as [[a|e] [s1 tr1]]; simpl in E1; subst tr1.
  - exists e1. auto.
  - destruct (Hk e s1 (tr ++ e1)) as (e2 & E2 & F2).
    exists (e1 ++ e2). rewrite E2, app_assoc. split; [reflexivity|].
    apply Forall_app. auto.
Qed.

Lemma appends_for_each {A : Type} (P : event -> Prop) (l : list A)
      (body : A -> @M session unit) :
  (forall x, In x l -> appends P (body x)) -> appends P (for_each l body).
Proof.
  induction l as [|x l IH]; intros H; simpl.
  - apply appends_ret.
  - apply appends_bind.
    + apply H. now left.
    + intros _. apply IH. intros y Hy. apply H. now right.
Qed.

Lemma total_ret {A : Type} (a : A) : total (@ret session A a).
Proof. intros w. exists a, w. reflexivity. Qed.

Lemma total_emit (e : event) : total (@emit session e).
Proof. intros w. eexists. eexists. reflexivity. Qed.

Lemma total_bind {A B : Type} (m : @M session A) (k : A -> @M session B) :
  total m -> (forall a, total (k a)) -> total (mbind m k).
Proof.
  intros Hm Hk w. unfold mbind. destruct (Hm w) as (a & w' & E).
  rewrite E. apply Hk.
Qed.

Lemma total_try {A : Type} (body : @M session A) (handler : exn -> @M session A) :
  (forall e, total (handler e)) -> total (try_except body handler).
Proof.
  intros Hk w. unfold try_except.
  destruct (body w) as [[a|e] w']; [now exists a, w'|apply Hk].
Qed.

Lemma total_for_each {A : Type} (l : list A) (body : A -> @M session unit) :
  (forall x, total (body x)) -> total (for_each l body).
Proof.
  intros H. induction l as [|x l IH]; simpl.
  - apply total_ret.
  - apply total_bind; [apply H|intros _; exact IH].
Qed.

Lemma establishes_emit (e : event) : establishes e (@emit session e).
Proof. intros s tr. simpl. apply in_or_app. right. now left. Qed.

Lemma establishes_bind_l {A B : Type} (e : event) (m : @M session A) (k : A -> @M session B) :
  establishes e m -> (forall a, appends (fun _ => True) (k a)) ->
  establishes e (mbind m k).
Proof.
  intros Hm Hk s tr. unfold mbind. specialize (Hm s tr).
  destruct (m (s, tr)) as [[a|x] [s1 tr1]]; simpl in Hm; [|exact Hm].
  destruct (Hk a s1 tr1) as (evs & E & _). rewrite E.
  apply in_or_app. now left.
Qed.

Lemma establishes_bind_r {A B : Type} (e : event) (m : @M session A) (k : A -> @M session B) :
  total m -> (forall a, establishes e (k a)) -> establishes e (mbind m k).
Proof.
  intros Hm Hk s tr. unfold mbind. destruct (Hm (s, tr)) as (a & [s1 tr1] & E).
  rewrite E. apply Hk.
Qed.

Lemma establishes_for_each_log (lvl : level) (f : string -> log_record)
      (l : list string) (x : string) :
  In x l ->
  establishes (Log lvl (f x))
              (@for_each session string l (fun n => log lvl (f n))).
Proof.
  induction l as [|y l IH]; intros Hin; [destruct Hin|]. simpl.
  destruct Hin as [->|Hin].
  - apply establishes_bind_l; [apply establishes_emit|].
    intros _. apply appends_for_each. intros z _. now apply appends_emit.
  - apply establishes_bind_r; [apply total_emit|]. intros _. now apply IH.
Qed.

End EngineFacts.

(** One step of a proof that a computation only adds events of a given
    kind: the rule of the outermost construct. *)
Ltac appends_step :=
  lazymatch goal with
  | |- appends _ (mbind _ _) => apply appends_bind; [|intros ?]
  | |- appends _ (try_except _ _) => apply appends_try; [|intros ?]
  | |- appends _ (for_each _ _) => apply appends_for_each; intros ? ?
  | |- appends _ (ret _) => apply appends_ret
  | |- appends _ (raise _) => apply appends_raise
  | |- appends _ (lift _) => apply appends_lift
  | |- appends _ (log _ _) => apply appends_emit
  | |- appends _ (emit _) => apply appends_emit
  | |- appends _ (do_send_command _) => apply appends_send_command; intros ?
  | |- appends _ (do_send_config_set _) => apply appends_send_config_set; intros ?
  | |- appends _ (do_send_config_from_file _) =>
      apply appends_send_config_from_file; intros ?
  | |- appends _ do_enable => apply appends_enable; intros ?
  | |- appends _ (do_sleep _) => apply appends_sleep
  | |- appends _ (if ?b then _ else _) => destruct b
  | |- appends _ (match ?x with _ => _ end) => destruct x
  | |- appends _ (let '(_, _) := ?x in _) => destruct x
  end.

Ltac appends_auto := repeat appends_step.

Section Reconciliation.

Context {session : Type} {net_connect : Session session} {order : SetOrder}.

Lemma not_about_other (k : string) (e : event) :
  (forall lvl rec, e = Log lvl rec -> remediation_target rec = None) ->
  not_about k e.
Proof. intros H lvl rec E. rewrite (H lvl rec E). discriminate. Qed.

Lemma remediate_not_about (k n : string) :
  n <> k -> appends (not_about k) (remediate n).
Proof.
  intros Hn. unfold remediate, compare_ospf_config, repoll, fix_timers.
  appends_auto;
    try (intros lvl rec' E; inversion E; subst; simpl; congruence).
Qed.

Lemma remediate_appends (n : string) : appends (fun _ => True) (remediate n).
Proof.
  unfold remediate, compare_ospf_config, repoll, fix_timers.
  appends_auto; exact I.
Qed.

(** C9. When "shutdown" occurs in the OSPF configuration text of the
    device, whatever process it stands under, the corrective
    configuration set is ["router ospf 1"; "no shutdown"] and no other
    configuration set is sent. *)
Theorem C9_shutdown_fix_names_process_1 (neighbor : string) (s s1 : session)
        (out : string) :
  send_command show_ospf_config s = (Ok out, s1) ->
  PyStr.contains "shutdown" out = true ->
  exists answer rest,
    snd (run (compare_ospf_config neighbor) s)
    = [Log DEBUG (ComparingOspfConfig neighbor);
       SendCommand show_ospf_config (Ok out);
       Log WARNING ShutdownFound;
       SendConfigSet ["router ospf 1"; "no shutdown"] answer] ++ rest
    /\ (forall commands a, ~ In (SendConfigSet commands a) rest).
Proof.
  intros Hcmd Hshut. rewrite run_trace.
  unfold compare_ospf_config, try_except, mbind, log, emit, do_send_command,
    do_send_config_set, do_sleep. cbn [fst snd app].
  rewrite Hcmd, Hshut. cbn [fst snd app].
  destruct (send_config_set shutdown_fix s1) as [[[]|e] s2]; cbn [fst snd app].
  - exists (Ok tt), [Log DEBUG ShutdownRemoved; Sleep 10]. split; [reflexivity|].
    intros commands a [H|[H|[]]]; discriminate.
  - exists (Raise e), [Log ERROR (CompareOspfConfigError neighbor e)].
    split; [reflexivity|]. intros commands a [H|[]]; discriminate.
Qed.

(** C6. A neighbour of the live map that the golden map lacks is
    reported as unexpected, is not in the problematic list, and no record
    of the remediation loop is about it: the loop runs for the
    problematic neighbours only. *)
Theorem C6_unexpected_reported_not_remediated
        (live_neighbors golden_neighbors : list neighbor) (k : string)
        (s : session) :
  dict_mem (neighbors_map live_neighbors) k = true ->
  dict_mem (neighbors_map golden_neighbors) k = false ->
  let trace := snd (run (compare_ospf_neighbors live_neighbors golden_neighbors) s) in
  In (Log WARNING (UnexpectedNeighbor k)) trace
  /\ ~ In k (problematic_neighbors (neighbors_map live_neighbors)
                                   (neighbors_map golden_neighbors))
  /\ Forall (not_about k) trace.
Proof.
  intros Hlive Hgold trace. subst trace. rewrite run_trace.
  set (lm := neighbors_map live_neighbors) in *.
  set (gm := neighbors_map golden_neighbors) in *.
  assert (Hnot : ~ In k (problematic_neighbors lm gm)).
  { rewrite problematic_In, unhealthy_In. intros [[Hin _]|(st & _ & Hm & _)].
    - apply dict_mem_keys in Hin. congruence.
    - congruence. }
  assert (Hunexp : In k (unexpected_neighbors lm gm)).
  { unfold unexpected_neighbors. apply set_diff_In. split.
    - now apply dict_mem_keys.
    - intros Hin. apply dict_mem_keys in Hin. congruence. }
  split; [|split; [exact Hnot|]].
  - unfold compare_ospf_neighbors. fold lm gm.
    apply establishes_bind_r.
    { destruct (missing_neighbors lm gm); [apply total_ret|].
      apply total_bind; [apply total_emit|]. intros _.
      apply total_for_each. intros x. apply total_emit. }
    intros _. apply establishes_bind_r.
    { unfold log_state_mismatches. apply total_for_each. intros [n st].
      destruct (dict_mem gm n && negb (healthy st));
        [apply total_emit|apply total_ret]. }
    intros _. apply establishes_bind_l.
    + destruct (unexpected_neighbors lm gm) as [|u us] eqn:Eu;
        [destruct Hunexp|].
      apply establishes_bind_r; [apply total_emit|]. intros _.
      apply (establishes_for_each_log WARNING UnexpectedNeighbor).
      eapply Permutation_in; [apply Permutation_sym, set_order_perm|].
      exact Hunexp.
    + intros _. apply appends_bind.
      * apply appends_for_each. intros n _. apply remediate_appends.
      * intros _. destruct (problematic_neighbors lm gm);
          [now apply appends_emit|apply appends_ret].
  - assert (Happ : appends (not_about k)
                           (compare_ospf_neighbors live_neighbors golden_neighbors)).
    { unfold compare_ospf_neighbors, log_state_mismatches. fold lm gm.
      apply appends_bind; [|intros _; apply appends_bind;
                            [|intros _; apply appends_bind;
                              [|intros _; apply appends_bind]]].
      - appends_auto; apply not_about_other; intros lvl rec' E;
          inversion E; reflexivity.
      - appends_auto; apply not_about_other; intros lvl rec' E;
          inversion E; reflexivity.
      - appends_auto; apply not_about_other; intros lvl rec' E;
          inversion E; reflexivity.
      - apply appends_for_each. intros n Hn. apply remediate_not_about.
        intros ->. contradiction.
      - intros _. appends_auto. apply not_about_other. intros lvl rec' E.
        inversion E. reflexivity. }
    destruct (Happ s []) as (evs & E & F). rewrite E. exact F.
Qed.

End Reconciliation.

Lemma C9_witness :
  exists answer rest,
    snd (run (@compare_ospf_config unit Demo.shut_down "10.0.0.2") tt)
    = [Log DEBUG (ComparingOspfConfig "10.0.0.2");
       SendCommand show_ospf_config (Ok (Demo.text ["router ospf 7"; " shutdown"]));
       Log WARNING ShutdownFound;
       SendConfigSet ["router ospf 1"; "no shutdown"] answer] ++ rest
    /\ (forall commands a, ~ In (SendConfigSet commands a) rest).
Proof.
  apply (@C9_shutdown_fix_names_process_1 unit Demo.shut_down "10.0.0.2" tt tt
           (Demo.text ["router ospf 7"; " shutdown"])); reflexivity.
Defined.

Lemma C6_witness :
  let live := [Demo.row "10.0.0.1" "FULL/DR"; Demo.row "10.0.0.9" "2WAY/DROTHER"] in
  let golden := [Demo.row "10.0.0.1" "FULL/DR"] in
  let trace := snd (run (@compare_ospf_neighbors unit Demo.shut_down
                           Demo.insertion_order live golden) tt) in
  In (Log WARNING (UnexpectedNeighbor "10.0.0.9")) trace
  /\ ~ In "10.0.0.9" (@problematic_neighbors Demo.insertion_order
                        (neighbors_map live) (neighbors_map golden))
  /\ Forall (not_about "10.0.0.9") trace.
Proof.
  intros live golden.
  apply (@C6_unexpected_reported_not_remediated unit Demo.shut_down
           Demo.insertion_order live golden "10.0.0.9" tt); reflexivity.
Defined.

(** ** The remediation of one neighbour *)

Lemma polls_app (a b : list event) : polls (a ++ b) = polls a + polls b.
Proof. unfold polls. now rewrite filter_app, length_app. Qed.

Lemma shutdown_fixes_app (a b : list event) :
  shutdown_fixes (a ++ b) = shutdown_fixes a + shutdown_fixes b.
Proof. unfold shutdown_fixes. now rewrite filter_app, length_app. Qed.

Lemma quiet_counts (evs : list event) :
  Forall quiet evs -> polls evs = 0 /\ shutdown_fixes evs = 0.
Proof.
  unfold polls, shutdown_fixes.
  induction 1 as [|e evs [Hp Hs] _ [IH1 IH2]]; simpl.
  - auto.
  - rewrite Hp, Hs. auto.
Qed.

Lemma timer_fix_quiet (f : timer_fault) (r : result unit) :
  quiet (SendConfigSet (timer_fix f) r).
Proof.
  split; [reflexivity|]. unfold is_shutdown_fix.
  destruct (list_eq_dec string_dec (timer_fix f) shutdown_fix) as [E|];
    [discriminate E|reflexivity].
Qed.

Lemma first_phase_counts (k : string) (phase1 : list event) :
  first_phase k phase1 -> polls phase1 = 0 /\ shutdown_fixes phase1 <= 1.
Proof.
  intros [out answer _|evs H].
  - destruct answer; split; vm_compute; lia.
  - apply quiet_counts in H. lia.
Qed.

Lemma second_phase_counts (k : string) (r : result unit) (phase2 : list event) :
  second_phase k r phase2 -> polls phase2 <= 1 /\ shutdown_fixes phase2 = 0.
Proof.
  intros H; destruct H as [e|out e _|out _|out fixes e F|out fixes e F
                           |out fixes out2 F _|out fixes out2 F _];
    try (split; vm_compute; lia);
    apply quiet_counts in F; destruct F as [Fp Fs];
    change (?a :: ?b :: ?c) with ([a; b] ++ c);
    rewrite ?polls_app, ?shutdown_fixes_app, Fp, Fs;
    split; vm_compute; lia.
Qed.

Section Remediation.

Context {session : Type} {net_connect : Session session}.

Lemma appends_world {A : Type} (P : event -> Prop) (m : @M session A)
      (s : session) (tr : list event) :
  appends P m ->
  exists r s' evs, m (s, tr) = (r, (s', tr ++ evs)) /\ Forall P evs.
Proof.
  intros H. destruct (H s tr) as (evs & E & F).
  destruct (m (s, tr)) as [r [s' tr']]. simpl in E. subst tr'.
  now exists r, s', evs.
Qed.

Lemma fix_timers_quiet (l : list timer_fault) :
  appends quiet (@fix_timers session _ l).
Proof.
  unfold fix_timers. appends_auto; [apply timer_fix_quiet|split; reflexivity].
Qed.

Lemma timer_step_quiet :
  appends quiet
    (mbind (@do_send_command session _ show_ospf_timers)
       (fun o => mbind (lift (parse_ospf_timers o))
          (fun l => match l with
                    | [] => log DEBUG TimersCorrect
                    | _ :: _ =>
                        mbind (log WARNING TimerMismatches)
                          (fun _ => mbind (fix_timers l) (fun _ => do_sleep 10))
                    end))).
Proof.
  unfold fix_timers.
  appends_auto; try (split; reflexivity); apply timer_fix_quiet.
Qed.

(** [compare_ospf_config] never raises, and its events are those of a
    first phase. *)
Lemma compare_ospf_config_phase (k : string) (s : session) (tr : list event) :
  exists s1 phase1,
    compare_ospf_config k (s, tr) = (Ok tt, (s1, tr ++ phase1))
    /\ first_phase k phase1.
Proof.
  unfold compare_ospf_config, try_except.
  unfold mbind at 1. unfold log at 1, emit at 1. cbn [fst snd].
  unfold mbind at 1. unfold do_send_command at 1. cbn [fst snd].
  destruct (send_command show_ospf_config s) as [[out|e] s1].
  - destruct (PyStr.contains "shutdown" out) eqn:Eshut.
    + unfold mbind, log, emit, do_send_config_set, do_sleep. cbn [fst snd].
      destruct (send_config_set shutdown_fix s1) as [[[]|e] s2] eqn:Eset;
        cbn [fst snd]; repeat rewrite <- app_assoc; cbn [app];
        eexists; eexists; (split; [reflexivity|]).
      * exact (FirstShutdown k out (Ok tt) Eshut).
      * exact (FirstShutdown k out (Raise e) Eshut).
    + destruct (appends_world quiet _ s1
                  ((tr ++ [Log DEBUG (ComparingOspfConfig k)])
                     ++ [SendCommand show_ospf_config (Ok out)])
                  timer_step_quiet)
        as (r & s2 & evs & E & F).
      rewrite E.
      destruct r as [[]|e]; unfold log, emit; cbn [fst snd];
        repeat rewrite <- app_assoc; cbn [app];
        eexists; eexists; (split; [reflexivity|]); apply FirstQuiet;
        repeat (constructor; [split; reflexivity|]);
        try assumption.
      apply Forall_app. split; [assumption|].
      constructor; [split; reflexivity|constructor].
  - unfold log, emit. cbn [fst snd]. repeat rewrite <- app_assoc. cbn [app].
    eexists; eexists; (split; [reflexivity|]). apply FirstQuiet.
    repeat (constructor; [split; reflexivity|]). constructor.
Qed.

(** Every run of the loop body against any device is a run of the
    two-phase protocol. *)
Lemma remediate_world (k : string) (s : session) :
  exists r s' evs,
    remediate k (s, []) = (r, (s', evs)) /\ remediation k r evs.
Proof.
  unfold remediate.
  unfold mbind at 1.
  destruct (compare_ospf_config_phase k s []) as (s1 & phase1 & E1 & H1).
  rewrite E1. cbn [app].
  unfold mbind at 1. unfold log at 1, emit at 1. cbn [fst snd].
  unfold mbind at 1. unfold do_sleep at 1. cbn [fst snd].
  unfold mbind at 1. unfold repoll at 1, mbind at 1, do_send_command at 1.
  cbn [fst snd].
  destruct (send_command show_ospf_neighbor (sleep 10 s1)) as [[out|e] s2].
  2:{ cbn [fst snd]. repeat rewrite <- app_assoc. cbn [app].
      eexists; eexists; eexists. split; [reflexivity|].
      exact (PollRaises k phase1 e H1). }
  unfold ret at 1. cbn [fst snd].
  change (healthy_in (neighbors_map (parse_ospf_neighbors out)) k)
    with (shows_healthy out k).
  destruct (shows_healthy out k) eqn:Eh.
  { unfold log, emit. cbn [fst snd]. repeat rewrite <- app_assoc. cbn [app].
    eexists; eexists; eexists. split; [reflexivity|].
    exact (FixedAtFirstPoll k phase1 out H1 Eh). }
  repeat rewrite <- app_assoc. cbn [app].
  change (phase1 ++ Log DEBUG (RecheckAfterShutdown k) :: Sleep 10
                 :: [SendCommand show_ospf_neighbor (Ok out)])
    with (phase1 ++ first_repoll k (Ok out)).
  set (tr2 := phase1 ++ first_repoll k (Ok out)).
  assert (Hgoal : forall (r : result unit) (s' : session) phase2 w,
             w = (r, (s', tr2 ++ phase2)) ->
             second_phase k r phase2 ->
             exists r0 s0 evs, w = (r0, (s0, evs)) /\ remediation k r0 evs).
  { intros r s' phase2 w -> H2. exists r, s', (tr2 ++ phase2).
    split; [reflexivity|]. unfold tr2. rewrite <- app_assoc.
    exact (SecondPhase k phase1 out r phase2 H1 Eh H2). }
  unfold mbind at 1. unfold do_send_command at 1. cbn [fst snd].
  destruct (send_command show_ospf_timers s2) as [[timers|e] s3].
  2:{ eapply Hgoal; [reflexivity|]. constructor. }
  unfold mbind at 1. unfold lift at 1.
  destruct (parse_ospf_timers timers) as [[|f faults]|e] eqn:Eparse.
  3:{ eapply Hgoal; [reflexivity|]. now constructor. }
  { unfold log, emit. cbn [fst snd]. rewrite <- app_assoc. cbn [app].
    eapply Hgoal; [reflexivity|]. now constructor. }
  unfold mbind at 1. unfold log at 1, emit at 1. cbn [fst snd].
  unfold mbind at 1.
  destruct (appends_world quiet _ s3
              ((tr2 ++ [SendCommand show_ospf_timers (Ok timers)])
                 ++ [Log WARNING TimerMismatches])
              (fix_timers_quiet (f :: faults)))
    as (r & s4 & fixes & E & F).
  rewrite E.
  destruct r as [[]|e].
  2:{ repeat rewrite <- app_assoc. cbn [app].
      eapply Hgoal; [reflexivity|]. now constructor. }
  unfold mbind at 1. unfold log at 1, emit at 1. cbn [fst snd].
  unfold mbind at 1. unfold do_sleep at 1. cbn [fst snd].
  unfold mbind at 1. unfold repoll at 1, mbind at 1, do_send_command at 1.
  cbn [fst snd].
  destruct (send_command show_ospf_neighbor (sleep 10 s4)) as [[out2|e] s5].
  2:{ cbn [fst snd]. repeat rewrite <- app_assoc. cbn [app].
      apply (Hgoal (Raise e) s5
               (SendCommand show_ospf_timers (Ok timers)
                  :: Log WARNING TimerMismatches
                  :: fixes ++ second_repoll (Raise e))); [reflexivity|].
      now constructor. }
  unfold ret at 1. cbn [fst snd].
  change (healthy_in (neighbors_map (parse_ospf_neighbors out2)) k)
    with (shows_healthy out2 k).
  destruct (shows_healthy out2 k) eqn:Eh2;
    unfold log, emit; cbn [fst snd]; repeat rewrite <- app_assoc; cbn [app].
  - apply (Hgoal (Ok tt) s5
             (SendCommand show_ospf_timers (Ok timers)
                :: Log WARNING TimerMismatches
                :: fixes ++ second_repoll (Ok out2)
                ++ [Log SUCCESS (FixedByTimers k)])); [reflexivity|].
    now constructor.
  - apply (Hgoal (Ok tt) s5
             (SendCommand show_ospf_timers (Ok timers)
                :: Log WARNING TimerMismatches
                :: fixes ++ second_repoll (Ok out2)
                ++ [Log ERROR (Unresolved k)])); [reflexivity|].
    now constructor.
Qed.

Lemma remediate_protocol (k : string) (s : session) :
  remediation k (fst (run (remediate k) s)) (snd (run (remediate k) s)).
Proof.
  rewrite run_trace, run_result.
  destruct (remediate_world k s) as (r & s' & evs & E & H).
  rewrite E. exact H.
Qed.

End Remediation.

Lemma second_phase_outcome (k : string) (phase2 : list event) :
  second_phase k (Ok tt) phase2 ->
  exists pre outcome,
    phase2 = pre ++ [outcome]
    /\ (outcome = Log SUCCESS (FixedByTimers k) \/ outcome = Log ERROR (Unresolved k))
    /\ (outcome = Log SUCCESS (FixedByTimers k) ->
        exists out2, In (SendCommand show_ospf_neighbor (Ok out2)) phase2
                     /\ shows_healthy out2 k = true).
Proof.
  intros H. inversion H as [| |out Ep|?|?|out fixes out2 F Eh|out fixes out2 F Eh];
    subst.
  - exists [SendCommand show_ospf_timers (Ok out)], (Log ERROR (Unresolved k)).
    split; [reflexivity|]. split; [now right|discriminate].
  - exists (SendCommand show_ospf_timers (Ok out) :: Log WARNING TimerMismatches
            :: fixes ++ second_repoll (Ok out2)),
      (Log SUCCESS (FixedByTimers k)).
    split; [cbn [app]; now rewrite <- app_assoc|]. split; [now left|].
    intros _. exists out2. split; [|assumption].
    right. right. apply in_or_app. right. simpl. auto.
  - exists (SendCommand show_ospf_timers (Ok out) :: Log WARNING TimerMismatches
            :: fixes ++ second_repoll (Ok out2)),
      (Log ERROR (Unresolved k)).
    split; [cbn [app]; now rewrite <- app_assoc|]. split; [now right|discriminate].
Qed.

(** What the two-phase protocol implies for any of its runs. *)
Lemma remediation_bounds (k : string) (r : result unit) (evs : list event) :
  remediation k r evs ->
  polls evs <= 2
  /\ shutdown_fixes evs <= 1
  /\ (exists phase1 answer phase2,
         evs = phase1 ++ first_repoll k answer ++ phase2
         /\ first_phase k phase1
         /\ polls phase1 = 0
         /\ polls phase2 <= 1
         /\ shutdown_fixes phase2 = 0
         /\ (forall out, answer = Ok out -> shows_healthy out k = true ->
                         phase2 = [Log SUCCESS (FixedByShutdown k)])
         /\ (phase2 <> [] -> phase2 <> [Log SUCCESS (FixedByShutdown k)] ->
             exists out, answer = Ok out /\ shows_healthy out k = false))
  /\ (r = Ok tt ->
      exists pre outcome, evs = pre ++ [outcome] /\ is_outcome k outcome)
  /\ (r = Ok tt ->
      (forall out, In (SendCommand show_ospf_neighbor (Ok out)) evs ->
                   shows_healthy out k = false) ->
      exists pre, evs = pre ++ [Log ERROR (Unresolved k)]).
Proof.
  intros H.
  destruct H as [phase1 e H1|phase1 out H1 Eh|phase1 out r phase2 H1 Eh H2].
  - destruct (first_phase_counts k phase1 H1) as [Hp Hs].
    repeat split.
    + rewrite polls_app, Hp. vm_compute. lia.
    + rewrite shutdown_fixes_app. change (shutdown_fixes (first_repoll k (Raise e))) with 0. lia.
    + exists phase1, (Raise e), []. rewrite app_nil_r.
      repeat split; auto; try discriminate. intros Hne. now destruct Hne.
    + discriminate.
    + discriminate.
  - destruct (first_phase_counts k phase1 H1) as [Hp Hs].
    repeat split.
    + rewrite polls_app, Hp. vm_compute. lia.
    + rewrite shutdown_fixes_app.
      change (shutdown_fixes (first_repoll k (Ok out)
                                ++ [Log SUCCESS (FixedByShutdown k)])) with 0.
      lia.
    + exists phase1, (Ok out), [Log SUCCESS (FixedByShutdown k)].
      repeat split; auto. intros _ Hne. now destruct Hne.
    + intros _. exists (phase1 ++ first_repoll k (Ok out)),
        (Log SUCCESS (FixedByShutdown k)).
      split; [now rewrite <- app_assoc|]. now left.
    + intros _ Hall. exfalso.
      assert (Hf : shows_healthy out k = false).
      { apply Hall. apply in_or_app. right. simpl. auto. }
      congruence.
  - destruct (first_phase_counts k phase1 H1) as [Hp Hs].
    destruct (second_phase_counts k r phase2 H2) as [Hp2 Hs2].
    repeat split.
    + rewrite !polls_app, Hp. change (polls (first_repoll k (Ok out))) with 1. lia.
    + rewrite !shutdown_fixes_app, Hs2.
      change (shutdown_fixes (first_repoll k (Ok out))) with 0. lia.
    + exists phase1, (Ok out), phase2. repeat split; auto.
      * intros out' [= <-] Hh. congruence.
      * intros _ _. now exists out.
    + intros ->. destruct (second_phase_outcome k phase2 H2)
        as (pre & outcome & -> & Ho & _).
      exists (phase1 ++ first_repoll k (Ok out) ++ pre), outcome.
      split; [now rewrite <- !app_assoc|].
      destruct Ho as [->| ->]; [right; now left|right; now right].
    + intros -> Hall. destruct (second_phase_outcome k phase2 H2)
        as (pre & outcome & -> & Ho & Hfixed).
      destruct Ho as [->| ->].
      * exfalso. destruct (Hfixed eq_refl) as (out2 & Hin & Hh).
        assert (Hf : shows_healthy out2 k = false).
        { apply Hall. apply in_or_app. right. apply in_or_app. now right. }
        congruence.
      * exists (phase1 ++ first_repoll k (Ok out) ++ pre).
        now rewrite <- !app_assoc.
Qed.

(** The loop body for a problematic neighbour follows the two-phase
    protocol [remediation]: it polls the neighbour table at most twice
    and sends the shutdown fix at most once, before the first re-poll;
    what follows the first re-poll has at most one more re-poll, and has
    events other than the record of success only if the first re-poll
    answered and did not show the neighbour healthy; a run that
    completes ends with an outcome record, which is "unresolved" when
    no re-poll showed the neighbour healthy. *)
Lemma remediate_in_two_bounded_phases
        {session : Type} {net_connect : Session session}
        (k : string) (s : session) :
  let r := fst (run (remediate k) s) in
  let evs := snd (run (remediate k) s) in
  remediation k r evs
  /\ polls evs <= 2
  /\ shutdown_fixes evs <= 1
  /\ (exists phase1 answer phase2,
         evs = phase1 ++ first_repoll k answer ++ phase2
         /\ first_phase k phase1
         /\ polls phase1 = 0
         /\ polls phase2 <= 1
         /\ shutdown_fixes phase2 = 0
         /\ (forall out, answer = Ok out -> shows_healthy out k = true ->
                         phase2 = [Log SUCCESS (FixedByShutdown k)])
         /\ (phase2 <> [] -> phase2 <> [Log SUCCESS (FixedByShutdown k)] ->
             exists out, answer = Ok out /\ shows_healthy out k = false))
  /\ (r = Ok tt ->
      exists pre outcome, evs = pre ++ [outcome] /\ is_outcome k outcome)
  /\ (r = Ok tt ->
      (forall out, In (SendCommand show_ospf_neighbor (Ok out)) evs ->
                   shows_healthy out k = false) ->
      exists pre, evs = pre ++ [Log ERROR (Unresolved k)]).
Proof.
  intros r evs. split; [apply remediate_protocol|].
  apply remediation_bounds with (r := r). apply remediate_protocol.
Qed.

(** C2 (code bug). The golden table lists 10.0.0.2, the live table does
    not. The device has no "shutdown" in its OSPF configuration and a
    dead interval of 30 on Ethernet1. The first step of the loop body,
    commented as the shutdown step, is [compare_ospf_config], which has
    a timer step of its own: it sends the timer fix, and no shutdown
    fix, before the neighbour table has been polled again. The one
    re-poll that follows shows the neighbour healthy, the step commented
    as the timer step is not reached, and the run is logged as fixed by
    the shutdown step. So the timer remediation is performed although no
    shutdown attempt has failed at a re-poll. *)
Theorem C2_timer_fix_precedes_first_repoll :
  let live := [Demo.row "10.0.0.1" "FULL/DR"] in
  let golden := [Demo.row "10.0.0.1" "FULL/DR"; Demo.row "10.0.0.2" "FULL/DR"] in
  let fault := {| tf_interface := "Ethernet1"; hello_timer := 10;
                  dead_timer := 30; retransmit_timer := 5 |} in
  let answer := Demo.text [Demo.neighbor_header;
                           Demo.neighbor_line "10.0.0.2" "FULL/DR"] in
  let evs := snd (run (@compare_ospf_neighbors unit Demo.wrong_timers
                         Demo.insertion_order live golden) tt) in
  evs
  = [Log ERROR MissingHeader; Log ERROR (MissingNeighbor "10.0.0.2");
     Log DEBUG (ComparingOspfConfig "10.0.0.2");
     SendCommand show_ospf_config
       (Ok (Demo.text ["router ospf 1"; " network 10.0.0.0/8 area 0"]));
     SendCommand show_ospf_timers
       (Ok (Demo.text [Demo.up_line; Demo.timer_line "10" "30" "5"]));
     Log WARNING TimerMismatches;
     SendConfigSet (timer_fix fault) (Ok tt);
     Log DEBUG (TimersFixed "Ethernet1"); Sleep 10;
     Log DEBUG (RecheckAfterShutdown "10.0.0.2"); Sleep 10;
     SendCommand show_ospf_neighbor (Ok answer);
     Log SUCCESS (FixedByShutdown "10.0.0.2")]
  /\ shows_healthy answer "10.0.0.2" = true
  /\ shutdown_fixes evs = 0
  /\ (exists pre post,
         evs = pre ++ SendConfigSet (timer_fix fault) (Ok tt) :: post
         /\ polls pre = 0 /\ polls post = 1).
Proof.
  cbv zeta. split; [vm_compute; reflexivity|].
  split; [vm_compute; reflexivity|]. split; [vm_compute; reflexivity|].
  exists [Log ERROR MissingHeader; Log ERROR (MissingNeighbor "10.0.0.2");
          Log DEBUG (ComparingOspfConfig "10.0.0.2");
          SendCommand show_ospf_config
            (Ok (Demo.text ["router ospf 1"; " network 10.0.0.0/8 area 0"]));
          SendCommand show_ospf_timers
            (Ok (Demo.text [Demo.up_line; Demo.timer_line "10" "30" "5"]));
          Log WARNING TimerMismatches],
    [Log DEBUG (TimersFixed "Ethernet1"); Sleep 10;
     Log DEBUG (RecheckAfterShutdown "10.0.0.2"); Sleep 10;
     SendCommand show_ospf_neighbor
       (Ok (Demo.text [Demo.neighbor_header;
                       Demo.neighbor_line "10.0.0.2" "FULL/DR"]));
     Log SUCCESS (FixedByShutdown "10.0.0.2")].
  split; [vm_compute; reflexivity|]. split; vm_compute; reflexivity.
Qed.

(** ** The diff: the index of the second sequence *)

Import Difflib.

Lemma b2j_get_append (b2j : b2j_t) (elt e : string) (i : nat) :
  b2j_get (b2j_append b2j elt i) e
  = if String.eqb elt e then b2j_get b2j e ++ [i] else b2j_get b2j e.
Proof.
  induction b2j as [|[e0 idxs] rest IH]; cbn [b2j_append b2j_get].
  - destruct (String.eqb elt e); reflexivity.
  - destruct (String.eqb e0 elt) eqn:E0; cbn [b2j_get].
    + apply String.eqb_eq in E0. subst e0.
      destruct (String.eqb elt e); reflexivity.
    + destruct (String.eqb e0 e) eqn:E1; [|exact IH].
      apply String.eqb_eq in E1. subst e0. rewrite String.eqb_sym, E0.
      reflexivity.
Qed.

Lemma b2j_keys_append (b2j : b2j_t) (elt x : string) (i : nat) :
  In x (map fst (b2j_append b2j elt i)) <-> x = elt \/ In x (map fst b2j).
Proof.
  induction b2j as [|[e0 idxs] rest IH]; cbn [b2j_append map fst In].
  - intuition.
  - destruct (String.eqb e0 elt) eqn:E0; cbn [map fst In].
    + apply String.eqb_eq in E0. subst e0. intuition.
    + rewrite IH. intuition.
Qed.

Lemma b2j_append_NoDup (b2j : b2j_t) (elt : string) (i : nat) :
  NoDup (map fst b2j) -> NoDup (map fst (b2j_append b2j elt i)).
Proof.
  induction b2j as [|[e0 idxs] rest IH]; cbn [b2j_append map fst]; intros H.
  - constructor; [intros []|constructor].
  - inversion H as [|? ? Hnin Hrest]; subst.
    destruct (String.eqb e0 elt) eqn:E0; cbn [map fst].
    + now constructor.
    + constructor; [|auto]. intros Hin. apply b2j_keys_append in Hin.
      destruct Hin as [->|Hin]; [|contradiction].
      rewrite String.eqb_refl in E0. discriminate.
Qed.

Lemma chain_fill_get (b : list string) (i : nat) (b2j : b2j_t) (e : string) :
  b2j_get (chain_fill b i b2j) e = b2j_get b2j e ++ positions b i e.
Proof.
  revert i b2j. induction b as [|x rest IH]; intros i b2j;
    cbn [chain_fill positions].
  - now rewrite app_nil_r.
  - rewrite IH, b2j_get_append.
    destruct (String.eqb x e); [now rewrite <- app_assoc|reflexivity].
Qed.

Lemma chain_fill_NoDup (b : list string) (i : nat) (b2j : b2j_t) :
  NoDup (map fst b2j) -> NoDup (map fst (chain_fill b i b2j)).
Proof.
  revert i b2j. induction b as [|x rest IH]; intros i b2j H;
    cbn [chain_fill]; [assumption|].
  apply IH, b2j_append_NoDup, H.
Qed.

Lemma b2j_get_absent (b2j : b2j_t) (e : string) :
  ~ In e (map fst b2j) -> b2j_get b2j e = [].
Proof.
  induction b2j as [|[e0 idxs] rest IH]; cbn [b2j_get map fst In]; intros H.
  - reflexivity.
  - destruct (String.eqb e0 e) eqn:E.
    + apply String.eqb_eq in E. intuition.
    + apply IH. intuition.
Qed.

Lemma b2j_get_filter (p : list nat -> bool) (b2j : b2j_t) (e : string) :
  NoDup (map fst b2j) ->
  b2j_get (filter (fun '(_, idxs) => p idxs) b2j) e
  = if p (b2j_get b2j e) then b2j_get b2j e else [].
Proof.
  induction b2j as [|[e0 idxs] rest IH]; cbn [b2j_get filter map fst]; intros H.
  - now destruct (p []).
  - inversion H as [|? ? Hnin Hrest]; subst.
    destruct (String.eqb e0 e) eqn:E.
    + apply String.eqb_eq in E. subst e0.
      destruct (p idxs) eqn:Ep; cbn [b2j_get].
      * now rewrite String.eqb_refl.
      * apply b2j_get_absent. intros Hin. apply Hnin.
        apply in_map_iff in Hin. destruct Hin as ([e1 l1] & <- & Hin).
        apply filter_In in Hin. destruct Hin as [Hin _].
        change (fst (e1, l1)) with (fst (e1, l1)). now apply in_map.
    + destruct (p idxs); cbn [b2j_get]; [rewrite E|]; now apply IH.
Qed.

(** The lookup in the index built by [__chain_b]: all the positions of
    the element, or nothing when the element is popular. *)
Lemma chain_b_get (b : list string) (e : string) :
  b2j_get (chain_b b) e = positions b 0 e \/ b2j_get (chain_b b) e = [].
Proof.
  unfold chain_b. destruct (200 <=? length b).
  - rewrite (b2j_get_filter
               (fun idxs => negb (length b / 100 + 1 <? length idxs)))
      by (apply chain_fill_NoDup; constructor).
    rewrite chain_fill_get. cbn [b2j_get app].
    destruct (negb _); auto.
  - left. now rewrite chain_fill_get.
Qed.

Lemma positions_spec (b : list string) (i j : nat) (e : string) :
  In j (positions b i e)
  <-> i <= j /\ j - i < length b /\ nth (j - i) b "" = e.
Proof.
  revert i. induction b as [|x rest IH]; intros i; cbn [positions length].
  - split; [intros []|]. intros (_ & H & _). lia.
  - assert (Hrest : In j (positions rest (S i) e)
                    <-> i < j /\ j - i < S (length rest)
                        /\ nth (j - i) (x :: rest) "" = e).
    { rewrite IH. split.
      - intros (H1 & H2 & H3). replace (j - i) with (S (j - S i)) by lia.
        cbn [nth]. repeat split; try lia. assumption.
      - intros (H1 & H2 & H3). replace (j - i) with (S (j - S i)) in H3 by lia.
        cbn [nth] in H3. repeat split; try lia. assumption. }
    destruct (String.eqb x e) eqn:E; cbn [In].
    + apply String.eqb_eq in E. subst x. rewrite Hrest. split.
      * intros [<-|(H1 & H2 & H3)].
        -- rewrite Nat.sub_diag. cbn [nth]. repeat split; lia.
        -- repeat split; try lia. assumption.
      * intros (H1 & H2 & H3).
        destruct (Nat.eq_dec i j) as [->|Hne]; [now left|right].
        repeat split; try lia. assumption.
    + rewrite Hrest. apply String.eqb_neq in E. split.
      * intros (H1 & H2 & H3). repeat split; try lia. assumption.
      * intros (H1 & H2 & H3). repeat split; try lia; try assumption.
        destruct (Nat.eq_dec i j) as [->|Hne]; [|lia].
        rewrite Nat.sub_diag in H3. cbn [nth] in H3. contradiction.
Qed.

Lemma positions_sorted (b : list string) (i : nat) (e : string) :
  pairwise lt (positions b i e).
Proof.
  revert i. induction b as [|x rest IH]; intros i; cbn [positions].
  - exact I.
  - destruct (String.eqb x e); [|apply IH].
    split; [|apply IH]. apply Forall_forall. intros j Hj.
    apply positions_spec in Hj. lia.
Qed.

(** Every index that the lookup returns is a position of the element in
    the second sequence. *)
Lemma chain_b_get_valid (b : list string) (e : string) (j : nat) :
  In j (b2j_get (chain_b b) e) -> j < length b /\ nth j b "" = e.
Proof.
  destruct (chain_b_get b e) as [-> | ->]; [|intros []].
  intros H. apply positions_spec in H. rewrite Nat.sub_0_r in H.
  destruct H as (_ & H1 & H2). auto.
Qed.

(** ** The diff of a sequence with itself *)

Section Diagonal.

Variable x : list string.

Local Abbreviation b2j := (chain_b x).
Local Abbreviation D := (diag_run (chain_b x) x).
Local Abbreviation Dprev := (diag_run_before (chain_b x) x).

Lemma diag_run_present (j : nat) :
  b2j_get b2j (nth j x "") <> [] -> D j = Dprev j + 1.
Proof.
  intros H. destruct j as [|j]; cbn [diag_run diag_run_before];
    destruct (b2j_get b2j _); try contradiction; lia.
Qed.

Lemma diag_run_absent (j : nat) :
  b2j_get b2j (nth j x "") = [] -> D j = 0.
Proof.
  intros H. destruct j as [|j]; cbn [diag_run]; now rewrite H.
Qed.

Lemma diag_run_bound (j : nat) : D j <= j + 1.
Proof.
  induction j as [|j IH]; cbn [diag_run];
    destruct (b2j_get b2j _); lia.
Qed.

Lemma flm_inner_diag (j2len : j2len_t) (i bhi : nat) (js : list nat)
      (newj2len : j2len_t) (best : block) :
  (forall j, In j js -> j < bhi) ->
  (forall j, In j js -> b2j_get b2j (nth j x "") <> []) ->
  b2j_get b2j (nth i x "") <> [] ->
  pairwise lt js ->
  (forall j, j2len_prev j2len j <= Nat.min (Dprev j) (Dprev i)) ->
  j2len_prev j2len i = Dprev i ->
  row_inv b2j x i js newj2len best ->
  row_inv b2j x i [] (fst (flm_inner j2len i 0 bhi js newj2len best))
          (snd (flm_inner j2len i 0 bhi js newj2len best)).
Proof.
  intros Hhi Hpres Hi Hsorted Hprev Hprevi.
  revert newj2len best Hhi Hpres Hsorted.
  induction js as [|j js IH]; intros newj2len best Hhi Hpres Hsorted Hinv;
    cbn [flm_inner].
  - exact Hinv.
  - change (j <? 0) with false. cbv iota.
    assert (Hj : j < bhi) by (apply Hhi; now left).
    apply Nat.leb_gt in Hj. rewrite Hj.
    destruct Hsorted as [Hlt Hsorted].
    assert (HDj : D j = Dprev j + 1) by (apply diag_run_present, Hpres; now left).
    assert (HDi : D i = Dprev i + 1) by (apply diag_run_present, Hi).
    pose proof (Hprev j) as Hk.
    destruct Hinv as ((bi & bs & -> & Hb1 & Hb2 & Hb3) & Hn1 & Hn2).
    apply IH; try (intros; (apply Hhi || apply Hpres); now right);
      try assumption.
    assert (Hcases : j < i \/ j = i \/ i < j) by lia.
    destruct Hcases as [Hlti|[->|Hgt]].
    + (* an index below the diagonal *)
      assert (Hle : j2len_prev j2len j + 1 <= bs).
      { specialize (Hb2 j Hlti). lia. }
      apply Nat.ltb_ge in Hle. rewrite Hle.
      split; [|split].
      * exists bi, bs. repeat split; try assumption.
        destruct Hb3 as [[E|Hin]|Hd]; [lia|now left|now right].
      * intros j0. cbn [j2len_get]. destruct (j =? j0) eqn:E; [|apply Hn1].
        apply Nat.eqb_eq in E. subst j0. lia.
      * destruct Hn2 as [[E|Hin]|Hd]; [lia|now left|right].
        cbn [j2len_get]. destruct (j =? i) eqn:E; [|assumption].
        apply Nat.eqb_eq in E. lia.
    + (* the diagonal *)
      rewrite Hprevi. rewrite <- HDi.
      assert (Hbound := diag_run_bound i).
      split; [|split].
      * destruct (bs <? D i) eqn:E.
        -- apply Nat.ltb_lt in E. exists (i + 1 - D i), (D i).
           repeat split; try lia. intros j0 Hj0. specialize (Hb2 j0 Hj0). lia.
        -- apply Nat.ltb_ge in E. exists bi, bs. repeat split; auto.
      * intros j0. cbn [j2len_get]. destruct (i =? j0) eqn:E; [|apply Hn1].
        apply Nat.eqb_eq in E. subst j0. lia.
      * right. cbn [j2len_get]. now rewrite Nat.eqb_refl.
    + (* an index above the diagonal *)
      assert (Hnotin : ~ In i (j :: js)).
      { intros [E|Hin]; [lia|].
        rewrite Forall_forall in Hlt. specialize (Hlt i Hin). lia. }
      assert (Hdi : D i <= bs) by (destruct Hb3 as [H|H]; [contradiction|exact H]).
      assert (Hle : j2len_prev j2len j + 1 <= bs) by lia.
      apply Nat.ltb_ge in Hle. rewrite Hle.
      split; [|split].
      * exists bi, bs. repeat split; auto.
      * intros j0. cbn [j2len_get]. destruct (j =? j0) eqn:E; [|apply Hn1].
        apply Nat.eqb_eq in E. subst j0. lia.
      * right. destruct Hn2 as [H|H]; [contradiction|].
        cbn [j2len_get]. destruct (j =? i) eqn:E; [|assumption].
        apply Nat.eqb_eq in E. lia.
Qed.

Lemma flm_outer_diag (len i : nat) (j2len : j2len_t) (best : block) :
  i + len = length x ->
  (forall j, j2len_prev j2len j <= Nat.min (Dprev j) (Dprev i)) ->
  j2len_prev j2len i = Dprev i ->
  (exists bi bs, best = (bi, bi, bs) /\ bi + bs <= i
                 /\ (forall j, j < i -> D j <= bs)) ->
  exists bi bs,
    flm_outer x b2j 0 (length x) (seq i len) j2len best = (bi, bi, bs)
    /\ bi + bs <= length x.
Proof.
  revert i j2len best. induction len as [|len IH];
    intros i j2len best Hlen Hprev Hprevi (bi & bs & -> & Hb1 & Hb2);
    cbn [seq flm_outer].
  - exists bi, bs. split; [reflexivity|lia].
  - destruct (flm_inner j2len i 0 (length x) (b2j_get b2j (nth i x "")) []
                        (bi, bi, bs)) as [newj2len best'] eqn:Einner.
    assert (Hrow : row_inv b2j x i [] newj2len best').
    { destruct (b2j_get b2j (nth i x "")) as [|j0 js0] eqn:Ejs.
      - cbn [flm_inner] in Einner. injection Einner as <- <-.
        assert (HD : D i = 0) by (apply diag_run_absent, Ejs).
        split; [|split].
        + exists bi, bs. repeat split; try assumption; lia.
        + intros j. cbn [j2len_get]. lia.
        + right. cbn [j2len_get]. lia.
      - assert (Hpos : j0 :: js0 = positions x 0 (nth i x "")).
        { destruct (chain_b_get x (nth i x "")) as [E|E];
            rewrite Ejs in E; [exact E|discriminate E]. }
        assert (Hin : In i (j0 :: js0)).
        { rewrite Hpos. apply positions_spec. rewrite Nat.sub_0_r.
          repeat split; lia. }
        assert (Hvalid : forall j, In j (j0 :: js0) ->
                                   j < length x /\ nth j x "" = nth i x "").
        { intros j Hj. rewrite <- Ejs in Hj. now apply chain_b_get_valid. }
        pose proof (flm_inner_diag j2len i (length x) (j0 :: js0) []
                                   (bi, bi, bs)) as H.
        rewrite Einner in H. cbn [fst snd] in H. apply H.
        + intros j Hj. now apply Hvalid.
        + intros j Hj. destruct (Hvalid j Hj) as [_ ->]. rewrite Ejs.
          discriminate.
        + rewrite Ejs. discriminate.
        + rewrite Hpos. apply positions_sorted.
        + exact Hprev.
        + exact Hprevi.
        + split; [|split].
          * exists bi, bs. repeat split; try assumption; try lia. now left.
          * intros j. cbn [j2len_get]. lia.
          * now left. }
    destruct Hrow as ((bi' & bs' & -> & Hb1' & Hb2' & Hb3') & Hn1 & Hn2).
    apply (IH (S i)).
    + lia.
    + intros [|j]; cbn [j2len_prev diag_run_before]; [lia|apply Hn1].
    + cbn [j2len_prev diag_run_before].
      destruct Hn2 as [[]|H]; exact H.
    + exists bi', bs'. repeat split; [lia|].
      intros j Hj. assert (Hc : j < i \/ j = i) by lia.
      destruct Hc as [Hc| ->]; [now apply Hb2'|].
      destruct Hb3' as [[]|H]; exact H.
Qed.

Lemma extend_left_diag (i k : nat) :
  extend_left x x 0 0 i i k = (0, 0, k + i).
Proof.
  revert k. induction i as [|i IH]; intros k; cbn [extend_left].
  - now rewrite Nat.add_0_r.
  - change (0 <? S i) with true. rewrite String.eqb_refl. cbn [andb].
    rewrite IH. f_equal. lia.
Qed.

Lemma extend_right_diag (room k : nat) :
  k + room = length x ->
  extend_right x x (length x) room 0 0 k = (0, 0, length x).
Proof.
  revert k. induction room as [|room IH]; intros k Hk; cbn [extend_right].
  - now rewrite Nat.add_0_r in Hk; subst.
  - cbn [Nat.add]. assert (Hlt : (k <? length x) = true) by (apply Nat.ltb_lt; lia).
    rewrite Hlt, String.eqb_refl. cbn [andb]. apply IH. lia.
Qed.

(** The longest match of a sequence with itself is the whole sequence. *)
Lemma find_longest_match_self :
  find_longest_match x x b2j 0 (length x) 0 (length x) = (0, 0, length x).
Proof.
  unfold find_longest_match. rewrite Nat.sub_0_r.
  destruct (flm_outer_diag (length x) 0 [] (0, 0, 0)) as (bi & bs & E & Hb).
  - reflexivity.
  - intros [|j]; cbn [j2len_prev j2len_get]; lia.
  - reflexivity.
  - exists 0, 0. repeat split; lia.
  - rewrite E, extend_left_diag. apply extend_right_diag. lia.
Qed.

End Diagonal.

Lemma matching_loop_done (a b : list string) (b2j : b2j_t) (fuel : nat)
      (blocks : list block) :
  matching_loop a b b2j fuel [] blocks = ([], blocks).
Proof. destruct fuel; reflexivity. Qed.

Lemma get_matching_blocks_self (x : list string) :
  get_matching_blocks x x
  = match length x with
    | 0 => [(0, 0, 0)]
    | S n => [(0, 0, S n); (S n, S n, 0)]
    end.
Proof.
  unfold get_matching_blocks, matching_fuel.
  rewrite Nat.add_1_r. cbn [matching_loop].
  rewrite find_longest_match_self.
  destruct (length x) as [|n] eqn:En.
  - cbn [Nat.eqb]. rewrite matching_loop_done. reflexivity.
  - cbn [Nat.eqb]. change (0 <? 0) with false. cbn [andb Nat.add].
    rewrite Nat.ltb_irrefl. cbn [andb]. rewrite matching_loop_done.
    reflexivity.
Qed.

Lemma get_opcodes_self (x : list string) :
  get_opcodes x x
  = match length x with
    | 0 => []
    | S n => [(Equal, 0, S n, 0, S n)]
    end.
Proof.
  unfold get_opcodes. rewrite get_matching_blocks_self.
  destruct (length x) as [|n]; [reflexivity|].
  cbn [opcodes_loop Nat.eqb Nat.add app]. change (0 <? 0) with false.
  cbn [andb]. rewrite Nat.ltb_irrefl. reflexivity.
Qed.

Lemma get_grouped_opcodes_self (x : list string) :
  get_grouped_opcodes x x 3 = [].
Proof.
  unfold get_grouped_opcodes. rewrite get_opcodes_self.
  destruct (length x) as [|n]; [reflexivity|].
  unfold group_opcodes. cbn [trim_first trim_last group_loop is_equal andb].
  assert (H : (3 + 3 <? Nat.min (S n) (Nat.max 0 (S n - 3) + 3)
                       - Nat.max 0 (S n - 3)) = false).
  { apply Nat.ltb_ge. lia. }
  rewrite H. reflexivity.
Qed.

(** The diff of a sequence of lines with itself has no line at all. *)
Lemma unified_diff_self (x : list string) (fromfile tofile : string) :
  unified_diff x x fromfile tofile = [].
Proof. unfold unified_diff. now rewrite get_grouped_opcodes_self. Qed.

(** C8. The diff of a configuration with itself is empty, so it has no
    added and no removed line; no rollback command is derived from it;
    and [compare_configs], given a golden file whose text is the live
    configuration, logs the device as compliant, sends nothing to the
    session and writes no file, whether or not the diff report could be
    written. *)
Theorem C8_self_diff_is_compliant
        {session : Type} {net_connect : Session session}
        (config : list string) (device_name current_config path : string)
        (report : diff_file) (s : session) :
  unified_diff config config "Golden Config" "Current Config" = []
  /\ parse_contextual_commands
       (unified_diff config config "Golden Config" "Current Config") = []
  /\ run (compare_configs device_name current_config path
                          (Contents current_config) report) s
     = (Ok tt, [Log DEBUG ConfigCompliant]).
Proof.
  split; [apply unified_diff_self|split].
  - now rewrite unified_diff_self.
  - unfold run, compare_configs, try_except.
    rewrite unified_diff_self. reflexivity.
Qed.

(** ** The diff: matching blocks *)

Lemma j2len_prev_ok (a b : list string) (alo blo bhi i j : nat)
      (j2len : j2len_t) :
  j2len_ok a b alo blo bhi i j2len ->
  alo <= i -> blo <= j -> j < bhi ->
  nth i a "" = nth j b "" ->
  let k := j2len_prev j2len j + 1 in
  k <= i + 1 - alo /\ blo + k <= j + 1
  /\ forall t, t < k -> nth (i + 1 - k + t) a "" = nth (j + 1 - k + t) b "".
Proof.
  intros Hok Hi Hj Hjhi Heq k. subst k.
  destruct (j2len_prev j2len j) as [|p] eqn:Ep.
  - cbn [Nat.add]. repeat split; try lia.
    intros t Ht. replace (i + 1 - 1 + t) with i by lia.
    replace (j + 1 - 1 + t) with j by lia. exact Heq.
  - destruct j as [|j']; [discriminate Ep|]. cbn [j2len_prev] in Ep.
    destruct (Hok j') as (H1 & H2 & H3 & H4); [lia|]. rewrite Ep in *.
    repeat split; try lia.
    intros t Ht. assert (Hc : t < S p \/ t = S p) by lia.
    destruct Hc as [Hc| ->].
    + specialize (H4 t Hc).
      replace (i + 1 - (S p + 1) + t) with (i - S p + t) by lia.
      replace (S j' + 1 - (S p + 1) + t) with (j' + 1 - S p + t) by lia.
      exact H4.
    + replace (i + 1 - (S p + 1) + S p) with i by lia.
      replace (S j' + 1 - (S p + 1) + S p) with (S j') by lia. exact Heq.
Qed.

(** One row of the search keeps the entries and the best block valid. *)
Lemma flm_inner_valid (a b : list string) (alo blo bhi i : nat)
      (j2len : j2len_t) (js : list nat) (newj2len : j2len_t) (best : block) :
  alo <= i ->
  j2len_ok a b alo blo bhi i j2len ->
  (forall j, In j js -> nth i a "" = nth j b "") ->
  j2len_ok a b alo blo bhi (i + 1) newj2len ->
  match_in a b (alo, i + 1, blo, bhi) best ->
  j2len_ok a b alo blo bhi (i + 1)
           (fst (flm_inner j2len i blo bhi js newj2len best))
  /\ match_in a b (alo, i + 1, blo, bhi)
              (snd (flm_inner j2len i blo bhi js newj2len best)).
Proof.
  intros Hi Hok. revert newj2len best.
  induction js as [|j js IH]; intros newj2len best Hjs Hnew Hbest;
    cbn [flm_inner].
  - auto.
  - destruct (j <? blo) eqn:Elo; [apply IH; auto; intros; apply Hjs; now right|].
    destruct (bhi <=? j) eqn:Ehi; [auto|].
    apply Nat.ltb_ge in Elo. apply Nat.leb_gt in Ehi.
    destruct (j2len_prev_ok a b alo blo bhi i j j2len Hok Hi Elo Ehi)
      as (K1 & K2 & K3); [apply Hjs; now left|].
    set (k := j2len_prev j2len j + 1) in *.
    destruct best as [[bi bj] bs].
    apply IH; [intros; apply Hjs; now right| |].
    + intros j0 Hpos. cbn [j2len_get] in *.
      destruct (j =? j0) eqn:E; [|now apply Hnew].
      apply Nat.eqb_eq in E. subst j0. repeat split; try lia.
      intros t Ht. replace (i + 1 - k + t) with (i + 1 - k + t) by lia.
      now apply K3.
    + destruct (bs <? k); [|exact Hbest].
      cbn [match_in]. repeat split; try lia. intros t Ht. now apply K3.
Qed.

Lemma flm_outer_valid (a b : list string) (alo ahi blo bhi : nat)
      (len i : nat) (j2len : j2len_t) (best : block) :
  alo <= i -> i + len = ahi -> bhi <= length b ->
  j2len_ok a b alo blo bhi i j2len ->
  match_in a b (alo, i, blo, bhi) best ->
  match_in a b (alo, ahi, blo, bhi)
           (flm_outer a (chain_b b) blo bhi (seq i len) j2len best).
Proof.
  revert i j2len best. induction len as [|len IH];
    intros i j2len best Hi Hlen Hbhi Hok Hbest; cbn [seq flm_outer].
  - now replace ahi with i by lia.
  - destruct (flm_inner j2len i blo bhi (b2j_get (chain_b b) (nth i a "")) []
                        best) as [newj2len best'] eqn:E.
    pose proof (flm_inner_valid a b alo blo bhi i j2len
                  (b2j_get (chain_b b) (nth i a "")) [] best Hi Hok) as H.
    rewrite E in H. cbn [fst snd] in H.
    destruct H as [H1 H2].
    + intros j Hj. apply chain_b_get_valid in Hj. destruct Hj as [_ Hj].
      now rewrite Hj.
    + intros j Hpos. cbn [j2len_get] in Hpos. lia.
    + destruct best as [[bi bj] bs]. cbn [match_in] in *.
      repeat split; try lia. apply Hbest.
    + apply (IH (S i)); try lia.
      * now rewrite Nat.add_1_r in H1.
      * now rewrite Nat.add_1_r in H2.
Qed.

Lemma extend_left_valid (a b : list string) (alo ahi blo bhi : nat)
      (besti bestj bestsize : nat) :
  match_in a b (alo, ahi, blo, bhi) (besti, bestj, bestsize) ->
  match_in a b (alo, ahi, blo, bhi)
           (extend_left a b alo blo besti bestj bestsize).
Proof.
  revert bestj bestsize. induction besti as [|i IH]; intros bestj bestsize H;
    cbn [extend_left]; [exact H|].
  destruct bestj as [|j]; [exact H|].
  destruct ((alo <? S i) && (blo <? S j) && String.eqb (nth i a "") (nth j b ""))
           eqn:E; [|exact H].
  apply andb_true_iff in E. destruct E as [E E3].
  apply andb_true_iff in E. destruct E as [E1 E2].
  apply Nat.ltb_lt in E1, E2. apply String.eqb_eq in E3.
  apply IH. cbn [match_in] in *. destruct H as (H1 & H2 & H3 & H4 & H5).
  repeat split; try lia. intros t Ht. destruct t as [|t].
  - now rewrite !Nat.add_0_r.
  - replace (i + S t) with (S i + t) by lia.
    replace (j + S t) with (S j + t) by lia. apply H5. lia.
Qed.

Lemma extend_right_valid (a b : list string) (alo ahi blo bhi : nat)
      (room besti bestj bestsize : nat) :
  besti + bestsize + room <= ahi ->
  match_in a b (alo, ahi, blo, bhi) (besti, bestj, bestsize) ->
  match_in a b (alo, ahi, blo, bhi)
           (extend_right a b bhi room besti bestj bestsize).
Proof.
  revert bestsize. induction room as [|room IH]; intros bestsize Hroom H;
    cbn [extend_right]; [exact H|].
  destruct ((bestj + bestsize <? bhi)
            && String.eqb (nth (besti + bestsize) a "")
                          (nth (bestj + bestsize) b "")) eqn:E; [|exact H].
  apply andb_true_iff in E. destruct E as [E1 E2].
  apply Nat.ltb_lt in E1. apply String.eqb_eq in E2.
  apply IH; [lia|]. cbn [match_in] in *. destruct H as (H1 & H2 & H3 & H4 & H5).
  repeat split; try lia. intros t Ht.
  assert (Hc : t < bestsize \/ t = bestsize) by lia.
  destruct Hc as [Hc| ->]; [now apply H5|exact E2].
Qed.

(** [find_longest_match] returns a match inside the region it is given. *)
Lemma find_longest_match_valid (a b : list string) (alo ahi blo bhi : nat) :
  region_ok a b (alo, ahi, blo, bhi) ->
  match_in a b (alo, ahi, blo, bhi)
           (find_longest_match a b (chain_b b) alo ahi blo bhi).
Proof.
  intros (H1 & H2 & H3 & H4). unfold find_longest_match.
  pose proof (flm_outer_valid a b alo ahi blo bhi (ahi - alo) alo []
                              (alo, blo, 0)) as H.
  destruct (flm_outer a (chain_b b) blo bhi (seq alo (ahi - alo)) []
                      (alo, blo, 0)) as [[bi bj] bs].
  assert (Hbest : match_in a b (alo, ahi, blo, bhi) (bi, bj, bs)).
  { apply H; try lia.
    - intros j Hpos. cbn [j2len_get] in Hpos. lia.
    - cbn [match_in]. repeat split; try lia. }
  pose proof (extend_left_valid a b alo ahi blo bhi bi bj bs Hbest) as Hl.
  destruct (extend_left a b alo blo bi bj bs) as [[li lj] ls].
  apply extend_right_valid; [|exact Hl].
  cbn [match_in] in Hl. lia.
Qed.

Lemma pairwise_app_r {A : Type} (R : A -> A -> Prop) (l1 l2 : list A) :
  pairwise R (l1 ++ l2) -> pairwise R l2.
Proof.
  induction l1 as [|x l1 IH]; cbn [app pairwise]; [auto|].
  intros [_ H]. auto.
Qed.

Lemma pairwise_snoc {A : Type} (R : A -> A -> Prop) (l : list A) (x : A) :
  pairwise R l -> Forall (fun y => R y x) l -> pairwise R (l ++ [x]).
Proof.
  induction l as [|y l IH]; cbn [app pairwise]; intros H F.
  - split; [constructor|exact I].
  - destruct H as [H1 H2]. inversion F as [|? ? Fy Fl]; subst. split.
    + apply Forall_app. split; [assumption|]. constructor; [assumption|constructor].
    + auto.
Qed.

Lemma apart_sym (r1 r2 : region) : apart r1 r2 -> apart r2 r1.
Proof. unfold apart. tauto. Qed.

Lemma apart_inside (r r' y : region) :
  inside r' r -> apart r y -> apart r' y.
Proof.
  destruct r as [[[alo ahi] blo] bhi], r' as [[[alo' ahi'] blo'] bhi'],
    y as [[[ylo yhi] zlo] zhi].
  unfold inside, apart, region_before. lia.
Qed.

(** One round of the queue loop keeps [loop_inv]. *)
Lemma loop_inv_step (a b : list string) (alo ahi blo bhi : nat)
      (queue : list region) (blocks : list block) (i j k : nat) :
  loop_inv a b ((alo, ahi, blo, bhi) :: queue) blocks ->
  match_in a b (alo, ahi, blo, bhi) (i, j, k) ->
  0 < k ->
  loop_inv a b
    (let queue1 := if (alo <? i) && (blo <? j) then (alo, i, blo, j) :: queue
                   else queue in
     if (i + k <? ahi) && (j + k <? bhi) then (i + k, ahi, j + k, bhi) :: queue1
     else queue1)
    (blocks ++ [(i, j, k)]).
Proof.
  unfold loop_inv. cbn [match_in].
  intros (Hq & Hb & Hp) (M1 & M2 & M3 & M4 & M5) Hk.
  inversion Hq as [|? ? Hr Hq']; subst.
  cbn [region_ok] in Hr. destruct Hr as (R1 & R2 & R3 & R4).
  cbn [app pairwise] in Hp. destruct Hp as [Hfa Hp].
  set (rest := queue ++ map region_of blocks) in *.
  assert (Hsub : forall r', inside r' (alo, ahi, blo, bhi) ->
                            Forall (apart r') rest).
  { intros r' Hin. eapply Forall_impl; [|exact Hfa].
    intros y Hy. eapply apart_inside; eauto. }
  assert (HM : pairwise apart (rest ++ [region_of (i, j, k)])).
  { apply pairwise_snoc; [assumption|].
    eapply Forall_impl; [|apply (Hsub (region_of (i, j, k)))].
    - intros y Hy. now apply apart_sym.
    - cbn [region_of inside]. lia. }
  assert (Hblocks : Forall (fun blk => vblock a b blk /\ 0 < snd blk)
                           (blocks ++ [(i, j, k)])).
  { apply Forall_app. split; [assumption|]. constructor; [|constructor].
    cbn [vblock snd]. repeat split; try lia. exact M5. }
  assert (Hmap : forall q, q ++ map region_of (blocks ++ [(i, j, k)])
                           = (q ++ map region_of blocks) ++ [region_of (i, j, k)]).
  { intros q. now rewrite map_app, app_assoc. }
  assert (H1 : loop_inv a b
                 (if (alo <? i) && (blo <? j) then (alo, i, blo, j) :: queue
                  else queue)
                 (blocks ++ [(i, j, k)])
               /\ Forall (apart (i + k, ahi, j + k, bhi))
                         ((if (alo <? i) && (blo <? j)
                           then (alo, i, blo, j) :: queue else queue)
                            ++ map region_of (blocks ++ [(i, j, k)]))).
  { destruct ((alo <? i) && (blo <? j)) eqn:E.
    - split.
      + split; [|split; [exact Hblocks|]].
        * constructor; [cbn [region_ok]; lia|assumption].
        * cbn [app pairwise]. rewrite Hmap. fold rest. split; [|exact HM].
          apply Forall_app. split.
          -- apply Hsub. cbn [inside]. lia.
          -- constructor; [|constructor]. left. cbn [region_of region_before].
             lia.
      + cbn [app]. rewrite Hmap. fold rest. constructor.
        * right. cbn [region_before]. lia.
        * apply Forall_app. split.
          -- apply Hsub. cbn [inside]. lia.
          -- constructor; [|constructor]. right.
             cbn [region_of region_before]. lia.
    - split.
      + split; [assumption|split; [exact Hblocks|]].
        rewrite Hmap. exact HM.
      + rewrite Hmap. fold rest. apply Forall_app. split.
        * apply Hsub. cbn [inside]. lia.
        * constructor; [|constructor]. right.
          cbn [region_of region_before]. lia. }
  cbv zeta. destruct H1 as [(Hq1 & Hb1 & Hp1) Hfa1].
  destruct ((i + k <? ahi) && (j + k <? bhi)) eqn:E2.
  - split; [|split; [exact Hb1|]].
    + constructor; [cbn [region_ok]; lia|assumption].
    + cbn [app pairwise]. split; assumption.
  - split; [assumption|split; assumption].
Qed.

Lemma matching_loop_inv (a b : list string) (fuel : nat) (queue : list region)
      (blocks : list block) :
  loop_inv a b queue blocks ->
  loop_inv a b (fst (matching_loop a b (chain_b b) fuel queue blocks))
           (snd (matching_loop a b (chain_b b) fuel queue blocks)).
Proof.
  revert queue blocks. induction fuel as [|fuel IH]; intros queue blocks H;
    cbn [matching_loop]; [exact H|].
  destruct queue as [|[[[alo ahi] blo] bhi] queue]; [exact H|].
  assert (Hr : region_ok a b (alo, ahi, blo, bhi)).
  { destruct H as [Hq _]. now inversion Hq. }
  pose proof (find_longest_match_valid a b alo ahi blo bhi Hr) as Hm.
  destruct (find_longest_match a b (chain_b b) alo ahi blo bhi)
    as [[i j] k].
  destruct (k =? 0) eqn:Ek.
  - apply IH. destruct H as (Hq & Hb & Hp). split; [|split].
    + now inversion Hq.
    + assumption.
    + cbn [app pairwise] in Hp. tauto.
  - apply Nat.eqb_neq in Ek. apply IH.
    apply (loop_inv_step a b alo ahi blo bhi queue blocks i j k H Hm). lia.
Qed.

(** The blocks that the loop has found, whenever it stops. *)
Lemma matching_loop_blocks (a b : list string) :
  let found := snd (matching_loop a b (chain_b b) (matching_fuel a)
                                  [(0, length a, 0, length b)] []) in
  Forall (fun blk => vblock a b blk /\ 0 < snd blk) found
  /\ pairwise apart (map region_of found).
Proof.
  pose proof (matching_loop_inv a b (matching_fuel a)
                                [(0, length a, 0, length b)] []) as H.
  destruct H as (_ & Hb & Hp).
  - split; [|split].
    + constructor; [cbn [region_ok]; lia|constructor].
    + constructor.
    + cbn. split; [constructor|exact I].
  - intros found. split; [exact Hb|]. eapply pairwise_app_r. exact Hp.
Qed.

(** The queue is empty when the loop stops: its fuel is enough. *)
Lemma matching_loop_finishes (a b : list string) (fuel : nat)
      (queue : list region) (blocks : list block) :
  Forall (region_ok a b) queue ->
  queue_measure queue <= fuel ->
  fst (matching_loop a b (chain_b b) fuel queue blocks) = [].
Proof.
  revert queue blocks. induction fuel as [|fuel IH]; intros queue blocks Hq Hm;
    cbn [matching_loop].
  - destruct queue as [|[[[alo ahi] blo] bhi] queue]; [reflexivity|].
    cbn [queue_measure] in Hm. lia.
  - destruct queue as [|[[[alo ahi] blo] bhi] queue]; [reflexivity|].
    inversion Hq as [|? ? Hr Hq']; subst.
    pose proof (find_longest_match_valid a b alo ahi blo bhi Hr) as Hv.
    destruct (find_longest_match a b (chain_b b) alo ahi blo bhi)
      as [[i j] k].
    cbn [match_in] in Hv. destruct Hv as (V1 & V2 & V3 & V4 & _).
    cbn [region_ok] in Hr. cbn [queue_measure] in Hm.
    destruct (k =? 0) eqn:Ek; [apply IH; [assumption|lia]|].
    apply Nat.eqb_neq in Ek.
    apply IH.
    + destruct ((alo <? i) && (blo <? j)), ((i + k <? ahi) && (j + k <? bhi));
        repeat (constructor; [cbn [region_ok]; lia|]); assumption.
    + destruct ((alo <? i) && (blo <? j)), ((i + k <? ahi) && (j + k <? bhi));
        cbn [queue_measure]; lia.
Qed.

Lemma get_matching_blocks_loop_ends (a b : list string) :
  fst (matching_loop a b (chain_b b) (matching_fuel a)
                     [(0, length a, 0, length b)] []) = [].
Proof.
  apply matching_loop_finishes.
  - constructor; [cbn [region_ok]; lia|constructor].
  - unfold matching_fuel. cbn [queue_measure]. lia.
Qed.

(** *** Sorting the blocks *)

Lemma insert_block_In (x z : block) (l : list block) :
  In z (insert_block x l) <-> z = x \/ In z l.
Proof.
  induction l as [|y l IH]; cbn [insert_block In].
  - intuition.
  - destruct (block_leb x y); cbn [In]; [intuition|]. rewrite IH. intuition.
Qed.

Lemma sort_blocks_In (z : block) (l : list block) :
  In z (sort_blocks l) <-> In z l.
Proof.
  unfold sort_blocks. induction l as [|x l IH]; cbn [fold_right In].
  - reflexivity.
  - rewrite insert_block_In, IH. intuition.
Qed.

Lemma apart_blocks (x y : block) :
  apart (region_of x) (region_of y) <-> before x y \/ before y x.
Proof.
  destruct x as [[i1 j1] k1], y as [[i2 j2] k2].
  unfold apart, region_of, region_before, before. reflexivity.
Qed.

Lemma before_trans (x y z : block) :
  before x y -> before y z -> before x z.
Proof.
  destruct x as [[i1 j1] k1], y as [[i2 j2] k2], z as [[i3 j3] k3].
  unfold before. lia.
Qed.

Lemma insert_block_chain (x : block) (l : list block) :
  0 < snd x ->
  Forall (fun y => 0 < snd y) l ->
  Forall (fun y => before x y \/ before y x) l ->
  pairwise before l ->
  pairwise before (insert_block x l).
Proof.
  intros Hx. induction l as [|y l IH]; intros Hpos Hap Hch;
    cbn [insert_block].
  - split; [constructor|exact I].
  - inversion Hpos as [|? ? Hy Hpos']; subst.
    inversion Hap as [|? ? Hxy Hap']; subst.
    cbn [pairwise] in Hch. destruct Hch as [Hyl Hch].
    destruct (block_leb x y) eqn:E.
    + assert (Hb : before x y).
      { destruct Hxy as [H|H]; [exact H|]. exfalso.
        destruct x as [[i1 j1] k1], y as [[i2 j2] k2].
        cbn [before snd block_leb] in *.
        apply orb_true_iff in E. destruct E as [E|E].
        - apply Nat.ltb_lt in E. lia.
        - apply andb_true_iff in E. destruct E as [E _].
          apply Nat.eqb_eq in E. lia. }
      cbn [pairwise]. split; [|split; assumption].
      constructor; [exact Hb|].
      eapply Forall_impl; [|exact Hyl]. intros z Hz.
      eapply before_trans; eassumption.
    + assert (Hb : before y x).
      { destruct Hxy as [H|H]; [|exact H]. exfalso.
        destruct x as [[i1 j1] k1], y as [[i2 j2] k2].
        cbn [before snd block_leb] in *.
        apply orb_false_iff in E. destruct E as [E _].
        apply Nat.ltb_ge in E. lia. }
      cbn [pairwise]. split; [|now apply IH].
      apply Forall_forall. intros z Hz. apply insert_block_In in Hz.
      destruct Hz as [->|Hz]; [exact Hb|].
      rewrite Forall_forall in Hyl. now apply Hyl.
Qed.

(** Blocks of positive size that are pairwise apart come out of the sort
    in increasing order, each before the next. *)
Lemma sort_blocks_chain (l : list block) :
  Forall (fun y => 0 < snd y) l ->
  pairwise apart (map region_of l) ->
  pairwise before (sort_blocks l).
Proof.
  induction l as [|x l IH]; intros Hpos Hap; [exact I|].
  change (sort_blocks (x :: l)) with (insert_block x (sort_blocks l)).
  inversion Hpos as [|? ? Hx Hpos']; subst.
  cbn [map pairwise] in Hap. destruct Hap as [Hxl Hap].
  apply insert_block_chain; [assumption| | |now apply IH].
  - apply Forall_forall. intros z Hz. apply (proj1 (sort_blocks_In z l)) in Hz.
    rewrite Forall_forall in Hpos'. now apply Hpos'.
  - apply Forall_forall. intros z Hz. apply (proj1 (sort_blocks_In z l)) in Hz.
    apply apart_blocks. rewrite Forall_forall in Hxl. apply Hxl.
    now apply in_map.
Qed.

(** *** Merging adjacent blocks *)

Lemma pairwise_app {A : Type} (R : A -> A -> Prop) (l1 l2 : list A) :
  pairwise R (l1 ++ l2)
  <-> pairwise R l1 /\ pairwise R l2 /\ Forall (fun x => Forall (R x) l2) l1.
Proof.
  induction l1 as [|x l1 IH]; cbn [app pairwise].
  - split; [intros H; repeat split; auto|tauto].
  - rewrite IH, Forall_app. split.
    + intros ((H1 & H2) & H3 & H4 & H5). repeat split; auto.
    + intros ((H1 & H2) & H3 & H4). inversion H4; subst. repeat split; auto.
Qed.

Lemma vblock_merge (a b : list string) (i1 j1 k1 i2 j2 k2 : nat) :
  vblock a b (i1, j1, k1) -> vblock a b (i2, j2, k2) ->
  i1 + k1 = i2 -> j1 + k1 = j2 ->
  vblock a b (i1, j1, k1 + k2).
Proof.
  cbn [vblock]. intros (A1 & A2 & A3) (B1 & B2 & B3) Hi Hj.
  repeat split; try lia. intros t Ht.
  assert (Hc : t < k1 \/ k1 <= t) by lia. destruct Hc as [Hc|Hc].
  - now apply A3.
  - replace (i1 + t) with (i2 + (t - k1)) by lia.
    replace (j1 + t) with (j2 + (t - k1)) by lia. apply B3. lia.
Qed.

Lemma collapse_chain (a b : list string) (blocks : list block) (cur : block)
      (non_adjacent : list block) :
  Forall (vblock a b) (non_adjacent ++ cur :: blocks) ->
  pairwise before (non_adjacent ++ cur :: blocks) ->
  Forall (vblock a b)
         (snd (collapse blocks cur non_adjacent)
              ++ [fst (collapse blocks cur non_adjacent)])
  /\ pairwise before
              (snd (collapse blocks cur non_adjacent)
                   ++ [fst (collapse blocks cur non_adjacent)]).
Proof.
  revert cur non_adjacent.
  induction blocks as [|[[i2 j2] k2] rest IH]; intros [[i1 j1] k1] na Hv Hc;
    cbn [collapse fst snd]; [auto|].
  destruct ((i1 + k1 =? i2) && (j1 + k1 =? j2)) eqn:E.
  - apply andb_true_iff in E. destruct E as [E1 E2].
    apply Nat.eqb_eq in E1, E2. apply IH.
    + apply Forall_app in Hv. destruct Hv as [Hv1 Hv2].
      inversion Hv2 as [|? ? Hcur Hv3]; subst.
      inversion Hv3 as [|? ? Hblk Hv4]; subst.
      apply Forall_app. split; [assumption|]. constructor; [|assumption].
      eapply vblock_merge; eauto.
    + apply pairwise_app in Hc. destruct Hc as (Hc1 & Hc2 & Hc3).
      cbn [pairwise] in Hc2. destruct Hc2 as (Hf1 & Hf2 & Hc4).
      apply pairwise_app. split; [assumption|split].
      * cbn [pairwise]. split; [|assumption].
        eapply Forall_impl; [|exact Hf2]. intros [[i3 j3] k3].
        cbn [before]. lia.
      * eapply Forall_impl; [|exact Hc3]. intros [[i0 j0] k0] Hx.
        inversion Hx as [|? ? Hx1 Hx2]; subst.
        inversion Hx2 as [|? ? Hx3 Hx4]; subst.
        constructor; [|assumption]. cbn [before] in *. lia.
  - destruct (k1 =? 0) eqn:Ek.
    + apply IH.
      * apply Forall_app in Hv. destruct Hv as [Hv1 Hv2].
        inversion Hv2; subst. apply Forall_app. split; assumption.
      * apply pairwise_app in Hc. destruct Hc as (Hc1 & Hc2 & Hc3).
        cbn [pairwise] in Hc2. destruct Hc2 as (_ & Hc4).
        apply pairwise_app. split; [assumption|split; [assumption|]].
        eapply Forall_impl; [|exact Hc3]. intros x Hx. now inversion Hx.
    + apply IH; rewrite <- app_assoc; assumption.
Qed.

(** The matching blocks: matches of the two sequences, each before the
    next, closed by the empty block at the two ends. *)
Lemma get_matching_blocks_chain (a b : list string) :
  Forall (vblock a b) (get_matching_blocks a b)
  /\ pairwise before (get_matching_blocks a b).
Proof.
  unfold get_matching_blocks.
  destruct (matching_loop_blocks a b) as [Hfound Hap].
  set (found := snd (matching_loop a b (chain_b b) (matching_fuel a)
                                   [(0, length a, 0, length b)] [])) in *.
  assert (Hsorted : pairwise before (sort_blocks found)).
  { apply sort_blocks_chain; [|assumption].
    eapply Forall_impl; [|exact Hfound]. intros z [_ Hz]. exact Hz. }
  assert (Hvalid : Forall (vblock a b) (sort_blocks found)).
  { apply Forall_forall. intros z Hz.
    apply (proj1 (sort_blocks_In z found)) in Hz.
    rewrite Forall_forall in Hfound. now apply Hfound in Hz. }
  destruct (collapse_chain a b (sort_blocks found) (0, 0, 0) []) as [Hv Hc].
  - cbn [app]. constructor; [|assumption]. cbn [vblock]. repeat split; lia.
  - cbn [app pairwise]. split; [|assumption].
    apply Forall_forall. intros [[i j] k] _. cbn [before]. lia.
  - destruct (collapse (sort_blocks found) (0, 0, 0) []) as [[[i1 j1] k1] na].
    cbn [fst snd] in Hv, Hc.
    assert (Hfront : Forall (vblock a b)
                            (if k1 =? 0 then na else na ++ [(i1, j1, k1)])
                     /\ pairwise before
                                 (if k1 =? 0 then na else na ++ [(i1, j1, k1)])).
    { destruct (k1 =? 0); [|auto]. split.
      - apply Forall_app in Hv. tauto.
      - apply pairwise_app in Hc. tauto. }
    destruct Hfront as [Hfv Hfc]. split.
    + apply Forall_app. split; [assumption|].
      constructor; [|constructor]. cbn [vblock]. repeat split; lia.
    + apply pairwise_snoc; [assumption|].
      eapply Forall_impl; [|exact Hfv]. intros [[i j] k].
      cbn [vblock before]. lia.
Qed.

(** ** The diff: opcodes and groups *)

Lemma linked_app (i j : nat) (l1 l2 : list opcode) :
  linked i j (l1 ++ l2)
  <-> linked i j l1 /\ linked (fst (ends i j l1)) (snd (ends i j l1)) l2.
Proof.
  revert i j. induction l1 as [|[[[[t i1] i2] j1] j2] l1 IH]; intros i j;
    cbn [app linked ends fst snd].
  - tauto.
  - rewrite IH. tauto.
Qed.

(** The opcodes computed from a chain of matching blocks describe the
    two sequences truly and continue each other. *)
Lemma opcodes_loop_spec (a b : list string) (blocks : list block) (i j : nat)
      (answer : list opcode) :
  Forall (vblock a b) blocks ->
  pairwise before blocks ->
  Forall (before (i, j, 0)) blocks ->
  exists ops,
    opcodes_loop blocks i j answer = answer ++ ops
    /\ Forall (op_ok a b) ops /\ linked i j ops.
Proof.
  revert i j answer.
  induction blocks as [|[[ai bj] size] rest IH]; intros i j answer Hv Hc Hlo;
    cbn [opcodes_loop].
  - exists []. rewrite app_nil_r. repeat split. constructor.
  - inversion Hv as [|? ? Hblk Hv']; subst.
    cbn [pairwise] in Hc. destruct Hc as [Hnext Hc].
    inversion Hlo as [|? ? Hcur _]; subst.
    cbn [vblock] in Hblk. destruct Hblk as (B1 & B2 & B3).
    cbn [before] in Hcur. rewrite !Nat.add_0_r in Hcur.
    destruct Hcur as [Hi Hj].
    assert (Hrest : Forall (before (ai + size, bj + size, 0)) rest).
    { eapply Forall_impl; [|exact Hnext]. intros [[i3 j3] k3].
      cbn [before]. lia. }
    set (gap := if (i <? ai) && (j <? bj) then [(Replace, i, ai, j, bj)]
                else if i <? ai then [(Delete, i, ai, j, bj)]
                     else if j <? bj then [(Insert, i, ai, j, bj)] else []).
    set (eq := if size =? 0 then [] else [(Equal, ai, ai + size, bj, bj + size)]).
    assert (Hans : (if size =? 0
                    then (if (i <? ai) && (j <? bj)
                          then answer ++ [(Replace, i, ai, j, bj)]
                          else if i <? ai then answer ++ [(Delete, i, ai, j, bj)]
                               else if j <? bj
                                    then answer ++ [(Insert, i, ai, j, bj)]
                                    else answer)
                    else (if (i <? ai) && (j <? bj)
                          then answer ++ [(Replace, i, ai, j, bj)]
                          else if i <? ai then answer ++ [(Delete, i, ai, j, bj)]
                               else if j <? bj
                                    then answer ++ [(Insert, i, ai, j, bj)]
                                    else answer)
                           ++ [(Equal, ai, ai + size, bj, bj + size)])
                   = answer ++ gap ++ eq).
    { unfold gap, eq.
      destruct (size =? 0), ((i <? ai) && (j <? bj)), (i <? ai), (j <? bj);
        cbn [app]; rewrite ?app_nil_r, <- ?app_assoc; reflexivity. }
    rewrite Hans.
    destruct (IH (ai + size) (bj + size) (answer ++ gap ++ eq) Hv' Hc Hrest)
      as (ops & E & Hok & Hl).
    exists (gap ++ eq ++ ops). rewrite E, <- !app_assoc.
    split; [reflexivity|].
    assert (Hgap : Forall (op_ok a b) gap
                   /\ linked i j gap
                   /\ ends i j gap = (ai, bj)).
    { unfold gap. destruct (i <? ai) eqn:E1, (j <? bj) eqn:E2; cbn [andb];
        try apply Nat.ltb_lt in E1; try apply Nat.ltb_lt in E2;
        try apply Nat.ltb_ge in E1; try apply Nat.ltb_ge in E2;
        cbn [linked ends]; repeat split; try lia;
        try (constructor; [cbn [op_ok]; repeat split; lia|constructor]);
        try constructor.
      f_equal; lia. }
    assert (Heq : Forall (op_ok a b) eq
                  /\ linked ai bj eq
                  /\ ends ai bj eq = (ai + size, bj + size)).
    { unfold eq. destruct (size =? 0) eqn:E0.
      - apply Nat.eqb_eq in E0. subst size. rewrite !Nat.add_0_r.
        cbn [linked ends]. repeat split. constructor.
      - cbn [linked ends]. repeat split.
        constructor; [|constructor]. cbn [op_ok]. repeat split; try lia.
        intros t Ht. apply B3. lia. }
    destruct Hgap as (G1 & G2 & G3). destruct Heq as (Q1 & Q2 & Q3).
    split.
    + apply Forall_app. split; [assumption|].
      apply Forall_app. split; assumption.
    + apply linked_app. split; [assumption|]. rewrite G3. cbn [fst snd].
      apply linked_app. split; [assumption|]. rewrite Q3. exact Hl.
Qed.

Lemma get_opcodes_spec (a b : list string) :
  Forall (op_ok a b) (get_opcodes a b) /\ linked 0 0 (get_opcodes a b).
Proof.
  unfold get_opcodes.
  destruct (get_matching_blocks_chain a b) as [Hv Hc].
  destruct (opcodes_loop_spec a b (get_matching_blocks a b) 0 0 [] Hv Hc)
    as (ops & E & Hok & Hl).
  - apply Forall_forall. intros [[i j] k] _. cbn [before]. lia.
  - rewrite E. cbn [app]. auto.
Qed.

Lemma op_ok_equal_sub (a b : list string) (i1 i2 j1 j2 i1' i2' j1' j2' : nat) :
  op_ok a b (Equal, i1, i2, j1, j2) ->
  i1 <= i1' -> i1' <= i2' -> i2' <= i2 ->
  j1' = j1 + (i1' - i1) -> j2' = j1 + (i2' - i1) ->
  op_ok a b (Equal, i1', i2', j1', j2').
Proof.
  cbn [op_ok]. intros (H1 & H2 & H3 & H4 & H5 & H6) A1 A2 A3 -> ->.
  repeat split; try lia. intros t Ht.
  replace (i1' + t) with (i1 + (i1' - i1 + t)) by lia.
  replace (j1 + (i1' - i1) + t) with (j1 + (i1' - i1 + t)) by lia.
  apply H6. lia.
Qed.

Lemma op_ok_front (a b : list string) (n : nat) (t : tag) (i1 i2 j1 j2 : nat) :
  op_ok a b (t, i1, i2, j1, j2) -> is_equal t = true ->
  op_ok a b (t, i1, Nat.min i2 (i1 + n), j1, Nat.min j2 (j1 + n)).
Proof.
  intros H Et. destruct t; try discriminate Et.
  pose proof H as H'. cbn [op_ok] in H'.
  eapply op_ok_equal_sub; [exact H| | | | |]; lia.
Qed.

Lemma op_ok_back (a b : list string) (n : nat) (t : tag) (i1 i2 j1 j2 : nat) :
  op_ok a b (t, i1, i2, j1, j2) -> is_equal t = true ->
  op_ok a b (t, Nat.max i1 (i2 - n), i2, Nat.max j1 (j2 - n), j2).
Proof.
  intros H Et. destruct t; try discriminate Et.
  pose proof H as H'. cbn [op_ok] in H'.
  eapply op_ok_equal_sub; [exact H| | | | |]; lia.
Qed.

Lemma trim_first_spec (a b : list string) (n i j : nat) (codes : list opcode) :
  Forall (op_ok a b) codes -> linked i j codes ->
  Forall (op_ok a b) (trim_first n codes)
  /\ exists i' j', linked i' j' (trim_first n codes).
Proof.
  intros Hok Hl. destruct codes as [|[[[[t i1] i2] j1] j2] rest];
    [split; [constructor|now exists 0, 0]|].
  inversion Hok as [|? ? Hc Hrest]; subst.
  cbn [linked] in Hl. destruct Hl as (_ & _ & Hl).
  destruct t; cbn [trim_first];
    try (split; [assumption|exists i1, j1; cbn [linked]; auto]).
  split.
  - constructor; [|assumption]. now apply (op_ok_back a b n Equal).
  - eexists. eexists. cbn [linked]. eauto.
Qed.

Lemma trim_last_spec (a b : list string) (n i j : nat) (codes : list opcode) :
  Forall (op_ok a b) codes -> linked i j codes ->
  Forall (op_ok a b) (trim_last n codes) /\ linked i j (trim_last n codes).
Proof.
  revert i j. induction codes as [|[[[[t i1] i2] j1] j2] rest IH];
    intros i j Hok Hl; [split; [constructor|exact I]|].
  inversion Hok as [|? ? Hc Hrest]; subst.
  cbn [linked] in Hl. destruct Hl as (-> & -> & Hl).
  destruct (IH i2 j2 Hrest Hl) as [IH1 IH2].
  destruct rest as [|c rest].
  - destruct t; cbn [trim_last linked]; (split; [|auto]);
      try (constructor; [assumption|constructor]).
    constructor; [|constructor]. now apply (op_ok_front a b n Equal).
  - assert (E : trim_last n (((t, i, i2, j, j2) : opcode) :: c :: rest)
                = (t, i, i2, j, j2) :: trim_last n (c :: rest)).
    { destruct t; reflexivity. }
    rewrite E. split; [constructor; assumption|]. cbn [linked]. auto.
Qed.

(** What every group handed out by the grouping loop is: a non-empty run
    of opcodes that are true of the two sequences and continue each
    other. *)
Lemma group_loop_spec (a b : list string) (n : nat) (codes group : list opcode) :
  Forall (op_ok a b) (group ++ codes) ->
  (exists i j, linked i j (group ++ codes)) ->
  Forall (fun g => g <> [] /\ Forall (op_ok a b) g /\ exists i j, linked i j g)
         (fst (group_loop n codes group))
  /\ Forall (op_ok a b) (snd (group_loop n codes group))
  /\ exists i j, linked i j (snd (group_loop n codes group)).
Proof.
  revert group. induction codes as [|[[[[t i1] i2] j1] j2] rest IH];
    intros group Hok (i & j & Hl); cbn [group_loop].
  - rewrite app_nil_r in *. cbn [fst snd]. split; [constructor|]. eauto.
  - apply Forall_app in Hok. destruct Hok as [Hg Hc].
    inversion Hc as [|? ? Hop Hrest]; subst.
    apply linked_app in Hl. destruct Hl as [Hl1 Hl2].
    cbn [linked] in Hl2. destruct Hl2 as (E1 & E2 & Hl3).
    destruct (is_equal t && (n + n <? i2 - i1)) eqn:E.
    + apply andb_true_iff in E. destruct E as [Et _].
      destruct (IH [(t, Nat.max i1 (i2 - n), i2, Nat.max j1 (j2 - n), j2)])
        as (IH1 & IH2 & IH3).
      * cbn [app]. constructor; [|assumption]. now apply op_ok_back.
      * eexists. eexists. cbn [app linked]. eauto.
      * destruct (group_loop n rest
                    [(t, Nat.max i1 (i2 - n), i2, Nat.max j1 (j2 - n), j2)])
          as [groups final].
        cbn [fst snd] in *. split; [|auto].
        constructor; [|assumption]. split; [|split].
        -- intros H. now destruct group.
        -- apply Forall_app. split; [assumption|].
           constructor; [|constructor]. now apply op_ok_front.
        -- exists i, j. apply linked_app. split; [assumption|].
           cbn [linked]. auto.
    + apply IH.
      * rewrite <- app_assoc. cbn [app]. apply Forall_app. auto.
      * exists i, j. rewrite <- app_assoc. cbn [app].
        apply linked_app. split; [assumption|]. cbn [linked]. auto.
Qed.

Lemma group_opcodes_spec (a b : list string) (n : nat) (codes : list opcode)
      (g : list opcode) :
  codes <> [] ->
  Forall (op_ok a b) codes -> linked 0 0 codes ->
  In g (group_opcodes n codes) ->
  g <> [] /\ Forall (op_ok a b) g /\ exists i j, linked i j g.
Proof.
  intros Hne Hok Hl. unfold group_opcodes.
  destruct codes as [|c codes]; [contradiction|].
  destruct (trim_first_spec a b n 0 0 (c :: codes) Hok Hl)
    as (Hok1 & i1 & j1 & Hl1).
  destruct (trim_last_spec a b n i1 j1 _ Hok1 Hl1) as [Hok2 Hl2].
  destruct (group_loop_spec a b n (trim_last n (trim_first n (c :: codes))) [])
    as (G1 & G2 & G3).
  - exact Hok2.
  - exists i1, j1. exact Hl2.
  - destruct (group_loop n (trim_last n (trim_first n (c :: codes))) [])
      as [groups final].
    cbn [fst snd] in *.
    assert (Hall : Forall (fun g => g <> [] /\ Forall (op_ok a b) g
                                    /\ exists i j, linked i j g)
                          (groups ++ match final with [] => [] | _ => [final] end)).
    { apply Forall_app. split; [assumption|].
      destruct final; [constructor|].
      constructor; [|constructor]. split; [discriminate|auto]. }
    intros Hin. rewrite Forall_forall in Hall. apply Hall.
    destruct final as [|[[[[t fi1] fi2] fj1] fj2] frest].
    + now rewrite app_nil_r.
    + destruct t, frest; try exact Hin; apply in_or_app; now left.
Qed.

(** Every group of [get_grouped_opcodes]. *)
Lemma get_grouped_opcodes_spec (a b : list string) (g : list opcode) :
  In g (get_grouped_opcodes a b 3) ->
  g <> [] /\ Forall (op_ok a b) g /\ exists i j, linked i j g.
Proof.
  unfold get_grouped_opcodes. destruct (get_opcodes_spec a b) as [Hok Hl].
  destruct (get_opcodes a b) as [|c codes] eqn:E.
  - intros [].
  - apply group_opcodes_spec; [discriminate|assumption|assumption].
Qed.

(** ** The lines of a hunk *)

Lemma firstn_firstn_skipn {A : Type} (p q : nat) (l : list A) :
  firstn p l ++ firstn q (skipn p l) = firstn (p + q) l.
Proof.
  revert l. induction p as [|p IH]; intros l; [reflexivity|].
  destruct l as [|x l]; cbn [firstn skipn Nat.add app].
  - now rewrite firstn_nil.
  - now rewrite IH.
Qed.

(** [l[i:m] + l[m:k] == l[i:k]] when [i <= m <= k]. *)
Lemma slice_app {A : Type} (l : list A) (i m k : nat) :
  i <= m -> m <= k -> slice l i m ++ slice l m k = slice l i k.
Proof.
  intros Him Hmk. unfold slice.
  replace (skipn m l) with (skipn (m - i) (skipn i l))
    by (rewrite skipn_skipn; f_equal; lia).
  rewrite firstn_firstn_skipn. f_equal. lia.
Qed.

Lemma slice_empty {A : Type} (l : list A) (i : nat) : slice l i i = [].
Proof. unfold slice. now rewrite Nat.sub_diag. Qed.

Lemma slice_length {A : Type} (l : list A) (i k : nat) :
  i <= k -> k <= length l -> length (slice l i k) = k - i.
Proof.
  intros Hik Hk. unfold slice. apply firstn_length_le.
  rewrite length_skipn. lia.
Qed.

Lemma slice_nth {A : Type} (l : list A) (i k t : nat) (d : A) :
  t < k - i -> nth t (slice l i k) d = nth (i + t) l d.
Proof.
  intros Ht. unfold slice. rewrite nth_firstn.
  apply Nat.ltb_lt in Ht. rewrite Ht. apply nth_skipn.
Qed.

(** Two slices that agree position by position are the same list. *)
Lemma slice_ext (a b : list string) (i1 i2 j1 j2 : nat) :
  i1 <= i2 -> i2 <= length a -> j1 <= j2 -> j2 <= length b ->
  i2 - i1 = j2 - j1 ->
  (forall t, t < i2 - i1 -> nth (i1 + t) a "" = nth (j1 + t) b "") ->
  slice a i1 i2 = slice b j1 j2.
Proof.
  intros Hi Ha Hj Hb Hlen Hnth. apply (nth_ext _ _ "" "").
  - rewrite !slice_length by assumption. exact Hlen.
  - intros t Ht. rewrite slice_length in Ht by assumption.
    rewrite !slice_nth by lia. now apply Hnth.
Qed.

(** A line starts with the character put in front of it. *)
Lemma startswith_tag (c : ascii) (x : string) :
  PyStr.startswith (String c "" ++ x) (String c "") = true.
Proof.
  unfold PyStr.startswith. cbn [append String.prefix].
  destruct (ascii_dec c c) as [_|H]; [now destruct x|now elim H].
Qed.

Lemma live_side_app (x y : list string) :
  live_side (x ++ y) = live_side x ++ live_side y.
Proof. unfold live_side. now rewrite filter_app, map_app. Qed.

Lemma golden_side_app (x y : list string) :
  golden_side (x ++ y) = golden_side x ++ golden_side y.
Proof. unfold golden_side. now rewrite filter_app, map_app. Qed.

Lemma live_side_context (l : list string) :
  live_side (prefix_lines " " l) = l.
Proof.
  unfold live_side, prefix_lines. induction l as [|x l IH]; [reflexivity|].
  cbn [map filter]. change (PyStr.startswith (" " ++ x) "-") with false.
  cbn [negb map]. now rewrite IH.
Qed.

Lemma live_side_added (l : list string) :
  live_side (prefix_lines "+" l) = l.
Proof.
  unfold live_side, prefix_lines. induction l as [|x l IH]; [reflexivity|].
  cbn [map filter]. change (PyStr.startswith ("+" ++ x) "-") with false.
  cbn [negb map]. now rewrite IH.
Qed.

Lemma live_side_removed (l : list string) :
  live_side (prefix_lines "-" l) = [].
Proof.
  unfold live_side, prefix_lines. induction l as [|x l IH]; [reflexivity|].
  cbn [map filter]. rewrite (startswith_tag "-" x).
  cbn [negb]. exact IH.
Qed.

Lemma golden_side_context (l : list string) :
  golden_side (prefix_lines " " l) = l.
Proof.
  unfold golden_side, prefix_lines. induction l as [|x l IH]; [reflexivity|].
  cbn [map filter]. change (PyStr.startswith (" " ++ x) "+") with false.
  cbn [negb map]. now rewrite IH.
Qed.

Lemma golden_side_removed (l : list string) :
  golden_side (prefix_lines "-" l) = l.
Proof.
  unfold golden_side, prefix_lines. induction l as [|x l IH]; [reflexivity|].
  cbn [map filter]. change (PyStr.startswith ("-" ++ x) "+") with false.
  cbn [negb map]. now rewrite IH.
Qed.

Lemma golden_side_added (l : list string) :
  golden_side (prefix_lines "+" l) = [].
Proof.
  unfold golden_side, prefix_lines. induction l as [|x l IH]; [reflexivity|].
  cbn [map filter]. rewrite (startswith_tag "+" x).
  cbn [negb]. exact IH.
Qed.

(** The lines of one opcode give back the two ranges it relates. *)
Lemma opcode_lines_sides (a b : list string) (t : tag) (i1 i2 j1 j2 : nat) :
  op_ok a b (t, i1, i2, j1, j2) ->
  live_side (opcode_lines a b (t, i1, i2, j1, j2)) = slice b j1 j2
  /\ golden_side (opcode_lines a b (t, i1, i2, j1, j2)) = slice a i1 i2.
Proof.
  intros (Hi & Ha & Hj & Hb & Ht). unfold opcode_lines. destruct t.
  - rewrite live_side_app, golden_side_app, live_side_removed,
      live_side_added, golden_side_removed, golden_side_added.
    now rewrite app_nil_r.
  - subst j2. now rewrite live_side_removed, golden_side_removed, slice_empty.
  - subst i2. now rewrite live_side_added, golden_side_added, slice_empty.
  - destruct Ht as [Hlen Hnth].
    rewrite live_side_context, golden_side_context. split; [|reflexivity].
    now apply slice_ext.
Qed.

(** A chain of opcodes ends no earlier than it starts, and inside the two
    sequences. *)
Lemma ends_bounds (a b : list string) (g : list opcode) (i j : nat) :
  Forall (op_ok a b) g -> linked i j g -> i <= length a -> j <= length b ->
  i <= fst (ends i j g) /\ fst (ends i j g) <= length a
  /\ j <= snd (ends i j g) /\ snd (ends i j g) <= length b.
Proof.
  revert i j. induction g as [|[[[[t i1] i2] j1] j2] g IH];
    intros i j Hok Hl Hi Hj; cbn [ends fst snd]; [lia|].
  inversion Hok as [|? ? Hc Hrest]; subst.
  cbn [linked] in Hl. destruct Hl as (-> & -> & Hl).
  destruct Hc as (Hi12 & Ha & Hj12 & Hb & _).
  specialize (IH i2 j2 Hrest Hl Ha Hb). lia.
Qed.

(** The lines of a chain of opcodes give back the two ranges it covers. *)
Lemma group_body_sides (a b : list string) (g : list opcode) (i j : nat) :
  Forall (op_ok a b) g -> linked i j g -> i <= length a -> j <= length b ->
  live_side (group_body a b g) = slice b j (snd (ends i j g))
  /\ golden_side (group_body a b g) = slice a i (fst (ends i j g)).
Proof.
  revert i j. unfold group_body.
  induction g as [|[[[[t i1] i2] j1] j2] g IH]; intros i j Hok Hl Hi Hj.
  - cbn [flat_map ends fst snd]. now rewrite !slice_empty.
  - inversion Hok as [|? ? Hc Hrest]; subst.
    cbn [linked] in Hl. destruct Hl as (-> & -> & Hl).
    destruct (opcode_lines_sides a b t i i2 j j2 Hc) as [Hlive Hgold].
    destruct Hc as (Hi12 & Ha & Hj12 & Hb & _).
    destruct (IH i2 j2 Hrest Hl Ha Hb) as [IHlive IHgold].
    destruct (ends_bounds a b g i2 j2 Hrest Hl Ha Hb) as (E1 & _ & E2 & _).
    cbn [flat_map ends]. rewrite live_side_app, golden_side_app.
    rewrite Hlive, Hgold, IHlive, IHgold.
    split; apply slice_app; assumption.
Qed.

(** The range written in the header of a hunk is the range its chain of
    opcodes covers. *)
Lemma last_ends (g : list opcode) (d : opcode) (t : tag) (i1 i2 j1 j2 : nat) :
  exists t' i1' j1',
    last (((t, i1, i2, j1, j2) : opcode) :: g) d
    = (t', i1', fst (ends i2 j2 g), j1', snd (ends i2 j2 g)).
Proof.
  revert t i1 i2 j1 j2.
  induction g as [|[[[[t' i1'] i2'] j1'] j2'] g IH]; intros t i1 i2 j1 j2.
  - now exists t, i1, j1.
  - destruct (IH t' i1' i2' j1' j2') as (t2 & i & j & E).
    exists t2, i, j. cbn [ends]. rewrite <- E. reflexivity.
Qed.

Lemma group_range_ends (g : list opcode) (i j : nat) :
  g <> [] -> linked i j g ->
  group_range g = (i, fst (ends i j g), j, snd (ends i j g)).
Proof.
  intros Hne Hl. destruct g as [|[[[[t i1] i2] j1] j2] g]; [now elim Hne|].
  cbn [linked] in Hl. destruct Hl as (-> & -> & Hl).
  destruct (last_ends g (Equal, 0, 0, 0, 0) t i i2 j j2) as (t' & i' & j' & E).
  unfold group_range. rewrite E. reflexivity.
Qed.


(** ** The diff is empty only for equal sequences *)

Lemma ends_app (i j : nat) (l1 l2 : list opcode) :
  ends i j (l1 ++ l2) = ends (fst (ends i j l1)) (snd (ends i j l1)) l2.
Proof.
  revert i j. induction l1 as [|[[[[t i1] i2] j1] j2] l1 IH]; intros i j;
    [reflexivity|]. cbn [app ends]. apply IH.
Qed.

Lemma blocks_end_app (l : list block) (la lb i j : nat) :
  blocks_end (l ++ [(la, lb, 0)]) i j = (la, lb).
Proof.
  revert i j. induction l as [|[[ai bj] size] l IH]; intros i j.
  - cbn. f_equal; lia.
  - cbn [app blocks_end]. apply IH.
Qed.

(** The opcodes end where the matching blocks end. *)
Lemma opcodes_loop_ends (blocks : list block) (i j : nat)
      (answer : list opcode) :
  pairwise before blocks ->
  Forall (before (i, j, 0)) blocks ->
  exists ops,
    opcodes_loop blocks i j answer = answer ++ ops
    /\ ends i j ops = blocks_end blocks i j.
Proof.
  revert i j answer.
  induction blocks as [|[[ai bj] size] rest IH]; intros i j answer Hc Hlo;
    cbn [opcodes_loop blocks_end].
  - exists []. now rewrite app_nil_r.
  - destruct Hc as [Hnext Hc].
    inversion Hlo as [|? ? Hfirst _]; subst. cbn [before] in Hfirst.
    assert (Hlo' : Forall (before (ai + size, bj + size, 0)) rest).
    { eapply Forall_impl; [|exact Hnext]. intros [[x y] z]. cbn [before]. lia. }
    set (gap := if (i <? ai) && (j <? bj) then [(Replace, i, ai, j, bj)]
                else if i <? ai then [(Delete, i, ai, j, bj)]
                else if j <? bj then [(Insert, i, ai, j, bj)]
                else ([] : list opcode)).
    set (same := if size =? 0 then ([] : list opcode)
                 else [(Equal, ai, ai + size, bj, bj + size)]).
    assert (E : (if size =? 0
                 then if (i <? ai) && (j <? bj)
                      then answer ++ [(Replace, i, ai, j, bj)]
                      else if i <? ai then answer ++ [(Delete, i, ai, j, bj)]
                      else if j <? bj then answer ++ [(Insert, i, ai, j, bj)]
                      else answer
                 else (if (i <? ai) && (j <? bj)
                       then answer ++ [(Replace, i, ai, j, bj)]
                       else if i <? ai then answer ++ [(Delete, i, ai, j, bj)]
                       else if j <? bj then answer ++ [(Insert, i, ai, j, bj)]
                       else answer)
                      ++ [(Equal, ai, ai + size, bj, bj + size)])
                = answer ++ gap ++ same).
    { unfold gap, same.
      destruct (size =? 0), ((i <? ai) && (j <? bj)), (i <? ai), (j <? bj);
        rewrite ?app_nil_r, <- ?app_assoc; reflexivity. }
    rewrite E.
    destruct (IH (ai + size) (bj + size) (answer ++ gap ++ same) Hc Hlo')
      as (ops & Eops & Hends).
    exists (gap ++ same ++ ops). split.
    + rewrite Eops. now rewrite <- !app_assoc.
    + rewrite <- Hends. rewrite app_assoc, ends_app. f_equal.
      * unfold gap, same.
        destruct (size =? 0) eqn:Es; [apply Nat.eqb_eq in Es; subst size|];
          destruct (i <? ai) eqn:Ei, (j <? bj) eqn:Ej; cbn [andb app ends fst];
          try reflexivity; try lia;
          apply Nat.ltb_ge in Ei; lia.
      * unfold gap, same.
        destruct (size =? 0) eqn:Es; [apply Nat.eqb_eq in Es; subst size|];
          destruct (i <? ai) eqn:Ei, (j <? bj) eqn:Ej; cbn [andb app ends snd];
          try reflexivity; try lia;
          apply Nat.ltb_ge in Ej; lia.
Qed.

Lemma get_matching_blocks_sentinel (a b : list string) :
  exists pre, get_matching_blocks a b = pre ++ [(length a, length b, 0)].
Proof.
  unfold get_matching_blocks.
  destruct (collapse _ _ _) as [[[i1 j1] k1] non_adjacent].
  eexists. reflexivity.
Qed.

(** The opcodes of two sequences cover both from start to end. *)
Lemma get_opcodes_ends (a b : list string) :
  ends 0 0 (get_opcodes a b) = (length a, length b).
Proof.
  unfold get_opcodes. destruct (get_matching_blocks_chain a b) as [_ Hc].
  destruct (opcodes_loop_ends (get_matching_blocks a b) 0 0 [] Hc)
    as (ops & E & Hends).
  - apply Forall_forall. intros [[i j] k] _. cbn [before]. lia.
  - rewrite E. cbn [app]. rewrite Hends.
    destruct (get_matching_blocks_sentinel a b) as (pre & ->).
    apply blocks_end_app.
Qed.

Lemma trim_first_length (n : nat) (codes : list opcode) :
  length (trim_first n codes) = length codes.
Proof. destruct codes as [|[[[[[] i1] i2] j1] j2] rest]; reflexivity. Qed.

Lemma trim_last_length (n : nat) (codes : list opcode) :
  length (trim_last n codes) = length codes.
Proof.
  induction codes as [|[[[[t i1] i2] j1] j2] rest IH]; [reflexivity|].
  destruct rest as [|c rest]; [destruct t; reflexivity|].
  assert (E : trim_last n (((t, i1, i2, j1, j2) : opcode) :: c :: rest)
              = (t, i1, i2, j1, j2) :: trim_last n (c :: rest))
    by (destruct t; reflexivity).
  rewrite E. cbn [length]. now rewrite IH.
Qed.

(** While the grouping loop yields no group, the group it fills is what
    it has read. *)
Lemma group_loop_no_yield (n : nat) (codes group : list opcode) :
  fst (group_loop n codes group) = [] ->
  snd (group_loop n codes group) = group ++ codes.
Proof.
  revert group. induction codes as [|[[[[t i1] i2] j1] j2] rest IH];
    intros group; cbn [group_loop].
  - intros _. cbn. now rewrite app_nil_r.
  - destruct (is_equal t && (n + n <? i2 - i1)).
    + destruct (group_loop n rest _) as [groups final]. discriminate.
    + intros H. rewrite (IH _ H). now rewrite <- app_assoc.
Qed.

(** No group of opcodes: the opcodes are one [equal] opcode or none. *)
Lemma group_opcodes_nil (n : nat) (codes : list opcode) :
  group_opcodes n codes = [] ->
  codes = [] \/ exists i1 i2 j1 j2, codes = [(Equal, i1, i2, j1, j2)].
Proof.
  destruct codes as [|c [|c' rest]]; [now left|intros H; right|].
  - destruct c as [[[[t i1] i2] j1] j2]. destruct t;
      [exfalso|exfalso|exfalso|now exists i1, i2, j1, j2];
      revert H; unfold group_opcodes;
      cbn [trim_first trim_last group_loop is_equal andb app]; discriminate.
  - intros H. exfalso. revert H. unfold group_opcodes.
    set (codes2 := trim_last n (trim_first n (c :: c' :: rest))).
    assert (Hlen : 2 <= length codes2).
    { unfold codes2. rewrite trim_last_length, trim_first_length. cbn. lia. }
    pose proof (group_loop_no_yield n codes2 []) as Hno.
    destruct (group_loop n codes2 []) as [groups final]. cbn [fst snd] in Hno.
    destruct groups as [|g groups].
    + rewrite (Hno eq_refl) in *. cbn [app].
      destruct codes2 as [|x [|y l]]; cbn in Hlen; try lia.
      destruct x as [[[[[] ?] ?] ?] ?]; discriminate.
    + destruct final as [|[[[[[] ?] ?] ?] ?] [|? ?]]; discriminate.
Qed.

(** The grouped opcodes are empty only for equal sequences. *)
Lemma get_grouped_opcodes_nil (a b : list string) :
  get_grouped_opcodes a b 3 = [] -> a = b.
Proof.
  unfold get_grouped_opcodes. intros H. apply group_opcodes_nil in H.
  pose proof (get_opcodes_ends a b) as He.
  destruct (get_opcodes_spec a b) as [Hok Hl].
  destruct H as [E|(i1 & i2 & j1 & j2 & E)]; rewrite E in *.
  - cbn [ends] in He. injection He as Ha Hb.
    destruct a, b; try discriminate. reflexivity.
  - cbn [ends] in He. injection He as -> ->.
    cbn [linked] in Hl. destruct Hl as (-> & -> & _).
    inversion Hok as [|? ? Hc _]; subst.
    destruct Hc as (_ & _ & _ & _ & Hlen & Hnth).
    rewrite !Nat.sub_0_r in *.
    apply (nth_ext a b "" ""); [exact Hlen|]. intros t Ht. now apply Hnth.
Qed.

Lemma unified_diff_nil_iff (a b : list string) (fromfile tofile : string) :
  unified_diff a b fromfile tofile = [] <-> a = b.
Proof.
  split.
  - unfold unified_diff. intros H.
    destruct (get_grouped_opcodes a b 3) eqn:E; [|discriminate].
    now apply get_grouped_opcodes_nil.
  - intros ->. apply unified_diff_self.
Qed.
(** *** Shared stretches *)

Lemma same_stretch_refl (a b : list string) (i j : nat) :
  i <= length a -> j <= length b -> same_stretch a b i j i j.
Proof.
  intros Hi Hj. unfold same_stretch. rewrite !slice_empty. auto.
Qed.

Lemma same_stretch_trans (a b : list string) (i j s t s' t' : nat) :
  same_stretch a b i j s t -> same_stretch a b s t s' t' ->
  same_stretch a b i j s' t'.
Proof.
  intros (H1 & H2 & H3 & H4 & E) (K1 & K2 & K3 & K4 & E').
  unfold same_stretch. repeat split; try lia.
  rewrite <- (slice_app a i s s'), <- (slice_app b j t t') by assumption.
  now rewrite E, E'.
Qed.

(** A part of what an [equal] opcode pairs is a shared stretch. *)
Lemma same_stretch_equal (a b : list string) (i1 i2 j1 j2 x y : nat) :
  op_ok a b (Equal, i1, i2, j1, j2) ->
  i1 <= x -> x <= y -> y <= i2 ->
  same_stretch a b x (j1 + (x - i1)) y (j1 + (y - i1)).
Proof.
  intros Hop Hx Hxy Hy.
  pose proof (op_ok_equal_sub a b i1 i2 j1 j2 x y _ _ Hop Hx Hxy Hy
                              eq_refl eq_refl) as H.
  destruct H as (H1 & H2 & H3 & H4 & H5 & H6).
  unfold same_stretch. repeat split; try assumption.
  now apply slice_ext.
Qed.

Lemma covers_start (a b : list string) (groups : list (list opcode))
      (i0 j0 i j i' j' : nat) :
  same_stretch a b i0 j0 i j -> covers a b i j groups i' j' ->
  covers a b i0 j0 groups i' j'.
Proof.
  intros H0 H. destruct groups as [|g rest]; cbn [covers] in *.
  - now apply (same_stretch_trans a b i0 j0 i j).
  - destruct H as (s & t & Hs & Hrest). exists s, t.
    split; [now apply (same_stretch_trans a b i0 j0 i j)|exact Hrest].
Qed.

Lemma covers_end (a b : list string) (groups : list (list opcode))
      (i j i' j' i'' j'' : nat) :
  covers a b i j groups i' j' -> same_stretch a b i' j' i'' j'' ->
  covers a b i j groups i'' j''.
Proof.
  revert i j. induction groups as [|g rest IH]; intros i j H H'; cbn [covers] in *.
  - now apply (same_stretch_trans a b i j i' j').
  - destruct H as (s & t & Hs & Hok & Hl & Hrest). exists s, t.
    refine (conj Hs (conj Hok (conj Hl _))). now apply IH.
Qed.

(** A last group that is empty, or one [equal] opcode, can be left out:
    what it covers is shared. *)
Lemma covers_drop_last (a b : list string) (groups : list (list opcode))
      (g : list opcode) (i j i' j' : nat) :
  g = [] \/ (exists i1 i2 j1 j2, g = [(Equal, i1, i2, j1, j2)]) ->
  covers a b i j (groups ++ [g]) i' j' -> covers a b i j groups i' j'.
Proof.
  intros Hg. revert i j. induction groups as [|g' rest IH]; intros i j H;
    cbn [app covers] in *.
  - destruct H as (s & t & Hs & Hok & Hl & Hend).
    destruct Hg as [->|(i1 & i2 & j1 & j2 & ->)]; cbn [ends fst snd] in Hend.
    + now apply (same_stretch_trans a b i j s t).
    + cbn [linked] in Hl. destruct Hl as (-> & -> & _).
      inversion Hok as [|? ? Hop _]; subst.
      pose proof Hop as (B1 & B2 & B3 & B4 & B5 & B6).
      pose proof (same_stretch_equal a b s i2 t j2 s i2 Hop
                    (Nat.le_refl s) B1 (Nat.le_refl i2)) as Heq.
      replace (t + (s - s)) with t in Heq by lia.
      replace (t + (i2 - s)) with j2 in Heq by lia.
      apply (same_stretch_trans a b i j s t); [assumption|].
      now apply (same_stretch_trans a b s t i2 j2).
  - destruct H as (s & t & Hs & Hok & Hl & Hrest). exists s, t.
    refine (conj Hs (conj Hok (conj Hl _))). now apply IH.
Qed.

(** *** The groups cover both sequences *)

(** What the grouping loop hands out, with the group it leaves behind:
    the first of these groups starts where the group being filled
    started, and together they cover the sequences up to the end of the
    opcodes. *)
Lemma group_loop_covers (a b : list string) (n : nat) (codes group : list opcode)
      (gi gj i j : nat) :
  Forall (op_ok a b) group -> linked gi gj group -> ends gi gj group = (i, j) ->
  Forall (op_ok a b) codes -> linked i j codes ->
  i <= length a -> j <= length b ->
  exists g0 more,
    fst (group_loop n codes group) ++ [snd (group_loop n codes group)]
    = g0 :: more
    /\ Forall (op_ok a b) g0 /\ linked gi gj g0
    /\ covers a b (fst (ends gi gj g0)) (snd (ends gi gj g0)) more
              (fst (ends i j codes)) (snd (ends i j codes)).
Proof.
  revert group gi gj i j.
  induction codes as [|[[[[t i1] i2] j1] j2] rest IH];
    intros group gi gj i j Hg Hgl Hge Hc Hcl Hi Hj; cbn [group_loop].
  - exists group, []. cbn [fst snd app ends covers]. rewrite Hge.
    cbn [fst snd]. split; [reflexivity|]. split; [assumption|].
    split; [assumption|]. now apply same_stretch_refl.
  - inversion Hc as [|? ? Hop Hrest]; subst.
    cbn [linked] in Hcl. destruct Hcl as (-> & -> & Hcl).
    pose proof Hop as (B1 & B2 & B3 & B4 & B5).
    cbn [ends].
    destruct (is_equal t && (n + n <? i2 - i)) eqn:E.
    + apply andb_true_iff in E. destruct E as [Et Elong].
      apply Nat.ltb_lt in Elong. destruct t; try discriminate Et.
      destruct B5 as [Blen Bnth].
      destruct (IH [(Equal, Nat.max i (i2 - n), i2, Nat.max j (j2 - n), j2)]
                   (Nat.max i (i2 - n)) (Nat.max j (j2 - n)) i2 j2)
        as (g0 & more & E0 & Hok0 & Hl0 & Hcov); try assumption.
      * constructor; [|constructor]. now apply (op_ok_back a b n Equal).
      * cbn [linked]. auto.
      * reflexivity.
      * destruct (group_loop n rest
                    [(Equal, Nat.max i (i2 - n), i2, Nat.max j (j2 - n), j2)])
          as [groups final].
        cbn [fst snd] in *.
        exists (group ++ [(Equal, i, Nat.min i2 (i + n), j, Nat.min j2 (j + n))]),
          (g0 :: more).
        split; [cbn [app]; now rewrite E0|]. split; [|split].
        -- apply Forall_app. split; [assumption|].
           constructor; [|constructor]. now apply (op_ok_front a b n Equal).
        -- apply linked_app. split; [assumption|]. rewrite Hge.
           cbn [fst snd linked]. auto.
        -- rewrite ends_app, Hge. cbn [fst snd ends covers].
           exists (Nat.max i (i2 - n)), (Nat.max j (j2 - n)).
           split; [|exact (conj Hok0 (conj Hl0 Hcov))].
           pose proof (same_stretch_equal a b i i2 j j2 (i + n) (i2 - n) Hop)
             as Heq.
           replace (Nat.min i2 (i + n)) with (i + n) by lia.
           replace (Nat.min j2 (j + n)) with (j + (i + n - i)) by lia.
           replace (Nat.max i (i2 - n)) with (i2 - n) by lia.
           replace (Nat.max j (j2 - n)) with (j + (i2 - n - i)) by lia.
           apply Heq; lia.
    + apply (IH (group ++ [(t, i, i2, j, j2)]) gi gj i2 j2); try assumption.
      * apply Forall_app. split; [assumption|]. constructor; [assumption|constructor].
      * apply linked_app. split; [assumption|]. rewrite Hge.
        cbn [fst snd linked]. auto.
      * rewrite ends_app, Hge. reflexivity.
Qed.

(** Trimming the first opcode leaves a shared stretch before it. *)
Lemma trim_first_covers (a b : list string) (n : nat) (codes : list opcode) :
  Forall (op_ok a b) codes -> linked 0 0 codes ->
  exists i0 j0,
    same_stretch a b 0 0 i0 j0
    /\ Forall (op_ok a b) (trim_first n codes)
    /\ linked i0 j0 (trim_first n codes)
    /\ ends i0 j0 (trim_first n codes) = ends 0 0 codes.
Proof.
  intros Hok Hl. destruct codes as [|[[[[t i1] i2] j1] j2] rest].
  - exists 0, 0. cbn [trim_first ends linked].
    split; [apply same_stretch_refl; lia|]. split; [constructor|]. now split.
  - inversion Hok as [|? ? Hop Hrest]; subst.
    cbn [linked] in Hl. destruct Hl as (-> & -> & Hl).
    destruct t; cbn [trim_first];
      try (exists 0, 0; cbn [linked ends];
           split; [apply same_stretch_refl; lia|];
           split; [assumption|]; split; [auto|reflexivity]).
    pose proof Hop as (B1 & B2 & B3 & B4 & Blen & Bnth).
    exists (Nat.max 0 (i2 - n)), (Nat.max 0 (j2 - n)).
    split; [|split; [|split]].
    + pose proof (same_stretch_equal a b 0 i2 0 j2 0 (i2 - n) Hop) as Heq.
      replace (Nat.max 0 (i2 - n)) with (i2 - n) by lia.
      replace (Nat.max 0 (j2 - n)) with (0 + (i2 - n - 0)) by lia.
      replace 0 with (0 + (0 - 0)) at 2 by lia. apply Heq; lia.
    + constructor; [|assumption]. now apply (op_ok_back a b n Equal).
    + cbn [linked]. auto.
    + reflexivity.
Qed.

(** Trimming the last opcode leaves a shared stretch after it. *)
Lemma trim_last_covers (a b : list string) (n i j : nat) (codes : list opcode) :
  Forall (op_ok a b) codes -> linked i j codes ->
  i <= length a -> j <= length b ->
  same_stretch a b (fst (ends i j (trim_last n codes)))
               (snd (ends i j (trim_last n codes)))
               (fst (ends i j codes)) (snd (ends i j codes)).
Proof.
  revert i j. induction codes as [|[[[[t i1] i2] j1] j2] rest IH];
    intros i j Hok Hl Hi Hj.
  - cbn [trim_last ends fst snd]. now apply same_stretch_refl.
  - inversion Hok as [|? ? Hop Hrest]; subst.
    cbn [linked] in Hl. destruct Hl as (-> & -> & Hl).
    pose proof Hop as (B1 & B2 & B3 & B4 & B5).
    destruct rest as [|c rest].
    + destruct t; cbn [trim_last ends fst snd];
        try (apply same_stretch_refl; lia).
      destruct B5 as [Blen Bnth].
      pose proof (same_stretch_equal a b i i2 j j2 (Nat.min i2 (i + n)) i2 Hop)
        as Heq.
      replace (Nat.min j2 (j + n)) with (j + (Nat.min i2 (i + n) - i)) by lia.
      replace (j + (i2 - i)) with j2 in Heq by lia. apply Heq; lia.
    + assert (E : trim_last n (((t, i, i2, j, j2) : opcode) :: c :: rest)
                  = (t, i, i2, j, j2) :: trim_last n (c :: rest))
        by (destruct t; reflexivity).
      rewrite E. cbn [ends]. now apply IH.
Qed.

Lemma group_opcodes_covers (a b : list string) (n : nat) (codes : list opcode) :
  codes <> [] ->
  Forall (op_ok a b) codes -> linked 0 0 codes ->
  ends 0 0 codes = (length a, length b) ->
  covers a b 0 0 (group_opcodes n codes) (length a) (length b).
Proof.
  intros Hne Hok Hl Hends. unfold group_opcodes.
  destruct codes as [|c codes]; [contradiction|].
  destruct (trim_first_covers a b n (c :: codes) Hok Hl)
    as (i0 & j0 & Hs0 & Hok1 & Hl1 & He1).
  pose proof Hs0 as (_ & Hi0 & _ & Hj0 & _).
  destruct (trim_last_spec a b n i0 j0 _ Hok1 Hl1) as [Hok2 Hl2].
  pose proof (trim_last_covers a b n i0 j0 _ Hok1 Hl1 Hi0 Hj0) as Hs2.
  rewrite He1, Hends in Hs2. cbn [fst snd] in Hs2.
  destruct (group_loop_covers a b n (trim_last n (trim_first n (c :: codes)))
                              [] i0 j0 i0 j0)
    as (g0 & more & E0 & Hg0 & Hgl & Hcov); try assumption;
    try constructor.
  assert (Hall : covers a b 0 0
                   (fst (group_loop n (trim_last n (trim_first n (c :: codes))) [])
                    ++ [snd (group_loop n (trim_last n (trim_first n (c :: codes))) [])])
                   (length a) (length b)).
  { rewrite E0. apply (covers_start a b _ 0 0 i0 j0); [assumption|].
    refine (covers_end a b _ i0 j0 _ _ (length a) (length b) _ Hs2).
    cbn [covers]. exists i0, j0.
    split; [now apply same_stretch_refl|]. exact (conj Hg0 (conj Hgl Hcov)). }
  destruct (group_loop n (trim_last n (trim_first n (c :: codes))) [])
    as [groups final].
  cbn [fst snd] in Hall.
  destruct final as [|[[[[t fi1] fi2] fj1] fj2] frest].
  - apply (covers_drop_last a b groups [] 0 0); [now left|exact Hall].
  - destruct t, frest; try exact Hall.
    apply (covers_drop_last a b groups [(Equal, fi1, fi2, fj1, fj2)] 0 0);
      [right; now exists fi1, fi2, fj1, fj2|exact Hall].
Qed.

Lemma get_grouped_opcodes_covers (a b : list string) :
  covers a b 0 0 (get_grouped_opcodes a b 3) (length a) (length b).
Proof.
  unfold get_grouped_opcodes. destruct (get_opcodes_spec a b) as [Hok Hl].
  pose proof (get_opcodes_ends a b) as He.
  destruct (get_opcodes a b) as [|c codes] eqn:E.
  - cbn [ends] in He. injection He as Ha Hb.
    destruct a, b; try discriminate. cbn. repeat split; lia.
  - apply group_opcodes_covers; [discriminate|assumption|assumption|assumption].
Qed.

(** *** From the groups to the hunks *)

Lemma covers_hunks (a b : list string) (groups : list (list opcode)) (i j : nat) :
  Forall (fun g => g <> []) groups ->
  covers a b i j groups (length a) (length b) ->
  hunks_from a b i j
    (map (fun g => (group_range g, group_body a b g)) groups).
Proof.
  intros Hne. revert i j. induction Hne as [|g rest Hg _ IH]; intros i j H;
    cbn [covers map hunks_from] in *; [exact H|].
  destruct H as (s & t & Hs & Hok & Hl & Hrest).
  pose proof Hs as (_ & Hsa & _ & Htb & _).
  rewrite (group_range_ends g s t Hg Hl).
  destruct (ends_bounds a b g s t Hok Hl Hsa Htb) as (E1 & E2 & E3 & E4).
  destruct (group_body_sides a b g s t Hok Hl Hsa Htb) as [Hlive Hgold].
  split; [exact Hs|]. split; [exact E1|]. split; [exact E3|].
  split; [exact Hlive|]. split; [exact Hgold|]. now apply IH.
Qed.

Lemma slice_to_end {A : Type} (l : list A) (i : nat) :
  slice l i (length l) = skipn i l.
Proof.
  unfold slice. apply firstn_all2. rewrite length_skipn. lia.
Qed.

Lemma slice_then_rest {A : Type} (l : list A) (i k : nat) :
  i <= k -> slice l i k ++ skipn k l = skipn i l.
Proof.
  intros H. unfold slice.
  replace (skipn k l) with (skipn (k - i) (skipn i l))
    by (rewrite skipn_skipn; f_equal; lia).
  apply firstn_skipn.
Qed.

(** Hunks that account for both sequences turn the one into the
    other. *)
Lemma hunks_patch (a b : list string) (hunks : list hunk) (i j : nat) :
  hunks_from a b i j hunks ->
  patch a i hunks = skipn j b /\ unpatch b j hunks = skipn i a.
Proof.
  revert i j. induction hunks as [|[[[[i1 i2] j1] j2] body] rest IH];
    intros i j H; cbn [hunks_from patch unpatch] in *.
  - destruct H as (_ & _ & _ & _ & E). rewrite !slice_to_end in E.
    now rewrite E.
  - destruct H as ((H1 & H2 & H3 & H4 & E) & Hi & Hj & Hlive & Hgold & Hrest).
    destruct (IH i2 j2 Hrest) as [IH1 IH2]. rewrite IH1, IH2, Hlive, Hgold.
    split.
    + rewrite E, app_assoc, slice_app, slice_then_rest by lia. reflexivity.
    + rewrite <- E, app_assoc, slice_app, slice_then_rest by lia. reflexivity.
Qed.

Lemma get_grouped_opcodes_nonempty (a b : list string) :
  Forall (fun g => g <> []) (get_grouped_opcodes a b 3).
Proof.
  apply Forall_forall. intros g Hin.
  now destruct (get_grouped_opcodes_spec a b g Hin).
Qed.

Lemma diff_hunks_from (a b : list string) : hunks_from a b 0 0 (diff_hunks a b).
Proof.
  unfold diff_hunks. apply covers_hunks.
  - apply get_grouped_opcodes_nonempty.
  - apply get_grouped_opcodes_covers.
Qed.

(** The text of the diff, hunk by hunk. *)
Lemma unified_diff_hunks (a b : list string) (fromfile tofile : string) :
  unified_diff a b fromfile tofile
  = match diff_hunks a b with
    | [] => []
    | hunks =>
        ("--- " ++ fromfile)%string :: ("+++ " ++ tofile)%string
        :: flat_map (fun h => range_header (fst h) :: snd h) hunks
    end.
Proof.
  assert (E : forall l : list (list opcode),
             flat_map (hunk_lines a b) l
             = flat_map (fun h : hunk => range_header (fst h) :: snd h)
                        (map (fun g => (group_range g, group_body a b g)) l)).
  { induction l as [|x l IH]; [reflexivity|]. cbn [map flat_map fst snd].
    rewrite IH. unfold hunk_lines, hunk_header, range_header.
    now destruct (group_range x) as [[[i1 i2] j1] j2]. }
  unfold unified_diff, diff_hunks.
  destruct (get_grouped_opcodes a b 3) as [|g groups]; [reflexivity|].
  rewrite E. reflexivity.
Qed.

(** *** C1 *)

(** C1 (amended): the unified diff of [golden] and [live] is a patch.
    It has no line exactly when the two sequences are equal. Otherwise it
    is the two file header lines followed by the hunks, each a header
    line that spells its four numbers and then its tagged lines. The
    hunks account for both configurations from their first lines to
    their ends ([hunks_from]): they come in order; the lines of a hunk
    that are not tagged removed are, in order, the live lines that its
    header names, and those not tagged added the golden lines that it
    names; and the lines that the diff leaves out, before the first hunk,
    between two hunks and after the last, are the same in the golden and
    in the live configuration. So the golden configuration with every
    range that a hunk names replaced by the lines of that hunk not
    tagged removed is the live configuration, and the live configuration
    with every such range replaced by the lines not tagged added is the
    golden one. *)
Theorem C1_diff_patches_golden_into_live (golden live : list string)
        (fromfile tofile : string) :
  (unified_diff golden live fromfile tofile = [] <-> golden = live)
  /\ unified_diff golden live fromfile tofile
     = match diff_hunks golden live with
       | [] => []
       | hunks =>
           ("--- " ++ fromfile)%string :: ("+++ " ++ tofile)%string
           :: flat_map (fun h => range_header (fst h) :: snd h) hunks
       end
  /\ hunks_from golden live 0 0 (diff_hunks golden live)
  /\ patch golden 0 (diff_hunks golden live) = live
  /\ unpatch live 0 (diff_hunks golden live) = golden.
Proof.
  split; [apply unified_diff_nil_iff|].
  split; [apply unified_diff_hunks|].
  pose proof (diff_hunks_from golden live) as H.
  split; [exact H|]. apply hunks_patch in H. exact H.
Qed.

(** C1 (amended) at the two configurations of eight lines that differ in
    the last one: the one hunk of the diff names lines 5 to 8 of either
    side, and patching the golden configuration with it gives the live
    one. *)
Lemma C1_witness :
  map fst (diff_hunks Demo.golden_eight Demo.live_eight) = [(4, 8, 4, 8)]
  /\ patch Demo.golden_eight 0 (diff_hunks Demo.golden_eight Demo.live_eight)
     = Demo.live_eight
  /\ unpatch Demo.live_eight 0 (diff_hunks Demo.golden_eight Demo.live_eight)
     = Demo.golden_eight.
Proof.
  split; [vm_compute; reflexivity|].
  exact (proj2 (proj2 (proj2 (C1_diff_patches_golden_into_live
                                Demo.golden_eight Demo.live_eight
                                "Golden Config" "Current Config")))).
Defined.

(** C1 as stated fails: the diff of two configurations of eight lines that
    differ in the last one has one hunk, with three lines of context; the
    first four lines of either configuration are not in it, so neither
    side of the diff is the whole configuration. *)
Lemma C1_counterexample :
  let diff := unified_diff Demo.golden_eight Demo.live_eight
                "Golden Config" "Current Config" in
  diff_live_side diff <> Demo.live_eight
  /\ diff_golden_side diff <> Demo.golden_eight
  /\ live_side diff <> Demo.live_eight
  /\ golden_side diff <> Demo.golden_eight.
Proof. vm_compute. repeat split; discriminate. Qed.

(** * Further properties of the script *)

(** ** Text primitives *)

Lemma all_chars_of_list (p : ascii -> bool) (l : list ascii) :
  all_chars p (string_of_list_ascii l) = forallb p l.
Proof. induction l as [|c l IH]; [reflexivity|]. cbn. now rewrite IH. Qed.

(** A run of characters read backwards holds the same characters. *)
Lemma chars_rev (p : ascii -> bool) (cur : list ascii) :
  forallb p (rev cur) = forallb p cur.
Proof.
  induction cur as [|c cur IH]; [reflexivity|]. cbn [rev forallb].
  rewrite forallb_app, IH. cbn [forallb]. destruct (forallb p cur), (p c);
    reflexivity.
Qed.

Lemma all_chars_rev_string (p : ascii -> bool) (cur : list ascii) :
  all_chars p (PyStr.rev_string cur) = forallb p cur.
Proof. unfold PyStr.rev_string. now rewrite all_chars_of_list, chars_rev. Qed.

Lemma all_chars_app (p : ascii -> bool) (s t : string) :
  all_chars p (s ++ t) = all_chars p s && all_chars p t.
Proof.
  induction s as [|c s IH]; [reflexivity|]. cbn. now rewrite IH, andb_assoc.
Qed.

Lemma all_chars_lstrip (p : ascii -> bool) (s : string) :
  all_chars p s = true -> all_chars p (PyStr.lstrip s) = true.
Proof.
  induction s as [|c s IH]; [reflexivity|]. intros H. cbn [PyStr.lstrip].
  destruct (PyStr.is_space c); [|exact H].
  apply IH. cbn in H. now apply andb_true_iff in H.
Qed.

Lemma all_chars_rstrip (p : ascii -> bool) (s : string) :
  all_chars p s = true -> all_chars p (PyStr.rstrip s) = true.
Proof.
  induction s as [|c s IH]; [reflexivity|]. intros H. cbn in H.
  apply andb_true_iff in H. destruct H as [Hc Hs]. specialize (IH Hs).
  cbn [PyStr.rstrip]. destruct (PyStr.rstrip s) as [|c' r].
  - destruct (PyStr.is_space c); [reflexivity|]. cbn. now rewrite Hc.
  - cbn [all_chars]. now rewrite Hc.
Qed.

Lemma all_chars_strip (p : ascii -> bool) (s : string) :
  all_chars p s = true -> all_chars p (PyStr.strip s) = true.
Proof.
  intros H. unfold PyStr.strip. now apply all_chars_rstrip, all_chars_lstrip.
Qed.

(** What is left of a text stripped on the left starts with a character
    that is no whitespace. *)
Lemma lstrip_head (s : string) :
  PyStr.lstrip s = ""
  \/ exists c r, PyStr.lstrip s = String c r /\ PyStr.is_space c = false.
Proof.
  induction s as [|c s IH]; [now left|]. cbn [PyStr.lstrip].
  destruct (PyStr.is_space c) eqn:E; [exact IH|]. right. now exists c, s.
Qed.

Lemma lstrip_nonspace (c : ascii) (r : string) :
  PyStr.is_space c = false -> PyStr.lstrip (String c r) = String c r.
Proof. intros H. cbn [PyStr.lstrip]. now rewrite H. Qed.

Lemma rstrip_nonspace (c : ascii) (r : string) :
  PyStr.is_space c = false ->
  PyStr.rstrip (String c r) = String c (PyStr.rstrip r).
Proof.
  intros H. cbn [PyStr.rstrip]. destruct (PyStr.rstrip r); [|reflexivity].
  now rewrite H.
Qed.

Lemma rstrip_idempotent (s : string) :
  PyStr.rstrip (PyStr.rstrip s) = PyStr.rstrip s.
Proof.
  induction s as [|c s IH]; [reflexivity|]. cbn [PyStr.rstrip].
  destruct (PyStr.rstrip s) as [|c' r] eqn:E.
  - destruct (PyStr.is_space c) eqn:Ec; [reflexivity|].
    cbn [PyStr.rstrip]. now rewrite Ec.
  - cbn [PyStr.rstrip] in *. now rewrite IH.
Qed.

(** The shape of a stripped text: empty, or from a first character that
    is no whitespace on. *)
Lemma strip_shape (s : string) :
  PyStr.strip s = ""
  \/ exists c r, PyStr.strip s = String c (PyStr.rstrip r)
                 /\ PyStr.is_space c = false.
Proof.
  unfold PyStr.strip. destruct (lstrip_head s) as [E|(c & r & E & Hc)];
    rewrite E; [now left|].
  right. exists c, r. now rewrite rstrip_nonspace.
Qed.

Lemma strip_idempotent (s : string) :
  PyStr.strip (PyStr.strip s) = PyStr.strip s.
Proof.
  destruct (strip_shape s) as [E|(c & r & E & Hc)]; rewrite E; [reflexivity|].
  unfold PyStr.strip. rewrite lstrip_nonspace by assumption.
  rewrite rstrip_nonspace by assumption. now rewrite rstrip_idempotent.
Qed.

(** A text without whitespace at either end is left as it is. *)
Lemma strip_fixed_space_front (c : ascii) (s : string) :
  PyStr.is_space c = true -> PyStr.strip (String c s) = PyStr.strip s.
Proof. intros H. unfold PyStr.strip. cbn [PyStr.lstrip]. now rewrite H. Qed.

(** ** [normalize_config] *)

Lemma string_app_nil_r (s : string) : (s ++ "")%string = s.
Proof. induction s as [|c s IH]; [reflexivity|]. cbn. now rewrite IH. Qed.

Lemma string_app_assoc (s t u : string) :
  ((s ++ t) ++ u)%string = (s ++ t ++ u)%string.
Proof. induction s as [|c s IH]; [reflexivity|]. cbn. now rewrite IH. Qed.

Lemma string_of_list_app (l1 l2 : list ascii) :
  string_of_list_ascii (l1 ++ l2)
  = (string_of_list_ascii l1 ++ string_of_list_ascii l2)%string.
Proof. induction l1 as [|c l IH]; [reflexivity|]. cbn. now rewrite IH. Qed.

Lemma rev_string_cons (c : ascii) (cur : list ascii) :
  PyStr.rev_string (c :: cur) = (PyStr.rev_string cur ++ String c "")%string.
Proof. unfold PyStr.rev_string. cbn [rev]. now rewrite string_of_list_app. Qed.

Lemma rev_string_rev (s : string) (cur : list ascii) :
  PyStr.rev_string (rev (list_ascii_of_string s) ++ cur)
  = (PyStr.rev_string cur ++ s)%string.
Proof.
  revert cur. induction s as [|c s IH]; intros cur.
  - cbn. now rewrite string_app_nil_r.
  - cbn [list_ascii_of_string rev]. rewrite <- app_assoc. cbn [app].
    rewrite IH, rev_string_cons, string_app_assoc. reflexivity.
Qed.

(** The lines that [splitlines] gives hold no line boundary. *)
Lemma splitlines_go_no_linebreak (after_cr : bool) (cur : list ascii)
      (s line : string) :
  forallb (fun c => negb (PyStr.is_linebreak c)) cur = true ->
  In line (PyStr.splitlines_go after_cr cur s) -> no_linebreak line = true.
Proof.
  revert after_cr cur. induction s as [|c s IH]; intros after_cr cur Hcur Hin.
  - cbn [PyStr.splitlines_go] in Hin. destruct cur as [|x cur]; [destruct Hin|].
    destruct Hin as [<-|[]]. unfold no_linebreak.
    now rewrite all_chars_rev_string.
  - cbn [PyStr.splitlines_go] in Hin.
    destruct (after_cr && PyStr.is_lf c); [now apply (IH false cur)|].
    destruct (PyStr.is_linebreak c) eqn:E.
    + destruct Hin as [<-|Hin].
      * unfold no_linebreak. now rewrite all_chars_rev_string.
      * now apply (IH (PyStr.is_cr c) []).
    + apply (IH false (c :: cur)); [|assumption]. cbn [forallb].
      now rewrite E, Hcur.
Qed.

Lemma splitlines_no_linebreak (s line : string) :
  In line (PyStr.splitlines s) -> no_linebreak line = true.
Proof. now apply splitlines_go_no_linebreak. Qed.

(** The lines of [normalize_config] are the stripped lines of the text
    that are not empty. *)
Lemma normalize_config_In (config line : string) :
  In line (normalize_config config)
  <-> line <> ""
      /\ exists raw, In raw (PyStr.splitlines config) /\ PyStr.strip raw = line.
Proof.
  unfold normalize_config. rewrite in_flat_map. split.
  - intros (raw & Hraw & Hin). destruct (PyStr.strip raw) as [|c r] eqn:E;
      [destruct Hin|]. destruct Hin as [<-|[]]. split; [discriminate|].
    now exists raw.
  - intros (Hne & raw & Hraw & E). exists raw. split; [assumption|].
    rewrite E. destruct line; [now elim Hne|now left].
Qed.

(** A text without line boundary is read as one piece. *)
Lemma splitlines_go_piece (cur : list ascii) (x rest : string) :
  no_linebreak x = true ->
  PyStr.splitlines_go false cur (x ++ rest)
  = PyStr.splitlines_go false (rev (list_ascii_of_string x) ++ cur) rest.
Proof.
  revert cur. induction x as [|c x IH]; intros cur H; [reflexivity|].
  unfold no_linebreak in H. cbn [all_chars] in H.
  apply andb_true_iff in H. destruct H as [Hc Hx].
  apply negb_true_iff in Hc.
  cbn [append PyStr.splitlines_go andb]. rewrite Hc.
  rewrite (IH (c :: cur) Hx). cbn [list_ascii_of_string rev].
  now rewrite <- app_assoc.
Qed.

(** Lines without line boundary, none of them empty, joined by line feeds
    and split again are the same lines. *)
Lemma splitlines_join (lines : list string) :
  Forall (fun l => l <> "" /\ no_linebreak l = true) lines ->
  PyStr.splitlines (PyStr.join newline lines) = lines.
Proof.
  unfold PyStr.splitlines. induction lines as [|x rest IH]; intros H;
    [reflexivity|].
  inversion H as [|? ? [Hne Hx] Hrest]; subst.
  assert (Hlast : PyStr.splitlines_go false [] x = [x]).
  { rewrite <- (string_app_nil_r x) at 1. rewrite splitlines_go_piece by assumption.
    cbn [PyStr.splitlines_go]. rewrite app_nil_r.
    destruct (rev (list_ascii_of_string x)) as [|c l] eqn:E.
    - destruct x; [now elim Hne|]. cbn [list_ascii_of_string rev] in E.
      now destruct (rev (list_ascii_of_string x)).
    - rewrite <- E. rewrite <- (app_nil_r (rev _)). now rewrite rev_string_rev. }
  destruct rest as [|y rest]; [exact Hlast|].
  change (PyStr.join newline (x :: y :: rest))
    with (x ++ newline ++ PyStr.join newline (y :: rest))%string.
  rewrite splitlines_go_piece by assumption.
  unfold newline. cbn [append PyStr.splitlines_go andb].
  change (PyStr.is_linebreak "010") with true.
  change (PyStr.is_cr "010") with false. cbv iota.
  fold newline. rewrite (IH Hrest). f_equal. now rewrite rev_string_rev.
Qed.

Lemma normalize_config_clean (config : string) :
  Forall (fun l => l <> "" /\ PyStr.strip l = l /\ no_linebreak l = true)
         (normalize_config config).
Proof.
  apply Forall_forall. intros line H.
  apply (proj1 (normalize_config_In config line)) in H.
  destruct H as (Hne & raw & Hraw & <-). split; [assumption|]. split.
  - apply strip_idempotent.
  - apply all_chars_strip. now apply (splitlines_no_linebreak config).
Qed.

(** X1: every line of a normalised configuration is non-empty, carries
    no whitespace at either end (stripping it again changes nothing) and
    holds no line boundary. *)
Theorem normalize_config_lines_are_clean (config line : string) :
  In line (normalize_config config) ->
  line <> "" /\ PyStr.strip line = line /\ no_linebreak line = true.
Proof.
  intros H. pose proof (normalize_config_clean config) as F.
  rewrite Forall_forall in F. exact (F line H).
Qed.

(** Clean lines joined by line feeds normalise to themselves. *)
Lemma normalize_config_join (lines : list string) :
  Forall (fun l => l <> "" /\ PyStr.strip l = l /\ no_linebreak l = true) lines ->
  normalize_config (PyStr.join newline lines) = lines.
Proof.
  intros H. unfold normalize_config. rewrite splitlines_join.
  - induction H as [|x rest (Hne & Hs & _) _ IH]; [reflexivity|].
    cbn [flat_map]. rewrite Hs, IH. destruct x; [now elim Hne|reflexivity].
  - eapply Forall_impl; [|exact H]. intros l (? & _ & ?). now split.
Qed.

(** X2: normalising is idempotent through the text form: the lines of a
    normalised configuration, joined by line feeds and normalised again,
    are the same lines. *)
Theorem normalize_config_idempotent (config : string) :
  normalize_config (PyStr.join newline (normalize_config config))
  = normalize_config config.
Proof. apply normalize_config_join, normalize_config_clean. Qed.

(** ** [parse_contextual_commands] *)

(** Two texts that start with different characters. *)
Lemma startswith_other (line : string) (c d : ascii) :
  c <> d ->
  PyStr.startswith line (String c "") = true ->
  PyStr.startswith line (String d "") = false.
Proof.
  unfold PyStr.startswith. intros Hcd H. destruct line as [|x line];
    [discriminate|]. cbn [String.prefix] in *.
  destruct (ascii_dec c x) as [->|]; [|discriminate].
  destruct (ascii_dec d x) as [->|]; [now elim Hcd|reflexivity].
Qed.

(** A text that starts with "+++" starts with "+". *)
Lemma startswith_plus3 (line : string) :
  PyStr.startswith line "+++" = true -> PyStr.startswith line "+" = true.
Proof.
  unfold PyStr.startswith. destruct line as [|x line]; [discriminate|].
  cbn [String.prefix]. destruct (ascii_dec "+" x); [|discriminate].
  intros _. now destruct line.
Qed.

Lemma pcc_step_ignored (st : option string * list contextual_command)
      (line : string) :
  is_ignored line = true -> pcc_step st line = st.
Proof.
  unfold is_ignored. intros H. destruct st as [ctx acc].
  assert (E : is_added line = false /\ is_context_candidate line = false).
  { unfold is_added, is_context_candidate.
    destruct (PyStr.startswith line "-") eqn:Em.
    - rewrite (startswith_other line "-" "+") by (discriminate || assumption).
      now split.
    - destruct (PyStr.startswith line "@") eqn:Ea.
      + rewrite (startswith_other line "@" "+") by (discriminate || assumption).
        now split.
      + cbn [orb] in H. rewrite H, (startswith_plus3 line H). now split. }
  destruct E as [E1 E2]. unfold pcc_step. now rewrite E1, E2.
Qed.

(** X3: removed lines, hunk headers and lines that start with "+++" have
    no part in the result: leaving them out of the diff gives the same
    commands. *)
Theorem parse_contextual_commands_ignores (diff : list string) :
  parse_contextual_commands (filter (fun l => negb (is_ignored l)) diff)
  = parse_contextual_commands diff.
Proof.
  unfold parse_contextual_commands. f_equal.
  generalize (@None string, @nil contextual_command).
  induction diff as [|x l IH]; intros st; [reflexivity|].
  cbn [filter fold_left]. destruct (is_ignored x) eqn:E; cbn [negb].
  - rewrite (pcc_step_ignored st x E). apply IH.
  - cbn [fold_left]. apply IH.
Qed.

(** What one line adds to the commands. *)
Lemma pcc_step_out (ctx c : option string) (line cmd : string) :
  In (c, cmd) (snd (pcc_step (ctx, []) line)) ->
  is_added line = true
  /\ cmd = ("no " ++ PyStr.strip (drop_first line))%string
  /\ PyStr.strip (drop_first line) <> ""
  /\ PyStr.startswith (PyStr.strip (drop_first line)) "!" = false
  /\ (c = None \/ c = ctx).
Proof.
  unfold pcc_step. destruct (is_added line).
  - destruct (PyStr.strip (drop_first line)) as [|x s] eqn:E; [intros []|].
    destruct (PyStr.startswith (String x s) "!") eqn:Eb; cbn [negb];
      [intros []|].
    destruct (truthy ctx); cbn [snd app]; intros [[= <- <-]|[]];
      repeat split; auto; discriminate.
  - destruct (is_context_candidate line); [|intros []].
    destruct (is_mode_header (PyStr.strip line)); intros [].
Qed.

Lemma last_context_In (l : list string) (c : string) :
  last_context l = Some c ->
  exists line, In line l /\ sets_context line = true /\ c = PyStr.strip line.
Proof.
  unfold last_context. destruct (find sets_context (rev l)) as [x|] eqn:E;
    [|discriminate].
  apply find_some in E. destruct E as [Hin Hx]. intros [= <-].
  exists x. split; [now apply in_rev|]. now split.
Qed.

Lemma parse_contextual_commands_snoc (l : list string) (x : string) :
  parse_contextual_commands (l ++ [x])
  = parse_contextual_commands l ++ snd (pcc_step (last_context l, []) x).
Proof.
  unfold parse_contextual_commands. rewrite fold_left_app. cbn [fold_left].
  pose proof (pcc_fold_ctx l None []) as Hc.
  destruct (fold_left pcc_step l (None, [])) as [c acc]. cbn [fst snd] in *.
  rewrite pcc_step_acc. cbn [snd]. subst c.
  now destruct (last_context l).
Qed.

(** Where the pairs of the result come from. *)
Lemma parse_contextual_commands_In (diff : list string)
      (ctx : option string) (cmd : string) :
  In (ctx, cmd) (parse_contextual_commands diff) ->
  (exists line,
      In line diff /\ is_added line = true
      /\ cmd = ("no " ++ PyStr.strip (drop_first line))%string
      /\ PyStr.strip (drop_first line) <> ""
      /\ PyStr.startswith (PyStr.strip (drop_first line)) "!" = false)
  /\ (ctx = None
      \/ exists line, In line diff /\ sets_context line = true
                      /\ ctx = Some (PyStr.strip line)).
Proof.
  induction diff as [|x l IH] using rev_ind; [intros []|].
  rewrite parse_contextual_commands_snoc. intros H.
  apply in_app_or in H. destruct H as [H|H].
  - destruct (IH H) as [(line & Hin & Hrest) Hctx]. split.
    + exists line. split; [apply in_or_app; now left|exact Hrest].
    + destruct Hctx as [Hn|(u & Hu & Hrest')]; [now left|right].
      exists u. split; [apply in_or_app; now left|exact Hrest'].
  - apply pcc_step_out in H. destruct H as (Ha & Ec & Hne & Hb & Hc). split.
    + exists x. split; [apply in_or_app; right; now left|]. auto.
    + destruct Hc as [Hc|Hc]; [now left|].
      destruct (last_context l) as [c|] eqn:E; [|now left]. right.
      destruct (last_context_In l c E) as (u & Hu & Hs & ->).
      exists u. split; [apply in_or_app; now left|]. now split.
Qed.

(** X4: every derived pair is the negation of an added line and carries
    the text of a mode line of the diff, if any: the command is "no "
    followed by the stripped text of a line that starts with "+" but not
    with "+++"; that text is not empty and no comment; the context is
    either [None] or the stripped text of a line of the diff that sets
    the context. *)
Theorem parse_contextual_commands_sound (diff : list string)
        (ctx : option string) (cmd : string) :
  In (ctx, cmd) (parse_contextual_commands diff) ->
  (exists line,
      In line diff /\ is_added line = true
      /\ cmd = ("no " ++ PyStr.strip (drop_first line))%string
      /\ PyStr.strip (drop_first line) <> ""
      /\ PyStr.startswith (PyStr.strip (drop_first line)) "!" = false)
  /\ (ctx = None
      \/ exists line, In line diff /\ sets_context line = true
                      /\ ctx = Some (PyStr.strip line)).
Proof. apply parse_contextual_commands_In. Qed.

(** ** Failing session calls *)

Section FailStopFacts.

Context {session : Type} {net_connect : Session session}.

Lemma fail_stop_ret {A : Type} (a : A) : fail_stop (@ret session A a).
Proof.
  intros s tr. exists []. cbn. rewrite app_nil_r. split; [reflexivity|].
  constructor.
Qed.

Lemma fail_stop_raise {A : Type} (e : exn) : fail_stop (@raise session A e).
Proof.
  intros s tr. exists []. cbn. rewrite app_nil_r. split; [reflexivity|].
  left. constructor.
Qed.

Lemma fail_stop_lift {A : Type} (r : result A) : fail_stop (@lift session A r).
Proof.
  intros s tr. exists []. cbn. rewrite app_nil_r. split; [reflexivity|].
  destruct r; [constructor|left; constructor].
Qed.

Lemma fail_stop_emit (e : event) :
  failure e = None -> fail_stop (@emit session e).
Proof.
  intros He s tr. exists [e]. cbn. split; [reflexivity|].
  constructor; [assumption|constructor].
Qed.

Lemma fail_stop_sleep (seconds : Z) : fail_stop (@do_sleep session _ seconds).
Proof.
  intros s tr. exists [Sleep seconds]. cbn. split; [reflexivity|].
  constructor; [reflexivity|constructor].
Qed.

Lemma fail_stop_send_command (command : string) :
  fail_stop (do_send_command command).
Proof.
  intros s tr. unfold do_send_command. cbn [fst snd].
  destruct (send_command command s) as [r s'].
  exists [SendCommand command r]. cbn [fst snd]. split; [reflexivity|].
  destruct r as [out|x].
  - constructor; [reflexivity|constructor].
  - right. exists [], (SendCommand command (Raise x)).
    repeat split. constructor.
Qed.

Lemma fail_stop_send_config_set (commands : list string) :
  fail_stop (do_send_config_set commands).
Proof.
  intros s tr. unfold do_send_config_set. cbn [fst snd].
  destruct (send_config_set commands s) as [r s'].
  exists [SendConfigSet commands r]. cbn [fst snd]. split; [reflexivity|].
  destruct r as [out|x].
  - constructor; [reflexivity|constructor].
  - right. exists [], (SendConfigSet commands (Raise x)).
    repeat split. constructor.
Qed.

Lemma fail_stop_send_config_from_file (path : string) :
  fail_stop (do_send_config_from_file path).
Proof.
  intros s tr. unfold do_send_config_from_file. cbn [fst snd].
  destruct (send_config_from_file path s) as [r s'].
  exists [SendConfigFromFile path r]. cbn [fst snd]. split; [reflexivity|].
  destruct r as [out|x].
  - constructor; [reflexivity|constructor].
  - right. exists [], (SendConfigFromFile path (Raise x)).
    repeat split. constructor.
Qed.

Lemma fail_stop_enable : fail_stop do_enable.
Proof.
  intros s tr. unfold do_enable. cbn [fst snd].
  destruct (enable s) as [r s'].
  exists [Enable r]. cbn [fst snd]. split; [reflexivity|].
  destruct r as [out|x].
  - constructor; [reflexivity|constructor].
  - right. exists [], (Enable (Raise x)). repeat split. constructor.
Qed.

Lemma fail_stop_bind {A B : Type} (m : @M session A) (k : A -> @M session B) :
  fail_stop m -> (forall a, fail_stop (k a)) -> fail_stop (mbind m k).
Proof.
  intros Hm Hk s tr. unfold mbind.
  destruct (Hm s tr) as (e1 & E1 & F1).
  destruct (m (s, tr)) as [[a|x] [s1 tr1]]; cbn [fst snd] in *; subst tr1.
  - destruct (Hk a s1 (tr ++ e1)) as (e2 & E2 & F2).
    exists (e1 ++ e2). rewrite E2, app_assoc. split; [reflexivity|].
    destruct (fst (k a (s1, tr ++ e1))) as [b|x].
    + now apply Forall_app.
    + destruct F2 as [F2|(pre & ev & -> & Hpre & Hev)].
      * left. now apply Forall_app.
      * right. exists (e1 ++ pre), ev. rewrite app_assoc.
        repeat split; [now apply Forall_app|assumption].
  - exists e1. split; [reflexivity|exact F1].
Qed.

Lemma fail_stop_for_each {A : Type} (l : list A) (body : A -> @M session unit) :
  (forall x, fail_stop (body x)) -> fail_stop (for_each l body).
Proof.
  intros H. induction l as [|x l IH]; cbn [for_each].
  - apply fail_stop_ret.
  - apply fail_stop_bind; [apply H|intros _; exact IH].
Qed.

(** Among events that were all answered but one, the one that failed is
    found at one place only. *)
Lemma failure_position (pre post pre' post' : list event) (ev ev' : event)
      (x : exn) :
  pre ++ ev :: post = pre' ++ ev' :: post' ->
  all_answered pre -> all_answered post -> failure ev' = Some x ->
  pre = pre' /\ ev = ev' /\ post = post'.
Proof.
  revert pre'. induction pre as [|e pre IH]; intros pre' E Hpre Hpost Hev.
  - destruct pre' as [|e' pre'].
    + now injection E as -> ->.
    + exfalso. injection E as -> ->. unfold all_answered in Hpost.
      rewrite Forall_forall in Hpost.
      rewrite (Hpost ev') in Hev by (apply in_or_app; right; now left).
      discriminate.
  - inversion Hpre as [|? ? He Hpre']; subst. destruct pre' as [|e' pre'].
    + exfalso. injection E as -> _. rewrite He in Hev. discriminate.
    + injection E as -> E. destruct (IH pre' E Hpre' Hpost Hev) as (-> & -> & ->).
      auto.
Qed.

(** A body that a failing session call ends at once, run under
    [try: ... except Exception as e: logger.error(...)]: the run returns,
    and a session call that failed is followed by the error record alone. *)
Lemma try_log_fail_stop (body : @M session unit) (f : exn -> log_record)
      (s : session) :
  fail_stop body ->
  fst (run (try_except body (fun e => log ERROR (f e))) s) = Ok tt
  /\ forall pre ev post x,
       snd (run (try_except body (fun e => log ERROR (f e))) s)
       = pre ++ ev :: post ->
       failure ev = Some x ->
       all_answered pre /\ post = [Log ERROR (f x)].
Proof.
  intros Hb. unfold run, try_except, log, emit.
  destruct (Hb s []) as (evs & E & F).
  destruct (body (s, [])) as [[[]|x0] [s1 tr1]]; cbn [fst snd app] in *;
    subst tr1.
  - split; [reflexivity|]. intros pre ev post x Etr Hev. exfalso.
    unfold all_answered in F. rewrite Forall_forall in F.
    rewrite (F ev) in Hev by (rewrite Etr; apply in_or_app; right; now left).
    discriminate.
  - split; [reflexivity|]. intros pre ev post x Etr Hev.
    destruct F as [F|(pre0 & ev0 & -> & Hpre & Hev0)].
    + exfalso.
      assert (F' : all_answered (evs ++ [Log ERROR (f x0)])).
      { apply Forall_app. split; [assumption|].
        constructor; [reflexivity|constructor]. }
      unfold all_answered in F'. rewrite Forall_forall in F'.
      rewrite (F' ev) in Hev by (rewrite Etr; apply in_or_app; right; now left).
      discriminate.
    + rewrite <- app_assoc in Etr. cbn [app] in Etr.
      destruct (failure_position pre0 [Log ERROR (f x0)] pre post ev0 ev x Etr)
        as (-> & -> & <-); try assumption.
      * constructor; [reflexivity|constructor].
      * split; [assumption|]. rewrite Hev0 in Hev. now injection Hev as ->.
Qed.

End FailStopFacts.

(** One step of a proof that a failing session call ends a computation:
    the rule of the outermost construct. *)
Ltac fail_stop_step :=
  lazymatch goal with
  | |- fail_stop (mbind _ _) => apply fail_stop_bind; [|intros ?]
  | |- fail_stop (for_each _ _) => apply fail_stop_for_each; intros ?
  | |- fail_stop (ret _) => apply fail_stop_ret
  | |- fail_stop (raise _) => apply fail_stop_raise
  | |- fail_stop (lift _) => apply fail_stop_lift
  | |- fail_stop (log _ _) => apply fail_stop_emit; reflexivity
  | |- fail_stop (emit _) => apply fail_stop_emit; reflexivity
  | |- fail_stop (do_send_command _) => apply fail_stop_send_command
  | |- fail_stop (do_send_config_set _) => apply fail_stop_send_config_set
  | |- fail_stop (do_send_config_from_file _) =>
      apply fail_stop_send_config_from_file
  | |- fail_stop do_enable => apply fail_stop_enable
  | |- fail_stop (do_sleep _) => apply fail_stop_sleep
  | |- fail_stop (if ?b then _ else _) => destruct b
  | |- fail_stop (match ?x with _ => _ end) => destruct x
  | |- fail_stop (let '(_, _) := ?x in _) => destruct x
  end.

Ltac fail_stop_auto := repeat fail_stop_step.

(** ** The lines of the diff *)

Lemma slice_In {A : Type} (l : list A) (i j : nat) (x : A) :
  In x (slice l i j) -> In x l.
Proof.
  unfold slice. intros H.
  rewrite <- (firstn_skipn i l). apply in_or_app. right.
  rewrite <- (firstn_skipn (j - i) (skipn i l)). apply in_or_app. now left.
Qed.

Lemma prefix_lines_In (p : string) (lines : list string) (line : string) :
  In line (prefix_lines p lines) ->
  exists x, In x lines /\ line = (p ++ x)%string.
Proof.
  unfold prefix_lines. rewrite in_map_iff. intros (x & <- & H). now exists x.
Qed.

(** A tagged line of the diff is a line of the first sequence with a
    space or "-" in front, or a line of the second with "+" in front. *)
Lemma opcode_lines_In (a b : list string) (c : opcode) (line : string) :
  In line (opcode_lines a b c) ->
  (exists x, In x a /\ (line = (" " ++ x)%string \/ line = ("-" ++ x)%string))
  \/ (exists x, In x b /\ line = ("+" ++ x)%string).
Proof.
  destruct c as [[[[t i1] i2] j1] j2]. unfold opcode_lines.
  destruct t; intros H.
  - apply in_app_or in H. destruct H as [H|H]; apply prefix_lines_In in H;
      destruct H as (x & H & ->); apply slice_In in H.
    + left. exists x. auto.
    + right. exists x. auto.
  - apply prefix_lines_In in H. destruct H as (x & H & ->).
    apply slice_In in H. left. exists x. auto.
  - apply prefix_lines_In in H. destruct H as (x & H & ->).
    apply slice_In in H. right. exists x. auto.
  - apply prefix_lines_In in H. destruct H as (x & H & ->).
    apply slice_In in H. left. exists x. auto.
Qed.

Lemma hunk_header_at (g : list opcode) :
  exists r, hunk_header g = String "@" r.
Proof.
  unfold hunk_header. destruct (group_range g) as [[[i1 i2] j1] j2].
  eexists. reflexivity.
Qed.

(** The lines of a diff by their first character: "-" and "@" for the
    first file header, the removed lines and the hunk headers; "+" for
    the second file header and for the lines of the second sequence that
    are added; a space for lines of the first sequence that are kept. *)
Lemma unified_diff_In (a b : list string) (fromfile tofile line : string) :
  In line (unified_diff a b fromfile tofile) ->
  exists c rest,
    line = String c rest
    /\ (c = "-"%char \/ c = "@"%char
        \/ (c = "+"%char /\ (rest = ("++ " ++ tofile)%string \/ In rest b))
        \/ (c = " "%char /\ In rest a)).
Proof.
  unfold unified_diff. destruct (get_grouped_opcodes a b 3) as [|g0 gs];
    [intros []|]. generalize (g0 :: gs). intros groups [<-|[<-|H]].
  - exists "-"%char, ("-- " ++ fromfile)%string. split; [reflexivity|auto].
  - exists "+"%char, ("++ " ++ tofile)%string. split; [reflexivity|auto 6].
  - apply in_flat_map in H. destruct H as (g & _ & [<-|H]).
    + destruct (hunk_header_at g) as (r & ->). exists "@"%char, r.
      split; [reflexivity|auto].
    + unfold group_body in H. apply in_flat_map in H.
      destruct H as (c & _ & H). apply opcode_lines_In in H.
      destruct H as [(x & Hx & [->| ->])|(x & Hx & ->)].
      * exists " "%char, x. split; [reflexivity|auto 6].
      * exists "-"%char, x. split; [reflexivity|auto].
      * exists "+"%char, x. split; [reflexivity|auto 6].
Qed.

Lemma is_added_head (c : ascii) (rest : string) :
  is_added (String c rest) = true -> c = "+"%char.
Proof.
  unfold is_added, PyStr.startswith. cbn [String.prefix].
  destruct (ascii_dec "+" c) as [<-|]; [reflexivity|discriminate].
Qed.

Lemma sets_context_head (c : ascii) (rest : string) :
  sets_context (String c rest) = true ->
  c <> "-"%char /\ c <> "@"%char /\ c <> "+"%char.
Proof.
  unfold sets_context, is_context_candidate, PyStr.startswith.
  cbn [String.prefix]. intros H.
  repeat split; intros ->; cbn in H; destruct rest; discriminate.
Qed.

(** An added line of the configuration diff is a line of the live
    configuration with "+" in front. *)
Lemma diff_added_line (a b : list string) (line : string) :
  In line (unified_diff a b "Golden Config" "Current Config") ->
  is_added line = true ->
  exists x, In x b /\ line = ("+" ++ x)%string.
Proof.
  intros H Ha. apply unified_diff_In in H.
  destruct H as (c & rest & -> & H). pose proof (is_added_head c rest Ha) as Hc.
  destruct H as [->|[->|[[_ H]|[-> _]]]]; try discriminate. subst c.
  destruct H as [->|H]; [discriminate|]. now exists rest.
Qed.

(** A line of the configuration diff that sets the context is a line of
    the golden configuration with a space in front. *)
Lemma diff_context_line (a b : list string) (line : string) :
  In line (unified_diff a b "Golden Config" "Current Config") ->
  sets_context line = true ->
  exists y, In y a /\ line = (" " ++ y)%string.
Proof.
  intros H Hs. apply unified_diff_In in H.
  destruct H as (c & rest & -> & H).
  destruct (sets_context_head c rest Hs) as (H1 & H2 & H3).
  destruct H as [->|[->|[[-> _]|[-> H]]]]; try congruence. now exists rest.
Qed.

(** The first line of a diff that is not empty makes its text
    non-empty. *)
Lemma unified_diff_text (a b : list string) :
  a <> b ->
  exists d, PyStr.join newline (unified_diff a b "Golden Config" "Current Config")
            = String "-" d.
Proof.
  intros Hne. unfold unified_diff.
  destruct (get_grouped_opcodes a b 3) as [|g gs] eqn:E.
  - elim Hne. now apply get_grouped_opcodes_nil.
  - cbn [flat_map hunk_lines app]. eexists. reflexivity.
Qed.

(** ** [compare_configs] *)

Section CompareConfigs.

Context {session : Type} {net_connect : Session session}.

(** A body under [try] whose first two steps record two events. *)
Lemma run_try_head (e1 e2 : event) (k : @M session unit)
      (h : exn -> @M session unit) (s : session) :
  appends (fun _ => True) k -> (forall e, appends (fun _ => True) (h e)) ->
  exists rest,
    snd (run (try_except (mbind (emit e1) (fun _ => mbind (emit e2) (fun _ => k)))
                         h) s)
    = e1 :: e2 :: rest.
Proof.
  intros Hk Hh. rewrite run_trace. unfold try_except, mbind, emit.
  cbn [fst snd app].
  destruct (appends_world _ k s [e1; e2] Hk) as (r & s' & evs & E & _).
  rewrite E. destruct r as [[]|e]; cbn [snd app]; [eexists; reflexivity|].
  destruct (appends_world _ (h e) s' (e1 :: e2 :: evs) (Hh e))
    as (r' & s2 & evs' & E' & _).
  rewrite E'. cbn [snd app]. eexists. reflexivity.
Qed.

(** The configuration sets that [apply_contextual] sends. *)
Lemma appends_apply_contextual (P : event -> Prop) (c : contextual_command) :
  (forall r, P (SendConfigSet [snd c] r)) ->
  (forall context r, fst c = Some context -> context <> "" ->
                     P (SendConfigSet [context; snd c] r)) ->
  appends P (apply_contextual c).
Proof.
  destruct c as [[[|ch ctx]|] cmd]; cbn [fst snd apply_contextual];
    intros H1 H2; apply appends_send_config_set; intros r; auto.
  apply H2; [reflexivity|discriminate].
Qed.

Lemma fail_stop_apply_contextual (c : contextual_command) :
  fail_stop (apply_contextual c).
Proof.
  destruct c as [[[|ch ctx]|] cmd]; apply fail_stop_send_config_set.
Qed.

(** X5: [compare_configs] finds a device compliant exactly when the two
    normalised configurations are the same list of lines: then the only
    event is the debug record, whether or not the diff file could be
    written. Otherwise the run starts with the warning that carries the
    text of the diff. When the diff file can be written, the file of the
    device follows, with the same text. When it cannot, the exception is
    caught: the only other event is the error record, and nothing is
    sent to the device. *)
Theorem compare_configs_compliant_iff
        (device_name current_config path golden_config : string)
        (report : diff_file) (s : session) :
  (run (compare_configs device_name current_config path
                        (Contents golden_config) report) s
   = (Ok tt, [Log DEBUG ConfigCompliant])
   <-> normalize_config golden_config = normalize_config current_config)
  /\ (normalize_config golden_config <> normalize_config current_config ->
      (report = Writable ->
       exists rest,
         snd (run (compare_configs device_name current_config path
                                   (Contents golden_config) report) s)
         = Log WARNING
               (DifferencesFound
                  (PyStr.join newline
                     (unified_diff (normalize_config golden_config)
                                   (normalize_config current_config)
                                   "Golden Config" "Current Config")))
           :: WriteFile ("diffs/" ++ device_name ++ "_diff.txt")
                (PyStr.join newline
                   (unified_diff (normalize_config golden_config)
                                 (normalize_config current_config)
                                 "Golden Config" "Current Config"))
           :: rest)
      /\ (report = NotWritable ->
          run (compare_configs device_name current_config path
                               (Contents golden_config) report) s
          = (Ok tt,
             [Log WARNING
                (DifferencesFound
                   (PyStr.join newline
                      (unified_diff (normalize_config golden_config)
                                    (normalize_config current_config)
                                    "Golden Config" "Current Config")));
              Log ERROR (CompareConfigsError OSError)]))).
Proof.
  assert (Hwrite : normalize_config golden_config <> normalize_config current_config ->
      exists rest,
        snd (run (compare_configs device_name current_config path
                                  (Contents golden_config) Writable) s)
        = Log WARNING
              (DifferencesFound
                 (PyStr.join newline
                    (unified_diff (normalize_config golden_config)
                                  (normalize_config current_config)
                                  "Golden Config" "Current Config")))
          :: WriteFile ("diffs/" ++ device_name ++ "_diff.txt")
               (PyStr.join newline
                  (unified_diff (normalize_config golden_config)
                                (normalize_config current_config)
                                "Golden Config" "Current Config"))
          :: rest).
  { intros Hne. unfold compare_configs. cbv zeta.
    destruct (unified_diff_text _ _ Hne) as (d & Ed). rewrite Ed.
    cbn [write_file].
    apply run_try_head; [|intros e]; appends_auto; try exact I.
    apply appends_apply_contextual; intros; exact I. }
  assert (Hfail : normalize_config golden_config <> normalize_config current_config ->
      run (compare_configs device_name current_config path
                           (Contents golden_config) NotWritable) s
      = (Ok tt,
         [Log WARNING
            (DifferencesFound
               (PyStr.join newline
                  (unified_diff (normalize_config golden_config)
                                (normalize_config current_config)
                                "Golden Config" "Current Config")));
          Log ERROR (CompareConfigsError OSError)])).
  { intros Hne. unfold compare_configs. cbv zeta.
    destruct (unified_diff_text _ _ Hne) as (d & Ed). rewrite Ed.
    reflexivity. }
  split.
  - split.
    + intros Hrun.
      destruct (list_eq_dec string_dec (normalize_config golden_config)
                            (normalize_config current_config)) as [E|Hne];
        [exact E|exfalso].
      destruct report.
      * destruct (Hwrite Hne) as (rest & Etr). rewrite Hrun in Etr.
        discriminate.
      * rewrite (Hfail Hne) in Hrun. discriminate.
    + intros E. unfold run, compare_configs, try_except. rewrite E.
      rewrite unified_diff_self. reflexivity.
  - intros Hne. split; intros ->; auto.
Qed.

(** X6: [compare_configs] never raises, and a session call that fails is
    the last thing it does to the device: every call before it was
    answered, and only the error record that carries the exception
    follows. So after a rollback command that fails the golden
    configuration is not pushed. Without a golden file the only event is
    the warning, and with one that cannot be read the only event is the
    error record. *)
Theorem compare_configs_stops_at_failure
        (device_name current_config path : string) (golden : golden_file)
        (report : diff_file) (s : session) :
  fst (run (compare_configs device_name current_config path golden report) s)
  = Ok tt
  /\ (forall pre ev post x,
         snd (run (compare_configs device_name current_config path golden
                                   report) s)
         = pre ++ ev :: post ->
         failure ev = Some x ->
         all_answered pre /\ post = [Log ERROR (CompareConfigsError x)])
  /\ (golden = NoSuchFile ->
      snd (run (compare_configs device_name current_config path golden
                                report) s)
      = [Log WARNING NoGoldenConfig])
  /\ (golden = ReadFails ->
      snd (run (compare_configs device_name current_config path golden
                                report) s)
      = [Log ERROR (CompareConfigsError OSError)]).
Proof.
  split; [|split; [|split; intros ->; reflexivity]].
  - apply try_log_fail_stop. cbv zeta. destruct report; cbn [write_file];
      fail_stop_auto; apply fail_stop_apply_contextual.
  - apply try_log_fail_stop. cbv zeta. destruct report; cbn [write_file];
      fail_stop_auto; apply fail_stop_apply_contextual.
Qed.

(** X7: every configuration set that [compare_configs] sends is the
    negation of a line of the live configuration: it is ["no <line>"], or
    [<context>; "no <line>"], where <line> is a line of the normalised
    current configuration and <context> is an [interface] or [router]
    line of the normalised golden configuration. *)
Theorem compare_configs_sends_only_negations
        (device_name current_config path : string) (golden : golden_file)
        (report : diff_file) (s : session) (commands : list string)
        (answer : result unit) :
  In (SendConfigSet commands answer)
     (snd (run (compare_configs device_name current_config path golden
                                report) s)) ->
  exists golden_config line,
    golden = Contents golden_config
    /\ In line (normalize_config current_config)
    /\ (commands = [("no " ++ line)%string]
        \/ exists context,
             In context (normalize_config golden_config)
             /\ is_mode_header context = true
             /\ commands = [context; ("no " ++ line)%string]).
Proof.
  set (Q := fun commands : list string =>
              exists golden_config line,
                golden = Contents golden_config
                /\ In line (normalize_config current_config)
                /\ (commands = [("no " ++ line)%string]
                    \/ exists context,
                         In context (normalize_config golden_config)
                         /\ is_mode_header context = true
                         /\ commands = [context; ("no " ++ line)%string])).
  set (P := fun e : event =>
              forall commands answer, e = SendConfigSet commands answer ->
                                      Q commands).
  assert (H : appends P (compare_configs device_name current_config path golden
                                        report)).
  { unfold compare_configs. apply appends_try;
      [|intros e; apply appends_emit; intros ? ? [=]].
    destruct golden as [| |golden_config];
      [apply appends_emit; intros ? ? [=]|apply appends_raise|].
    cbv zeta. set (diff := unified_diff _ _ _ _).
    destruct (PyStr.join newline diff); [apply appends_emit; intros ? ? [=]|].
    apply appends_bind; [apply appends_emit; intros ? ? [=]|intros _].
    apply appends_bind;
      [destruct report; [apply appends_emit; intros ? ? [=]|apply appends_raise]
      |intros _].
    apply appends_bind;
      [|intros _; apply appends_bind;
        [apply appends_send_config_from_file; intros ? ? ? [=]
        |intros _; apply appends_emit; intros ? ? [=]]].
    destruct (parse_contextual_commands diff) as [|c0 l0] eqn:Epcc;
      [apply appends_ret|].
    apply appends_bind; [apply appends_enable; intros ? ? ? [=]|intros _].
    apply appends_for_each. intros [ctx cmd] Hin. rewrite <- Epcc in Hin.
    apply parse_contextual_commands_In in Hin.
    destruct Hin as [(line & Hline & Hadd & -> & _) Hctx].
    destruct (diff_added_line _ _ line Hline Hadd) as (x & Hx & ->).
    pose proof (normalize_config_clean current_config) as Hclean.
    rewrite Forall_forall in Hclean. destruct (Hclean x Hx) as (_ & Hsx & _).
    cbn [append drop_first]. rewrite Hsx.
    apply appends_apply_contextual; cbn [fst snd].
    - intros r ? ? [= <- <-]. exists golden_config, x. auto.
    - intros context r -> Hne ? ? [= <- <-].
      destruct Hctx as [Hctx|(u & Hu & Hs & Ec)]; [discriminate|].
      injection Ec as ->.
      destruct (diff_context_line _ _ u Hu Hs) as (y & Hy & ->).
      pose proof (normalize_config_clean golden_config) as Hg.
      rewrite Forall_forall in Hg. destruct (Hg y Hy) as (_ & Hsy & _).
      unfold sets_context in Hs. apply andb_true_iff in Hs.
      destruct Hs as [_ Hm].
      assert (Ey : PyStr.strip (" " ++ y) = y).
      { cbn [append]. now rewrite strip_fixed_space_front. }
      rewrite Ey in *. exists golden_config, x.
      split; [reflexivity|]. split; [assumption|]. right. exists y. auto. }
  intros Hin. rewrite run_trace in Hin.
  destruct (H s []) as (evs & E & F). rewrite E in Hin. cbn [app] in Hin.
  rewrite Forall_forall in F. exact (F _ Hin commands answer eq_refl).
Qed.

End CompareConfigs.

(** ** The two OSPF parsers *)

(** The words that [split] gives are not empty and hold no whitespace. *)
Lemma rev_string_nonempty (c : ascii) (cur : list ascii) :
  PyStr.rev_string (c :: cur) <> "".
Proof.
  rewrite rev_string_cons. destruct (PyStr.rev_string cur); discriminate.
Qed.

Lemma split_ws_go_tokens (cur : list ascii) (s tok : string) :
  forallb (fun c => negb (PyStr.is_space c)) cur = true ->
  In tok (PyStr.split_ws_go cur s) -> is_token tok.
Proof.
  revert cur. induction s as [|c s IH]; intros cur Hcur Hin;
    cbn [PyStr.split_ws_go] in Hin.
  - destruct cur as [|x cur]; [destruct Hin|]. destruct Hin as [<-|[]].
    split; [apply rev_string_nonempty|].
    unfold no_space. now rewrite all_chars_rev_string.
  - destruct (PyStr.is_space c) eqn:E.
    + destruct cur as [|x cur]; [now apply (IH [])|].
      destruct Hin as [<-|Hin]; [|now apply (IH [])].
      split; [apply rev_string_nonempty|].
      unfold no_space. now rewrite all_chars_rev_string.
    + apply (IH (c :: cur)); [|assumption]. cbn [forallb]. now rewrite E, Hcur.
Qed.

Lemma split_tokens (s tok : string) : In tok (PyStr.split s) -> is_token tok.
Proof. now apply split_ws_go_tokens. Qed.

(** Whitespace at the end of a text adds no word. *)
Lemma split_ws_go_trailing (cur : list ascii) (s : string) (c : ascii) :
  PyStr.is_space c = true ->
  PyStr.split_ws_go cur (s ++ String c "") = PyStr.split_ws_go cur s.
Proof.
  intros Hc. revert cur. induction s as [|x s IH]; intros cur.
  - cbn [append PyStr.split_ws_go]. rewrite Hc. now destruct cur.
  - cbn [append PyStr.split_ws_go]. destruct (PyStr.is_space x).
    + destruct cur; now rewrite IH.
    + apply IH.
Qed.

(** A text with a character that is no whitespace has a word. *)
Lemma split_ws_go_nonempty (cur : list ascii) (s : string) :
  all_chars PyStr.is_space s = false -> PyStr.split_ws_go cur s <> [].
Proof.
  revert cur. induction s as [|c s IH]; intros cur H; [discriminate|].
  cbn [all_chars] in H. cbn [PyStr.split_ws_go].
  destruct (PyStr.is_space c) eqn:E; cbn [andb] in H.
  - destruct cur; [now apply IH|discriminate].
  - clear H IH. revert c cur E. induction s as [|x s IH]; intros c cur E.
    + cbn. discriminate.
    + cbn [PyStr.split_ws_go]. destruct (PyStr.is_space x) eqn:Ex.
      * discriminate.
      * now apply IH.
Qed.

Lemma prefix_nonspace (c : ascii) (needle s : string) :
  PyStr.is_space c = false -> String.prefix (String c needle) s = true ->
  all_chars PyStr.is_space s = false.
Proof.
  intros Hc H. destruct s as [|x s]; [discriminate|]. cbn [String.prefix] in H.
  destruct (ascii_dec c x) as [<-|]; [|discriminate].
  cbn [all_chars]. now rewrite Hc.
Qed.

Lemma contains_nonspace (c : ascii) (needle s : string) :
  PyStr.is_space c = false -> PyStr.contains (String c needle) s = true ->
  all_chars PyStr.is_space s = false.
Proof.
  intros Hc. induction s as [|x s IH]; intros H.
  - discriminate.
  - cbn [PyStr.contains] in H. apply orb_true_iff in H. destruct H as [H|H].
    + now apply (prefix_nonspace c needle).
    + cbn [all_chars]. rewrite (IH H). apply andb_false_r.
Qed.

(** A line that says "is up" has a first word. *)
Lemma up_line_has_name (line : string) :
  PyStr.contains "is up" line = true ->
  exists name, index (PyStr.split line) 0 = Ok name.
Proof.
  intros H. pose proof (contains_nonspace "i" "s up" line eq_refl H) as Hs.
  pose proof (split_ws_go_nonempty [] line Hs) as Hne.
  unfold PyStr.split, index. destruct (PyStr.split_ws_go [] line) as [|name l];
    [now elim Hne|]. now exists name.
Qed.

(** *** [parse_ospf_timers] *)

Lemma timers_loop_sound (all : list string) (lines : list string)
      (st : option string * list timer_fault) (faults : list timer_fault) :
  (forall line, In line lines -> In line all) ->
  (forall name, fst st = Some name ->
                exists up, In up all /\ PyStr.contains "is up" up = true
                           /\ index (PyStr.split up) 0 = Ok name) ->
  Forall (fault_of all) (snd st) ->
  timers_loop st lines = Ok faults ->
  Forall (fault_of all) faults.
Proof.
  revert st. induction lines as [|line rest IH]; intros [name acc] Hsub Hname Hacc;
    cbn [timers_loop fst snd] in *.
  - now intros [= <-].
  - assert (Hline : In line all) by (apply Hsub; now left).
    assert (Hrest : forall l, In l rest -> In l all)
      by (intros l Hl; apply Hsub; now right).
    unfold timers_step.
    destruct (PyStr.contains "is up" line) eqn:Eup.
    + destruct (index (PyStr.split line) 0) as [n|e] eqn:En; cbn [bind];
        [|discriminate].
      apply IH; cbn [fst snd]; [assumption| |assumption].
      intros name' [= <-]. now exists line.
    + destruct (PyStr.contains "Timer intervals configured" line) eqn:Et;
        [|now apply IH].
      destruct (timer_field (PyStr.split_on ", " line) 1) as [h|e] eqn:Eh;
        cbn [bind]; [|discriminate].
      destruct (timer_field (PyStr.split_on ", " line) 2) as [d|e] eqn:Ed;
        cbn [bind]; [|discriminate].
      destruct (timer_field (PyStr.split_on ", " line) 3) as [r|e] eqn:Er;
        cbn [bind]; [|discriminate].
      destruct (negb (h =? 10)%Z || negb (d =? 40)%Z || negb (r =? 5)%Z) eqn:Eb;
        [|now apply IH].
      destruct name as [n|]; cbn [bind]; [|discriminate].
      apply IH; cbn [fst snd]; [assumption|assumption|].
      apply Forall_app. split; [assumption|]. constructor; [|constructor].
      unfold fault_of. cbn [hello_timer dead_timer retransmit_timer tf_interface].
      split; [|split].
      * apply orb_true_iff in Eb. destruct Eb as [Eb|Eb];
          [apply orb_true_iff in Eb; destruct Eb as [Eb|Eb]|];
          apply negb_true_iff, Z.eqb_neq in Eb; auto.
      * now apply Hname.
      * exists line. auto.
Qed.

Lemma parse_ospf_timers_faults (output : string) (faults : list timer_fault) :
  parse_ospf_timers output = Ok faults ->
  Forall (fault_of (PyStr.splitlines output)) faults.
Proof.
  unfold parse_ospf_timers. apply timers_loop_sound; cbn [fst snd].
  - auto.
  - discriminate.
  - constructor.
Qed.

(** X8: a fault that [parse_ospf_timers] reports is real: at least one of
    its three timers differs from 10, 40 and 5; its interface is the
    first word of a line of the output that says "is up"; and its timers
    are the values read from a line that says "Timer intervals
    configured". *)
Theorem parse_ospf_timers_reports_real_faults
        (output : string) (faults : list timer_fault) (f : timer_fault) :
  parse_ospf_timers output = Ok faults -> In f faults ->
  fault_of (PyStr.splitlines output) f.
Proof.
  intros H Hin. apply parse_ospf_timers_faults in H.
  rewrite Forall_forall in H. now apply H.
Qed.

Lemma timers_loop_no_timer_line (lines : list string)
      (st : option string * list timer_fault) :
  (forall line, In line lines ->
                PyStr.contains "Timer intervals configured" line = false
                \/ PyStr.contains "is up" line = true) ->
  timers_loop st lines = Ok (snd st).
Proof.
  revert st. induction lines as [|line rest IH]; intros [name acc] H;
    cbn [timers_loop]; [reflexivity|].
  unfold timers_step.
  destruct (PyStr.contains "is up" line) eqn:Eup.
  - destruct (up_line_has_name line Eup) as (n & ->). cbn [bind].
    rewrite IH by (intros l Hl; apply H; now right). reflexivity.
  - destruct (H line (or_introl eq_refl)) as [->|E]; [|congruence].
    cbn [bind]. apply IH. intros l Hl. apply H. now right.
Qed.

(** X9: an output in which no line is read as a timer line (no line says
    "Timer intervals configured", unless it also says "is up") is parsed
    without exception and gives no fault; the empty output is one. *)
Theorem parse_ospf_timers_without_timer_lines (output : string) :
  (forall line, In line (PyStr.splitlines output) ->
                PyStr.contains "Timer intervals configured" line = false
                \/ PyStr.contains "is up" line = true) ->
  parse_ospf_timers output = Ok [].
Proof. intros H. unfold parse_ospf_timers. now rewrite timers_loop_no_timer_line. Qed.

(** *** [parse_ospf_neighbors] *)

Lemma parse_neighbor_row_In (line : string) (n : neighbor) :
  In n (parse_neighbor_row line) ->
  8 <= length (PyStr.split line)
  /\ n = {| neighbor_id := nth 0 (PyStr.split line) "";
            instance := nth 1 (PyStr.split line) "";
            vrf := nth 2 (PyStr.split line) "";
            priority := nth 3 (PyStr.split line) "";
            state := nth 4 (PyStr.split line) "";
            address := nth 6 (PyStr.split line) "";
            interface := nth 7 (PyStr.split line) "" |}.
Proof.
  unfold parse_neighbor_row.
  destruct (8 <=? length (PyStr.split line)) eqn:E; [|intros []].
  apply Nat.leb_le in E. intros [<-|[]]. now split.
Qed.

Lemma nth_token (line : string) (i : nat) :
  i < length (PyStr.split line) -> is_token (nth i (PyStr.split line) "").
Proof. intros H. apply (split_tokens line). now apply nth_In. Qed.

(** X10: every record of [parse_ospf_neighbors] comes from a line after
    the first that has at least eight words: its fields are the words
    1 to 5, 7 and 8 of that line, so none of them is empty or holds
    whitespace; the sixth word (the dead time) is in no field. *)
Theorem parse_ospf_neighbors_records (output : string) (n : neighbor) :
  In n (parse_ospf_neighbors output) ->
  (exists line,
      In line (tl (PyStr.splitlines output))
      /\ 8 <= length (PyStr.split line)
      /\ n = {| neighbor_id := nth 0 (PyStr.split line) "";
                instance := nth 1 (PyStr.split line) "";
                vrf := nth 2 (PyStr.split line) "";
                priority := nth 3 (PyStr.split line) "";
                state := nth 4 (PyStr.split line) "";
                address := nth 6 (PyStr.split line) "";
                interface := nth 7 (PyStr.split line) "" |})
  /\ is_token (neighbor_id n) /\ is_token (instance n) /\ is_token (vrf n)
  /\ is_token (priority n) /\ is_token (state n) /\ is_token (address n)
  /\ is_token (interface n).
Proof.
  unfold parse_ospf_neighbors. rewrite in_flat_map.
  intros (line & Hline & Hn). apply parse_neighbor_row_In in Hn.
  destruct Hn as [Hlen ->]. split; [now exists line|].
  cbn [neighbor_id instance vrf priority state address interface].
  repeat split; try (apply nth_token; lia);
    destruct (nth_token line 0), (nth_token line 1), (nth_token line 2),
      (nth_token line 3), (nth_token line 4), (nth_token line 6),
      (nth_token line 7); try lia; assumption.
Qed.

(** X19: the first line of the output is never read as a row: there is
    at most one record for each line after the first, and an output of
    one line gives no record, be it a row of eight words. *)
Theorem parse_ospf_neighbors_skips_first_line (output : string) :
  length (parse_ospf_neighbors output) <= length (PyStr.splitlines output) - 1
  /\ (no_linebreak output = true -> parse_ospf_neighbors output = []).
Proof.
  unfold parse_ospf_neighbors. split.
  - assert (H : forall l, length (flat_map parse_neighbor_row l) <= length l).
    { induction l as [|x l IH]; [reflexivity|]. cbn [flat_map].
      rewrite length_app. unfold parse_neighbor_row at 1.
      destruct (8 <=? _); cbn [length]; lia. }
    destruct (PyStr.splitlines output) as [|h l]; [reflexivity|].
    cbn [tl length]. specialize (H l). lia.
  - intros H. unfold PyStr.splitlines.
    rewrite <- (string_app_nil_r output), (splitlines_go_piece [] output "" H).
    cbn [PyStr.splitlines_go]. now destruct (rev _ ++ []).
Qed.

(** ** [load_golden_ospf_neighbors] *)

Lemma is_lf_facts (c : ascii) :
  PyStr.is_lf c = true ->
  PyStr.is_linebreak c = true /\ PyStr.is_cr c = false
  /\ PyStr.is_space c = true.
Proof.
  unfold PyStr.is_lf, PyStr.is_linebreak, PyStr.is_cr, PyStr.is_space.
  intros H. apply Nat.eqb_eq in H. rewrite H. repeat split.
Qed.

Lemma is_cr_linebreak (c : ascii) :
  PyStr.is_linebreak c = false -> PyStr.is_cr c = false.
Proof.
  unfold PyStr.is_linebreak, PyStr.is_cr. intros H.
  destruct (Nat.eqb_spec (nat_of_ascii c) 13) as [E|]; [|reflexivity].
  rewrite E in H. discriminate H.
Qed.

(** A row depends on the words of its line only. *)
Lemma parse_neighbor_rows_words (l1 l2 : list string) :
  map PyStr.split l1 = map PyStr.split l2 ->
  flat_map parse_neighbor_row l1 = flat_map parse_neighbor_row l2.
Proof.
  revert l2. induction l1 as [|x l1 IH]; intros [|y l2] H; try discriminate;
    [reflexivity|]. cbn [map] in H. injection H as Hx Hl.
  cbn [flat_map]. rewrite (IH l2 Hl). unfold parse_neighbor_row.
  now rewrite Hx.
Qed.

(** On a text whose lines end in line feeds only, [readlines] and
    [splitlines] give lines with the same words. *)
Lemma readlines_splitlines_words (cur : list ascii) (s : string) :
  lf_only s = true ->
  map PyStr.split (readlines_go false cur s)
  = map PyStr.split (PyStr.splitlines_go false cur s).
Proof.
  revert cur. induction s as [|c s IH]; intros cur H.
  - cbn. now destruct cur.
  - unfold lf_only in H. cbn [all_chars] in H. apply andb_true_iff in H.
    destruct H as [Hc Hs]. cbn [readlines_go PyStr.splitlines_go andb].
    destruct (PyStr.is_lf c) eqn:El.
    + destruct (is_lf_facts c El) as (-> & -> & Hsp). cbn [orb map].
      rewrite (IH [] Hs). f_equal. rewrite rev_string_cons.
      unfold PyStr.split. now apply split_ws_go_trailing.
    + rewrite orb_false_r in Hc. apply negb_true_iff in Hc. rewrite Hc.
      rewrite (is_cr_linebreak c Hc). cbn [orb]. now apply IH.
Qed.

Lemma map_tl {A B : Type} (f : A -> B) (l : list A) :
  map f (tl l) = tl (map f l).
Proof. now destruct l. Qed.

Lemma load_golden_rows (device_name text : string) :
  lf_only text = true ->
  fst (load_golden_ospf_neighbors device_name (Contents text))
  = parse_ospf_neighbors text.
Proof.
  intros H. cbn [load_golden_ospf_neighbors fst]. unfold parse_ospf_neighbors.
  apply parse_neighbor_rows_words. rewrite !map_tl. f_equal.
  now apply readlines_splitlines_words.
Qed.

(** X11: a golden state file whose lines end in line feeds gives the
    records that [parse_ospf_neighbors] gives for the same text, and no
    log record: a table saved from the device is read back as it was
    parsed. *)
Theorem load_golden_agrees_with_parser (device_name text : string) :
  lf_only text = true ->
  load_golden_ospf_neighbors device_name (Contents text)
  = (parse_ospf_neighbors text, []).
Proof.
  intros H. rewrite <- (load_golden_rows device_name text H). reflexivity.
Qed.

(** ** The reconciliation *)

Section Reconcile.

Context {session : Type} {net_connect : Session session} {order : SetOrder}.

Lemma set_order_nil : set_order [] = [].
Proof. apply Permutation_nil, Permutation_sym, set_order_perm. Qed.

Lemma set_order_nil_inv (l : list string) : set_order l = [] -> l = [].
Proof.
  intros H. apply Permutation_nil. rewrite <- H. apply set_order_perm.
Qed.

Lemma unhealthy_keys (lm gm : dict) :
  exists keep, unhealthy_neighbors lm gm = map fst (filter keep lm).
Proof.
  exists (fun '(k, st) => dict_mem gm k && negb (healthy st)).
  unfold unhealthy_neighbors. induction lm as [|[k st] lm IH]; [reflexivity|].
  cbn [flat_map filter]. rewrite IH.
  now destruct (dict_mem gm k && negb (healthy st)).
Qed.

(** Keeping some entries of a dictionary keeps its keys apart. *)
Lemma dict_filter_NoDup (keep : string * string -> bool) (d : dict) :
  NoDup (dict_keys d) -> NoDup (dict_keys (filter keep d)).
Proof.
  unfold dict_keys. induction d as [|[k v] d IH]; intros Hd; [exact Hd|].
  cbn [map filter fst] in *. apply NoDup_cons_iff in Hd.
  destruct Hd as [Hk Hd]. specialize (IH Hd).
  destruct (keep (k, v)); [|exact IH].
  cbn [map fst]. apply NoDup_cons; [|exact IH].
  intros Hin. apply Hk. apply in_map_iff in Hin.
  destruct Hin as (entry & E & Hentry). apply in_map_iff. exists entry.
  split; [exact E|]. now apply filter_In in Hentry.
Qed.

(** X12: no neighbour is listed twice for remediation: the missing
    neighbours are a set, the neighbours in a bad state are keys of the
    live map, each once, and no neighbour is both. *)
Theorem problematic_neighbors_NoDup (live_neighbors golden_neighbors : list neighbor) :
  NoDup (problematic_neighbors (neighbors_map live_neighbors)
                               (neighbors_map golden_neighbors)).
Proof.
  unfold problematic_neighbors.
  set (lm := neighbors_map live_neighbors).
  set (gm := neighbors_map golden_neighbors).
  assert (Hmiss : NoDup (set_order (missing_neighbors lm gm))).
  { eapply Permutation_NoDup; [apply Permutation_sym, set_order_perm|].
    unfold missing_neighbors, set_diff. apply NoDup_filter.
    apply neighbors_map_NoDup. }
  assert (Hbad : NoDup (unhealthy_neighbors lm gm)).
  { destruct (unhealthy_keys lm gm) as (keep & ->).
    apply dict_filter_NoDup. apply (neighbors_map_NoDup live_neighbors). }
  apply NoDup_app; repeat split; try assumption.
  intros k Hk Hk'.
  apply (Permutation_in _ (set_order_perm _)) in Hk.
  unfold missing_neighbors in Hk. apply set_diff_In in Hk.
  destruct Hk as [_ Hk]. apply Hk.
  destruct (unhealthy_keys lm gm) as (keep & E). rewrite E in Hk'.
  apply in_map_iff in Hk'. destruct Hk' as ([k0 st] & <- & Hin).
  apply filter_In in Hin. destruct Hin as [Hin _].
  unfold dict_keys. apply in_map_iff. now exists (k0, st).
Qed.

Lemma total_log_state_mismatches (lm gm : dict) :
  total (@log_state_mismatches session lm gm).
Proof.
  unfold log_state_mismatches. apply total_for_each. intros [k st].
  destruct (dict_mem gm k && negb (healthy st)); [apply total_emit|apply total_ret].
Qed.

(** The report of a set of neighbours: a header and a record for each,
    if there is any. *)
Lemma total_report (l : list string) (lvl : level) (header : log_record)
      (f : string -> log_record) :
  total match l with
        | [] => ret tt
        | _ :: _ =>
            mbind (@log session lvl header)
                  (fun _ => for_each (set_order l) (fun n => log lvl (f n)))
        end.
Proof.
  destruct l; [apply total_ret|].
  apply total_bind; [apply total_emit|intros _].
  apply total_for_each. intros x. apply total_emit.
Qed.

(** With no problematic neighbour the comparison returns, after log
    records only, the last of which says that the neighbours match. *)
Lemma compare_ospf_neighbors_quiet
      (live_neighbors golden_neighbors : list neighbor) (s : session) :
  problematic_neighbors (neighbors_map live_neighbors)
                        (neighbors_map golden_neighbors) = [] ->
  exists s' evs,
    compare_ospf_neighbors live_neighbors golden_neighbors (s, [])
    = (Ok tt, (s', evs))
    /\ Forall (fun e => is_log e = true) evs
    /\ In (Log INFO NeighborsMatch) evs.
Proof.
  unfold compare_ospf_neighbors. cbv zeta.
  set (lm := neighbors_map live_neighbors).
  set (gm := neighbors_map golden_neighbors). intros ->.
  match goal with |- context [?m (s, []) = _] => set (body := m) end.
  assert (Htotal : total body).
  { unfold body. apply total_bind; [apply total_report|intros _].
    apply total_bind; [apply total_log_state_mismatches|intros _].
    apply total_bind; [apply total_report|intros _].
    apply total_bind; [apply total_ret|intros _; apply total_emit]. }
  assert (Hlogs : appends (fun e => is_log e = true) body).
  { unfold body, log_state_mismatches. appends_auto; try reflexivity.
    contradiction. }
  assert (Hest : establishes (Log INFO NeighborsMatch) body).
  { unfold body. apply establishes_bind_r; [apply total_report|intros _].
    apply establishes_bind_r; [apply total_log_state_mismatches|intros _].
    apply establishes_bind_r; [apply total_report|intros _].
    apply establishes_bind_r; [apply total_ret|intros _].
    apply establishes_emit. }
  destruct (Htotal (s, [])) as ([] & [s' tr'] & E).
  destruct (Hlogs s []) as (evs & Etr & F). specialize (Hest s []).
  rewrite E in *. cbn [fst snd app] in *. subst tr'.
  now exists s', evs.
Qed.

(** With a problematic neighbour that record is not logged. *)
Lemma compare_ospf_neighbors_busy
      (live_neighbors golden_neighbors : list neighbor) (s : session) :
  problematic_neighbors (neighbors_map live_neighbors)
                        (neighbors_map golden_neighbors) <> [] ->
  ~ In (Log INFO NeighborsMatch)
       (snd (snd (compare_ospf_neighbors live_neighbors golden_neighbors (s, [])))).
Proof.
  unfold compare_ospf_neighbors. cbv zeta.
  set (lm := neighbors_map live_neighbors).
  set (gm := neighbors_map golden_neighbors). intros Hne Hin.
  destruct (problematic_neighbors lm gm) as [|k rest]; [now elim Hne|].
  match type of Hin with context [?m (s, [])] => set (body := m) in Hin end.
  assert (Hnone : appends (fun e => e <> Log INFO NeighborsMatch) body).
  { unfold body, log_state_mismatches, remediate, compare_ospf_config,
      repoll, fix_timers. appends_auto; discriminate. }
  destruct (Hnone s []) as (evs & Etr & F). rewrite Etr in Hin.
  rewrite Forall_forall in F. now apply (F _ Hin).
Qed.

(** X13: the record "OSPF neighbors match the golden state" is logged
    exactly when no neighbour is problematic; the run then returns and
    consists of log records only: the device is not touched. *)
Theorem compare_ospf_neighbors_match_iff
        (live_neighbors golden_neighbors : list neighbor) (s : session) :
  (In (Log INFO NeighborsMatch)
      (snd (run (compare_ospf_neighbors live_neighbors golden_neighbors) s))
   <-> problematic_neighbors (neighbors_map live_neighbors)
                             (neighbors_map golden_neighbors) = [])
  /\ (problematic_neighbors (neighbors_map live_neighbors)
                            (neighbors_map golden_neighbors) = [] ->
      fst (run (compare_ospf_neighbors live_neighbors golden_neighbors) s) = Ok tt
      /\ forallb is_log
           (snd (run (compare_ospf_neighbors live_neighbors golden_neighbors) s))
         = true).
Proof.
  rewrite run_trace, run_result.
  destruct (problematic_neighbors (neighbors_map live_neighbors)
                                  (neighbors_map golden_neighbors))
    as [|k rest] eqn:Ep.
  - destruct (compare_ospf_neighbors_quiet live_neighbors golden_neighbors s Ep)
      as (s' & evs & E & F & Hin). rewrite E. cbn [fst snd].
    split; [tauto|]. intros _. split; [reflexivity|].
    apply forallb_forall. rewrite Forall_forall in F. exact F.
  - split; [|discriminate]. split; [|discriminate]. intros Hin. exfalso.
    apply (compare_ospf_neighbors_busy live_neighbors golden_neighbors s);
      [rewrite Ep; discriminate|exact Hin].
Qed.

End Reconcile.

Section ReconcileEvents.

Context {session : Type} {net_connect : Session session} {order : SetOrder}.

(** What follows a parse that succeeded may rely on its result. *)
Lemma appends_bind_lift {A B : Type} (P : event -> Prop) (r : result A)
      (k : A -> @M session B) :
  (forall a, r = Ok a -> appends P (k a)) -> appends P (mbind (lift r) k).
Proof.
  intros Hk s tr. unfold mbind, lift. destruct r as [a|e].
  - apply (Hk a eq_refl).
  - exists []. cbn. now rewrite app_nil_r.
Qed.

Lemma appends_fix_timers (output : string) (faults : list timer_fault) :
  parse_ospf_timers output = Ok faults ->
  appends reconcile_event (@fix_timers session _ faults).
Proof.
  intros H. apply parse_ospf_timers_faults in H. rewrite Forall_forall in H.
  unfold fix_timers. apply appends_for_each. intros f Hf.
  apply appends_bind; [|intros _; now apply appends_emit].
  apply appends_send_config_set. intros r. right. exists f.
  split; [reflexivity|]. now destruct (H f Hf).
Qed.

Lemma appends_compare_ospf_config (neighbor : string) :
  appends reconcile_event (compare_ospf_config neighbor).
Proof.
  unfold compare_ospf_config.
  apply appends_try; [|intros e; now apply appends_emit].
  apply appends_bind; [now apply appends_emit|intros _].
  apply appends_bind; [apply appends_send_command; intros r; now left|].
  intros ospf_config_device.
  destruct (PyStr.contains "shutdown" ospf_config_device).
  - appends_auto; try exact I; try reflexivity. now left.
  - apply appends_bind;
      [apply appends_send_command; intros r; right; now left|].
    intros interface_timers_output. apply appends_bind_lift.
    intros faults Hfaults. destruct faults as [|f faults];
      [now apply appends_emit|].
    apply appends_bind; [now apply appends_emit|intros _].
    apply appends_bind; [now apply (appends_fix_timers interface_timers_output)|].
    intros _. now apply appends_sleep.
Qed.

Lemma appends_repoll : appends reconcile_event (@repoll session _).
Proof.
  unfold repoll. apply appends_bind; [|intros out; apply appends_ret].
  apply appends_send_command. intros r. right. now right.
Qed.

Lemma appends_remediate (neighbor : string) :
  appends reconcile_event (remediate neighbor).
Proof.
  unfold remediate.
  apply appends_bind; [apply appends_compare_ospf_config|intros _].
  apply appends_bind; [now apply appends_emit|intros _].
  apply appends_bind; [now apply appends_sleep|intros _].
  apply appends_bind; [apply appends_repoll|intros rechecked].
  destruct (healthy_in rechecked neighbor); [now apply appends_emit|].
  apply appends_bind;
    [apply appends_send_command; intros r; right; now left|].
  intros interface_timers_output. apply appends_bind_lift.
  intros faults Hfaults. destruct faults as [|f faults];
    [now apply appends_emit|].
  apply appends_bind; [now apply appends_emit|intros _].
  apply appends_bind; [now apply (appends_fix_timers interface_timers_output)|].
  intros _. apply appends_bind; [now apply appends_emit|intros _].
  apply appends_bind; [now apply appends_sleep|intros _].
  apply appends_bind; [apply appends_repoll|intros rechecked'].
  destruct (healthy_in rechecked' neighbor); now apply appends_emit.
Qed.

Lemma appends_compare_ospf_neighbors
      (live_neighbors golden_neighbors : list neighbor) :
  appends reconcile_event (compare_ospf_neighbors live_neighbors golden_neighbors).
Proof.
  unfold compare_ospf_neighbors, log_state_mismatches. cbv zeta.
  apply appends_bind; [appends_auto; exact I|intros _].
  apply appends_bind; [appends_auto; exact I|intros _].
  apply appends_bind; [appends_auto; exact I|intros _].
  apply appends_bind;
    [apply appends_for_each; intros k _; apply appends_remediate|intros _].
  appends_auto. exact I.
Qed.

(** *** Every fix answers what the device said *)

Lemma sends_known_nil : sends_known [].
Proof. intros [|x before] commands answer after E; discriminate E. Qed.

(** Where the last event of a trace lies when the trace is cut at a
    configuration set. *)
Lemma trace_cut_last (tr before after : list event) (e x : event) :
  tr ++ [e] = before ++ x :: after ->
  (after = [] /\ tr = before /\ e = x)
  \/ exists after', after = after' ++ [e] /\ tr = before ++ x :: after'.
Proof.
  intros E. destruct after as [|y after].
  - left. apply app_inj_tail in E. now destruct E.
  - right. destruct (@exists_last _ (y :: after)) as (after' & z & Ez);
      [discriminate|].
    rewrite Ez in *. exists after'.
    rewrite app_comm_cons, app_assoc in E. apply app_inj_tail in E.
    destruct E as [-> ->]. split; reflexivity.
Qed.

Lemma known_fix_later (before more : list event) (commands : list string) :
  known_fix before commands -> known_fix (before ++ more) commands.
Proof.
  intros [(E & config & Hin & Hs)|(output & faults & fault & Hin & Hrest)].
  - left. split; [exact E|]. exists config. split; [|exact Hs].
    apply in_or_app. now left.
  - right. exists output, faults, fault. split; [|exact Hrest].
    apply in_or_app. now left.
Qed.

Lemma sends_known_other (tr : list event) (e : event) :
  sends_known tr -> (forall commands answer, e <> SendConfigSet commands answer) ->
  sends_known (tr ++ [e]).
Proof.
  intros Htr He before commands answer after E.
  apply trace_cut_last in E.
  destruct E as [(_ & _ & E)|(after' & _ & E)].
  - now elim (He commands answer).
  - now apply (Htr before commands answer after').
Qed.

Lemma sends_known_fix (tr : list event) (commands : list string)
      (answer : result unit) :
  sends_known tr -> known_fix tr commands ->
  sends_known (tr ++ [SendConfigSet commands answer]).
Proof.
  intros Htr Hfix before commands' answer' after E.
  apply trace_cut_last in E.
  destruct E as [(_ & <- & E)|(after' & _ & E)].
  - injection E as <- _. exact Hfix.
  - now apply (Htr before commands' answer' after').
Qed.

Lemma keeps_weaken {A : Type} (pre pre' : list event -> Prop)
      (post post' : A -> list event -> Prop) (m : @M session A) :
  (forall tr, pre' tr -> pre tr) -> (forall a tr, post a tr -> post' a tr) ->
  keeps_known pre m post -> keeps_known pre' m post'.
Proof.
  intros Hpre Hpost Hm s tr Htr Hp.
  destruct (Hm s tr Htr (Hpre tr Hp)) as [H1 H2]. split; [exact H1|].
  intros a Ha. apply Hpost. now apply H2.
Qed.

Lemma keeps_forget {A : Type} (pre : list event -> Prop)
      (post : A -> list event -> Prop) (m : @M session A) :
  keeps_known pre m post -> keeps_known pre m (fun _ _ => True).
Proof. apply keeps_weaken; auto. Qed.

Lemma keeps_bind {A B : Type} (pre : list event -> Prop)
      (mid : A -> list event -> Prop) (post : B -> list event -> Prop)
      (m : @M session A) (k : A -> @M session B) :
  keeps_known pre m mid -> (forall a, keeps_known (mid a) (k a) post) ->
  keeps_known pre (mbind m k) post.
Proof.
  intros Hm Hk s tr Htr Hp. unfold mbind.
  destruct (Hm s tr Htr Hp) as [H1 H2].
  destruct (m (s, tr)) as [[a|e] [s' tr']]; cbn [fst snd] in *.
  - apply (Hk a s' tr' H1 (H2 a eq_refl)).
  - split; [exact H1|]. intros a Ha. discriminate Ha.
Qed.

(** A step that leaves what is known as it was, and then the rest. *)
Lemma keeps_then {B : Type} (pre : list event -> Prop)
      (post : B -> list event -> Prop) (m : @M session unit) (k : @M session B) :
  keeps_known pre m (fun _ => pre) -> keeps_known pre k post ->
  keeps_known pre (mbind m (fun _ => k)) post.
Proof. intros Hm Hk. apply (keeps_bind pre (fun _ => pre)); auto. Qed.

Lemma keeps_try (pre : list event -> Prop) (body : @M session unit)
      (handler : exn -> @M session unit) :
  keeps_known pre body (fun _ _ => True) ->
  (forall e, keeps_known (fun _ => True) (handler e) (fun _ _ => True)) ->
  keeps_known pre (try_except body handler) (fun _ _ => True).
Proof.
  intros Hb Hh s tr Htr Hp. unfold try_except.
  destruct (Hb s tr Htr Hp) as [H1 _].
  destruct (body (s, tr)) as [[a|e] [s' tr']]; cbn [fst snd] in *.
  - split; [exact H1|auto].
  - destruct (Hh e s' tr' H1 I) as [H2 _]. split; [exact H2|auto].
Qed.

Lemma keeps_ret {A : Type} (pre : list event -> Prop) (a : A) :
  keeps_known pre (@ret session A a) (fun _ => pre).
Proof. intros s tr Htr Hp. split; [exact Htr|]. intros _ _. exact Hp. Qed.

Lemma keeps_log (pre : list event -> Prop) (lvl : level) (rec : log_record) :
  lasting pre -> keeps_known pre (@log session lvl rec) (fun _ => pre).
Proof.
  intros Hpre s tr Htr Hp. unfold log, emit. cbn [fst snd]. split.
  - apply sends_known_other; [exact Htr|]. intros ? ? [=].
  - intros _ _. now apply Hpre.
Qed.

Lemma keeps_sleep (pre : list event -> Prop) (seconds : Z) :
  lasting pre -> keeps_known pre (@do_sleep session _ seconds) (fun _ => pre).
Proof.
  intros Hpre s tr Htr Hp. unfold do_sleep. cbn [fst snd]. split.
  - apply sends_known_other; [exact Htr|]. intros ? ? [=].
  - intros _ _. now apply Hpre.
Qed.

(** A show command adds its answer to what is known. *)
Lemma keeps_send_command (pre : list event -> Prop) (command : string) :
  lasting pre ->
  keeps_known pre (@do_send_command session _ command)
              (fun output tr =>
                 pre tr /\ In (SendCommand command (Ok output)) tr).
Proof.
  intros Hpre s tr Htr Hp. unfold do_send_command. cbn [fst snd].
  destruct (send_command command s) as [r s']. cbn [fst snd]. split.
  - apply sends_known_other; [exact Htr|]. intros ? ? [=].
  - intros output ->. split; [now apply Hpre|].
    apply in_or_app. right. now left.
Qed.

(** A configuration set may be sent when what is known calls for it. *)
Lemma keeps_send_config_set (pre : list event -> Prop) (commands : list string) :
  lasting pre -> (forall tr, pre tr -> known_fix tr commands) ->
  keeps_known pre (@do_send_config_set session _ commands) (fun _ => pre).
Proof.
  intros Hpre Hfix s tr Htr Hp. unfold do_send_config_set. cbn [fst snd].
  destruct (send_config_set commands s) as [r s']. cbn [fst snd]. split.
  - apply sends_known_fix; [exact Htr|now apply Hfix].
  - intros _ _. now apply Hpre.
Qed.

Lemma keeps_bind_lift {A B : Type} (pre : list event -> Prop)
      (post : B -> list event -> Prop) (r : result A) (k : A -> @M session B) :
  (forall a, r = Ok a -> keeps_known pre (k a) post) ->
  keeps_known pre (mbind (lift r) k) post.
Proof.
  intros Hk s tr Htr Hp. unfold mbind, lift. destruct r as [a|e].
  - apply (Hk a eq_refl s tr Htr Hp).
  - cbn [fst snd]. split; [exact Htr|]. intros a Ha. discriminate Ha.
Qed.

Lemma keeps_for_each {A : Type} (pre : list event -> Prop) (l : list A)
      (body : A -> @M session unit) :
  (forall x, In x l -> keeps_known pre (body x) (fun _ => pre)) ->
  keeps_known pre (for_each l body) (fun _ => pre).
Proof.
  induction l as [|x l IH]; intros H; cbn [for_each]; [apply keeps_ret|].
  apply keeps_then; [apply H; now left|]. apply IH. intros y Hy.
  apply H. now right.
Qed.

Lemma lasting_true : lasting (fun _ => True).
Proof. intros tr more _. exact I. Qed.

Lemma lasting_answer (pre : list event -> Prop) (command output : string) :
  lasting pre ->
  lasting (fun tr => pre tr /\ In (SendCommand command (Ok output)) tr).
Proof.
  intros Hpre tr more [Hp Hin]. split; [now apply Hpre|].
  apply in_or_app. now left.
Qed.

(** The timer fixes of the faults parsed from an answer that is in the
    trace. *)
Lemma keeps_fix_timers (pre : list event -> Prop) (output : string)
      (faults : list timer_fault) :
  lasting pre -> parse_ospf_timers output = Ok faults ->
  keeps_known
    (fun tr => pre tr /\ In (SendCommand show_ospf_timers (Ok output)) tr)
    (@fix_timers session _ faults)
    (fun _ tr => pre tr /\ In (SendCommand show_ospf_timers (Ok output)) tr).
Proof.
  intros Hpre Hparse. pose proof (parse_ospf_timers_faults _ _ Hparse) as Hreal.
  rewrite Forall_forall in Hreal.
  pose proof (lasting_answer pre show_ospf_timers output Hpre) as Hlast.
  unfold fix_timers. apply keeps_for_each. intros fault Hin.
  apply keeps_then; [|now apply keeps_log].
  apply keeps_send_config_set; [exact Hlast|]. intros tr [_ Hfetched].
  right. exists output, faults, fault.
  split; [exact Hfetched|]. split; [exact Hparse|]. split; [exact Hin|].
  split; [|reflexivity]. now destruct (Hreal fault Hin).
Qed.

Lemma keeps_repoll (pre : list event -> Prop) :
  lasting pre -> keeps_known pre (@repoll session _) (fun _ => pre).
Proof.
  intros Hpre. unfold repoll.
  apply (keeps_bind pre
           (fun output tr =>
              pre tr /\ In (SendCommand show_ospf_neighbor (Ok output)) tr));
    [now apply keeps_send_command|].
  intros output.
  apply (keeps_weaken pre _ (fun _ => pre) _); [now intros tr [H _]|auto|].
  apply keeps_ret.
Qed.

Lemma keeps_compare_ospf_config (neighbor : string) :
  keeps_known (fun _ => True) (compare_ospf_config neighbor) (fun _ _ => True).
Proof.
  unfold compare_ospf_config.
  apply keeps_try; [|intros e; apply keeps_forget with (post := fun _ _ => True);
                     apply keeps_log, lasting_true].
  apply keeps_then; [apply keeps_log, lasting_true|].
  eapply keeps_bind; [apply keeps_send_command, lasting_true|].
  intros config. cbv beta.
  pose proof (lasting_answer _ show_ospf_config config lasting_true) as Hconfig.
  destruct (PyStr.contains "shutdown" config) eqn:Eshut.
  - apply keeps_then; [now apply keeps_log|].
    apply keeps_then.
    { apply keeps_send_config_set; [exact Hconfig|]. intros tr [_ Hin].
      left. split; [reflexivity|]. now exists config. }
    apply keeps_then; [now apply keeps_log|].
    eapply keeps_forget. now apply keeps_sleep.
  - eapply keeps_bind; [now apply keeps_send_command|].
    intros output. cbv beta. apply keeps_bind_lift. intros faults Hparse.
    pose proof (lasting_answer _ show_ospf_timers output Hconfig) as Htimers.
    destruct faults as [|fault faults];
      [eapply keeps_forget; now apply keeps_log|].
    apply keeps_then; [now apply keeps_log|].
    apply keeps_then; [now apply keeps_fix_timers|].
    eapply keeps_forget. now apply keeps_sleep.
Qed.

Lemma keeps_remediate (neighbor : string) :
  keeps_known (fun _ => True) (remediate neighbor) (fun _ _ => True).
Proof.
  unfold remediate.
  apply (keeps_bind _ (fun _ _ => True)); [apply keeps_compare_ospf_config|].
  intros _.
  apply keeps_then; [apply keeps_log, lasting_true|].
  apply keeps_then; [apply keeps_sleep, lasting_true|].
  apply (keeps_bind _ (fun _ _ => True)); [apply keeps_repoll, lasting_true|].
  intros rechecked.
  destruct (healthy_in rechecked neighbor);
    [eapply keeps_forget; apply keeps_log, lasting_true|].
  eapply keeps_bind; [apply keeps_send_command, lasting_true|].
  intros output. cbv beta. apply keeps_bind_lift. intros faults Hparse.
  pose proof (lasting_answer _ show_ospf_timers output lasting_true) as Htimers.
  destruct faults as [|fault faults];
    [eapply keeps_forget; now apply keeps_log|].
  apply keeps_then; [now apply keeps_log|].
  apply keeps_then; [apply keeps_fix_timers; [apply lasting_true|exact Hparse]|].
  apply keeps_then; [now apply keeps_log|].
  apply keeps_then; [now apply keeps_sleep|].
  eapply keeps_bind; [now apply keeps_repoll|].
  intros rechecked'. cbv beta.
  destruct (healthy_in rechecked' neighbor);
    eapply keeps_forget; now apply keeps_log.
Qed.

Lemma keeps_compare_ospf_neighbors
      (live_neighbors golden_neighbors : list neighbor) :
  keeps_known (fun _ => True)
              (compare_ospf_neighbors live_neighbors golden_neighbors)
              (fun _ _ => True).
Proof.
  assert (Hlogs : forall (A : Type) (l : list A) (record : A -> log_record)
                         (lvl : level),
             keeps_known (fun _ => True)
                         (for_each l (fun x => @log session lvl (record x)))
                         (fun _ _ => True)).
  { intros A l record lvl. apply keeps_for_each. intros x _.
    apply keeps_log, lasting_true. }
  unfold compare_ospf_neighbors, log_state_mismatches. cbv zeta.
  apply (keeps_bind _ (fun _ _ => True)).
  { destruct (missing_neighbors _ _); [apply keeps_ret|].
    apply keeps_then; [apply keeps_log, lasting_true|]. apply Hlogs. }
  intros _. apply (keeps_bind _ (fun _ _ => True)).
  { apply keeps_for_each. intros [k st] _.
    destruct (dict_mem _ k && negb (healthy st));
      [apply keeps_log, lasting_true|apply keeps_ret]. }
  intros _. apply (keeps_bind _ (fun _ _ => True)).
  { destruct (unexpected_neighbors _ _); [apply keeps_ret|].
    apply keeps_then; [apply keeps_log, lasting_true|]. apply Hlogs. }
  intros _. apply (keeps_bind _ (fun _ _ => True)).
  { apply keeps_for_each. intros k _. apply keeps_remediate. }
  intros _. destruct (problematic_neighbors _ _);
    [apply keeps_log, lasting_true|apply keeps_ret].
Qed.

(** X14: the reconciliation does nothing to the device but fetch the
    OSPF configuration, the interface timers and the neighbour table,
    send ["router ospf 1"; "no shutdown"], send the three default timers
    under an interface, and wait ten seconds at a time; it never enters
    enable mode, never pushes a configuration file and writes no file.
    And every configuration set it sends answers what the device said
    earlier in the same run: the shutdown fix comes after an answer to
    the configuration command that has "shutdown" in it, and a timer fix
    names the interface of a fault that [parse_ospf_timers] reports,
    with a timer off its default, for an answer to the timer command
    that came before it. *)
Theorem compare_ospf_neighbors_events
        (live_neighbors golden_neighbors : list neighbor) (s : session) :
  Forall reconcile_event
         (snd (run (compare_ospf_neighbors live_neighbors golden_neighbors) s))
  /\ sends_known
       (snd (run (compare_ospf_neighbors live_neighbors golden_neighbors) s)).
Proof.
  rewrite run_trace. split.
  - destruct (appends_compare_ospf_neighbors live_neighbors golden_neighbors s [])
      as (evs & -> & F). exact F.
  - apply (keeps_compare_ospf_neighbors live_neighbors golden_neighbors s []);
      [apply sends_known_nil|exact I].
Qed.

(** X15: [compare_ospf_config] never raises, and a session call of it
    that fails is its last: every call before it was answered and only
    the error record with the exception follows. An output that
    [parse_ospf_timers] cannot read is logged in the same way and no fix
    is sent. *)
Theorem compare_ospf_config_stops_at_failure (neighbor : string) (s : session) :
  fst (run (compare_ospf_config neighbor) s) = Ok tt
  /\ (forall pre ev post x,
         snd (run (compare_ospf_config neighbor) s) = pre ++ ev :: post ->
         failure ev = Some x ->
         all_answered pre
         /\ post = [Log ERROR (CompareOspfConfigError neighbor x)])
  /\ (forall s1 s2 config timers x,
         send_command show_ospf_config s = (Ok config, s1) ->
         PyStr.contains "shutdown" config = false ->
         send_command show_ospf_timers s1 = (Ok timers, s2) ->
         parse_ospf_timers timers = Raise x ->
         snd (run (compare_ospf_config neighbor) s)
         = [Log DEBUG (ComparingOspfConfig neighbor);
            SendCommand show_ospf_config (Ok config);
            SendCommand show_ospf_timers (Ok timers);
            Log ERROR (CompareOspfConfigError neighbor x)]).
Proof.
  split; [|split].
  - apply try_log_fail_stop. unfold fix_timers. fail_stop_auto.
  - apply try_log_fail_stop. unfold fix_timers. fail_stop_auto.
  - intros s1 s2 config timers x E1 Hs E2 Hp. rewrite run_trace.
    unfold compare_ospf_config, try_except, mbind, log, emit, lift,
      do_send_command. cbn [fst snd app].
    rewrite E1. cbn [fst snd app]. rewrite Hs. cbn [fst snd app].
    rewrite E2. cbn [fst snd app]. rewrite Hp. reflexivity.
Qed.

End ReconcileEvents.

(** ** [check_ospf_neighbors] *)

Section CheckFacts.

Context {session : Type} {net_connect : Session session} {order : SetOrder}.

Lemma set_diff_self (l : list string) : set_diff l l = [].
Proof.
  unfold set_diff.
  assert (H : forall l', (forall x, In x l' -> In x l) ->
                         filter (fun x => negb (mem x l)) l' = []).
  { induction l' as [|x l' IH]; intros Hsub; [reflexivity|]. cbn [filter].
    rewrite (proj2 (mem_In x l)) by (apply Hsub; now left). cbn [negb].
    apply IH. intros y Hy. apply Hsub. now right. }
  now apply H.
Qed.

(** The states held by the map of a table are states of its rows. *)
Lemma neighbors_map_state (rows : list neighbor) (k st : string) :
  In (k, st) (neighbors_map rows) -> exists n, In n rows /\ state n = st.
Proof.
  intros H. apply dict_In_get in H; [|apply neighbors_map_NoDup].
  rewrite neighbors_map_get in H. unfold last_row in H.
  destruct (find _ (rev rows)) as [n|] eqn:E; [|discriminate].
  injection H as <-. apply find_some in E. destruct E as [Hin _].
  exists n. split; [now apply in_rev|reflexivity].
Qed.

Lemma unhealthy_none (lm gm : dict) :
  (forall k st, In (k, st) lm -> dict_mem gm k = true -> healthy st = true) ->
  unhealthy_neighbors lm gm = []
  /\ forall w, @log_state_mismatches session lm gm w = (Ok tt, w).
Proof.
  unfold unhealthy_neighbors, log_state_mismatches.
  induction lm as [|[k st] lm IH]; intros H; [now split|].
  destruct IH as [IH1 IH2]; [intros k' st' Hin; apply H; now right|].
  cbn [flat_map for_each].
  assert (E : dict_mem gm k && negb (healthy st) = false).
  { destruct (dict_mem gm k) eqn:Em; [|reflexivity].
    now rewrite (H k st (or_introl eq_refl) Em). }
  rewrite E. split; [exact IH1|]. intros w. unfold mbind, ret. apply IH2.
Qed.

(** A table compared with itself, all states healthy. *)
Lemma compare_ospf_neighbors_same (rows : list neighbor) (s : session) :
  (forall n, In n rows -> healthy (state n) = true) ->
  compare_ospf_neighbors rows rows (s, [])
  = (Ok tt, (s, [Log INFO NeighborsMatch])).
Proof.
  intros H. unfold compare_ospf_neighbors, problematic_neighbors,
    missing_neighbors, unexpected_neighbors. cbv zeta.
  rewrite set_diff_self, set_order_nil.
  destruct (unhealthy_none (neighbors_map rows) (neighbors_map rows))
    as [E1 E2].
  { intros k st Hin _. destruct (neighbors_map_state rows k st Hin) as (n & Hn & <-).
    now apply H. }
  rewrite E1. unfold mbind, ret. cbn [app for_each]. rewrite E2. reflexivity.
Qed.

(** X16: a device whose neighbour table is the text of the golden state
    file, with lines that end in line feeds and every state "2..." or
    "FULL...", is left alone: the check fetches the table once and logs
    that the neighbours match; nothing else happens. *)
Theorem check_ospf_neighbors_mirror (device_name out : string) (s s1 : session) :
  send_command show_ospf_neighbor s = (Ok out, s1) ->
  lf_only out = true ->
  (forall n, In n (parse_ospf_neighbors out) -> healthy (state n) = true) ->
  check_ospf_neighbors device_name (Contents out) s
  = (s1, [CheckLog DEBUG CheckingNeighbors;
          Engine (SendCommand show_ospf_neighbor (Ok out));
          Engine (Log INFO NeighborsMatch)]).
Proof.
  intros Hcmd Hlf Hok. unfold check_ospf_neighbors. rewrite Hcmd.
  cbn [load_golden_ospf_neighbors].
  pose proof (load_golden_rows device_name out Hlf) as E.
  cbn [load_golden_ospf_neighbors fst] in E. rewrite E.
  rewrite (compare_ospf_neighbors_same _ s1 Hok). reflexivity.
Qed.

Lemma problematic_without_golden (lm : dict) :
  problematic_neighbors lm [] = [].
Proof.
  unfold problematic_neighbors, missing_neighbors. cbn [dict_keys map set_diff filter].
  rewrite set_order_nil. cbn [app]. unfold unhealthy_neighbors.
  induction lm as [|[k st] lm IH]; [reflexivity|]. cbn [flat_map]. now rewrite IH.
Qed.

(** X17: what [check_ospf_neighbors] does on its two degenerate inputs.
    If the table cannot be fetched, the exception is logged and nothing
    else is done. If the golden state file is missing or cannot be read,
    the golden table is empty: after the error record of the loader the
    comparison logs only, sends nothing to the device and ends with the
    record that the neighbours match the golden state. *)
Theorem check_ospf_neighbors_degenerate (device_name : string)
        (file : golden_file) (s s1 : session) :
  (forall e,
      send_command show_ospf_neighbor s = (Raise e, s1) ->
      check_ospf_neighbors device_name file s
      = (s1, [CheckLog DEBUG CheckingNeighbors;
              Engine (SendCommand show_ospf_neighbor (Raise e));
              CheckLog ERROR (CheckNeighborsError e)]))
  /\ (forall out,
         send_command show_ospf_neighbor s = (Ok out, s1) ->
         file = NoSuchFile \/ file = ReadFails ->
         exists evs,
           snd (check_ospf_neighbors device_name file s)
           = [CheckLog DEBUG CheckingNeighbors;
              Engine (SendCommand show_ospf_neighbor (Ok out));
              CheckLog ERROR
                (match file with
                 | ReadFails => GoldenStateError OSError
                 | _ => GoldenStateNotFound (golden_state_path device_name)
                 end)]
             ++ map Engine evs
           /\ forallb is_log evs = true
           /\ In (Log INFO NeighborsMatch) evs).
Proof.
  split.
  - intros e Hcmd. unfold check_ospf_neighbors. now rewrite Hcmd.
  - intros out Hcmd Hfile. unfold check_ospf_neighbors. rewrite Hcmd.
    destruct (compare_ospf_neighbors_quiet (parse_ospf_neighbors out) [] s1)
      as (s' & evs & E & F & Hin).
    { apply problematic_without_golden. }
    exists evs.
    destruct Hfile as [-> | ->]; cbn [load_golden_ospf_neighbors];
      rewrite E; cbn [snd map app]; rewrite app_nil_r;
      (split; [reflexivity|]); (split; [|assumption]);
      apply forallb_forall; rewrite Forall_forall in F; exact F.
Qed.

End CheckFacts.

(** ** Waiting *)

Lemma slept_app (a b : list event) : slept (a ++ b) = (slept a + slept b)%Z.
Proof.
  induction a as [|e a IH]; [reflexivity|]. cbn [app slept].
  destruct e; rewrite IH; lia.
Qed.

Section WaitingFacts.

Context {session : Type} {net_connect : Session session} {order : SetOrder}.

Lemma sleeps_weaken {A : Type} (n n' : Z) (m : @M session A) :
  (n <= n')%Z -> sleeps_at_most n m -> sleeps_at_most n' m.
Proof.
  intros Hn H s tr. destruct (H s tr) as (evs & E & B). exists evs.
  split; [assumption|lia].
Qed.

Lemma sleeps_quiet {A : Type} (m : @M session A) :
  appends (fun e => forall seconds, e <> Sleep seconds) m -> sleeps_at_most 0 m.
Proof.
  intros H s tr. destruct (H s tr) as (evs & E & F). exists evs.
  split; [assumption|]. clear E. induction F as [|e evs He _ IH]; [cbn; lia|].
  cbn [slept]. destruct e; try exact IH. now elim (He seconds).
Qed.

Lemma sleeps_sleep (seconds : Z) :
  (0 <= seconds)%Z -> sleeps_at_most seconds (@do_sleep session _ seconds).
Proof. intros H s tr. exists [Sleep seconds]. cbn. split; [reflexivity|lia]. Qed.

Lemma sleeps_bind {A B : Type} (n1 n2 : Z) (m : @M session A)
      (k : A -> @M session B) :
  (0 <= n2)%Z ->
  sleeps_at_most n1 m -> (forall a, sleeps_at_most n2 (k a)) ->
  sleeps_at_most (n1 + n2) (mbind m k).
Proof.
  intros Hn Hm Hk s tr. unfold mbind. destruct (Hm s tr) as (e1 & E1 & B1).
  destruct (m (s, tr)) as [[a|x] [s1 tr1]]; cbn [snd] in E1; subst tr1.
  - destruct (Hk a s1 (tr ++ e1)) as (e2 & E2 & B2). exists (e1 ++ e2).
    rewrite E2, app_assoc, slept_app. split; [reflexivity|lia].
  - exists e1. split; [reflexivity|lia].
Qed.

(** Steps that do not sleep, before and after one that does. *)
Lemma sleeps_after {A B : Type} (n : Z) (m : @M session A)
      (k : A -> @M session B) :
  (0 <= n)%Z ->
  appends (fun e => forall seconds, e <> Sleep seconds) m ->
  (forall a, sleeps_at_most n (k a)) ->
  sleeps_at_most n (mbind m k).
Proof.
  intros Hn Hm Hk. apply (sleeps_weaken (0 + n)); [lia|].
  apply sleeps_bind; [assumption|now apply sleeps_quiet|assumption].
Qed.

Lemma sleeps_before {A B : Type} (n : Z) (m : @M session A)
      (k : A -> @M session B) :
  sleeps_at_most n m ->
  (forall a, appends (fun e => forall seconds, e <> Sleep seconds) (k a)) ->
  sleeps_at_most n (mbind m k).
Proof.
  intros Hm Hk. apply (sleeps_weaken (n + 0)); [lia|].
  apply sleeps_bind; [lia|assumption|]. intros a. now apply sleeps_quiet.
Qed.

Lemma sleeps_try {A : Type} (n : Z) (body : @M session A)
      (handler : exn -> @M session A) :
  sleeps_at_most n body ->
  (forall e, appends (fun e => forall seconds, e <> Sleep seconds) (handler e)) ->
  sleeps_at_most n (try_except body handler).
Proof.
  intros Hb Hh s tr. unfold try_except. destruct (Hb s tr) as (e1 & E1 & B1).
  destruct (body (s, tr)) as [[a|x] [s1 tr1]]; cbn [snd] in E1; subst tr1.
  - now exists e1.
  - destruct (sleeps_quiet _ (Hh x) s1 (tr ++ e1)) as (e2 & E2 & B2).
    exists (e1 ++ e2). rewrite E2, app_assoc, slept_app.
    split; [reflexivity|lia].
Qed.

Lemma sleeps_for_each {A : Type} (n : Z) (l : list A)
      (body : A -> @M session unit) :
  (0 <= n)%Z -> (forall x, sleeps_at_most n (body x)) ->
  sleeps_at_most (n * Z.of_nat (length l)) (for_each l body).
Proof.
  intros Hn H. induction l as [|x l IH]; cbn [for_each length].
  - apply (sleeps_weaken 0); [lia|]. apply sleeps_quiet, appends_ret.
  - apply (sleeps_weaken (n + n * Z.of_nat (length l))); [lia|].
    apply sleeps_bind; [lia|apply H|intros _; exact IH].
Qed.

Lemma fix_timers_no_sleep (faults : list timer_fault) :
  appends (fun e => forall seconds, e <> Sleep seconds)
          (@fix_timers session _ faults).
Proof. unfold fix_timers. appends_auto; discriminate. Qed.

Lemma repoll_no_sleep :
  appends (fun e => forall seconds, e <> Sleep seconds) (@repoll session _).
Proof. unfold repoll. appends_auto; discriminate. Qed.

Lemma sleeps_compare_ospf_config (neighbor : string) :
  sleeps_at_most 10 (compare_ospf_config neighbor).
Proof.
  unfold compare_ospf_config.
  apply sleeps_try; [|intros e; appends_auto; discriminate].
  apply sleeps_after; [lia|appends_auto; discriminate|intros _].
  apply sleeps_after; [lia|appends_auto; discriminate|intros config].
  destruct (PyStr.contains "shutdown" config).
  - apply sleeps_after; [lia|appends_auto; discriminate|intros _].
    apply sleeps_after; [lia|appends_auto; discriminate|intros _].
    apply sleeps_after; [lia|appends_auto; discriminate|intros _].
    apply sleeps_sleep. lia.
  - apply sleeps_after; [lia|appends_auto; discriminate|intros timers].
    apply sleeps_after; [lia|appends_auto; discriminate|intros faults].
    destruct faults as [|f faults].
    + apply (sleeps_weaken 0); [lia|]. apply sleeps_quiet.
      appends_auto; discriminate.
    + apply sleeps_after; [lia|appends_auto; discriminate|intros _].
      apply sleeps_after; [lia|apply fix_timers_no_sleep|intros _].
      apply sleeps_sleep. lia.
Qed.

Lemma sleeps_remediate (neighbor : string) :
  sleeps_at_most 30 (remediate neighbor).
Proof.
  unfold remediate. apply (sleeps_weaken (10 + 20)); [lia|].
  apply sleeps_bind; [lia|apply sleeps_compare_ospf_config|intros _].
  apply sleeps_after; [lia|appends_auto; discriminate|intros _].
  apply (sleeps_weaken (10 + 10)); [lia|].
  apply sleeps_bind; [lia|apply sleeps_sleep; lia|intros _].
  apply sleeps_after; [lia|apply repoll_no_sleep|intros rechecked].
  destruct (healthy_in rechecked neighbor).
  - apply (sleeps_weaken 0); [lia|]. apply sleeps_quiet.
    appends_auto; discriminate.
  - apply sleeps_after; [lia|appends_auto; discriminate|intros timers].
    apply sleeps_after; [lia|appends_auto; discriminate|intros faults].
    destruct faults as [|f faults].
    + apply (sleeps_weaken 0); [lia|]. apply sleeps_quiet.
      appends_auto; discriminate.
    + apply sleeps_after; [lia|appends_auto; discriminate|intros _].
      apply sleeps_after; [lia|apply fix_timers_no_sleep|intros _].
      apply sleeps_after; [lia|appends_auto; discriminate|intros _].
      apply sleeps_before; [apply sleeps_sleep; lia|intros _].
      unfold repoll. appends_auto; discriminate.
Qed.

(** X18: the reconciliation waits thirty seconds at most for each
    problematic neighbour, whatever the device answers: ten in
    [compare_ospf_config] and ten before each of the two re-polls. *)
Theorem compare_ospf_neighbors_waits
        (live_neighbors golden_neighbors : list neighbor) (s : session) :
  (0 <= slept (snd (run (compare_ospf_neighbors live_neighbors golden_neighbors) s))
   <= 30 * Z.of_nat (length (problematic_neighbors
                               (neighbors_map live_neighbors)
                               (neighbors_map golden_neighbors))))%Z.
Proof.
  rewrite run_trace.
  assert (H : sleeps_at_most
                (30 * Z.of_nat (length (problematic_neighbors
                                          (neighbors_map live_neighbors)
                                          (neighbors_map golden_neighbors))))
                (compare_ospf_neighbors live_neighbors golden_neighbors)).
  { unfold compare_ospf_neighbors, log_state_mismatches. cbv zeta.
    apply sleeps_after; [lia|appends_auto; discriminate|intros _].
    apply sleeps_after; [lia|appends_auto; discriminate|intros _].
    apply sleeps_after; [lia|appends_auto; discriminate|intros _].
    apply sleeps_before; [|intros _; appends_auto; discriminate].
    apply sleeps_for_each; [lia|]. intros k. apply sleeps_remediate. }
  destruct (H s []) as (evs & -> & B). exact B.
Qed.

End WaitingFacts.

(** ** The further properties at concrete inputs *)

Lemma normalize_config_lines_are_clean_witness :
  In "router ospf 1"
     (normalize_config (Demo.text ["  router ospf 1  "; ""; " shutdown"]))
  /\ ("router ospf 1" <> "" /\ PyStr.strip "router ospf 1" = "router ospf 1"
      /\ no_linebreak "router ospf 1" = true).
Proof.
  split; [vm_compute; left; reflexivity|].
  apply (normalize_config_lines_are_clean
           (Demo.text ["  router ospf 1  "; ""; " shutdown"]) "router ospf 1").
  vm_compute. left. reflexivity.
Defined.

Lemma parse_contextual_commands_sound_witness :
  In (Some "interface Gi0/1", "no shutdown")
     (parse_contextual_commands [" interface Gi0/1"; "+ shutdown"])
  /\ (exists line,
         In line [" interface Gi0/1"; "+ shutdown"] /\ is_added line = true
         /\ "no shutdown" = ("no " ++ PyStr.strip (drop_first line))%string
         /\ PyStr.strip (drop_first line) <> ""
         /\ PyStr.startswith (PyStr.strip (drop_first line)) "!" = false).
Proof.
  split; [vm_compute; left; reflexivity|].
  apply (parse_contextual_commands_sound
           [" interface Gi0/1"; "+ shutdown"] (Some "interface Gi0/1")
           "no shutdown").
  vm_compute. left. reflexivity.
Defined.

Lemma compare_configs_stops_at_failure_witness :
  exists pre ev post,
    snd (run (@compare_configs unit (Lab.device "" Lab.RefuseEnable) "R1"
                Lab.live_interface "/golden/R1.cfg"
                (Contents Lab.golden_interface) Writable) tt)
    = pre ++ ev :: post
    /\ failure ev = Some SessionError
    /\ all_answered pre
    /\ post = [Log ERROR (CompareConfigsError SessionError)].
Proof.
  eexists _, (Enable (Raise SessionError)), _.
  assert (E : snd (run (@compare_configs unit (Lab.device "" Lab.RefuseEnable)
                          "R1" Lab.live_interface "/golden/R1.cfg"
                          (Contents Lab.golden_interface) Writable) tt)
              = firstn 2 (snd (run (@compare_configs unit
                                      (Lab.device "" Lab.RefuseEnable)
                                      "R1" Lab.live_interface "/golden/R1.cfg"
                                      (Contents Lab.golden_interface)
                                      Writable) tt))
                ++ Enable (Raise SessionError)
                   :: [Log ERROR (CompareConfigsError SessionError)])
    by (vm_compute; reflexivity).
  split; [exact E|]. split; [reflexivity|].
  exact (proj1 (proj2 (@compare_configs_stops_at_failure
                         unit (Lab.device "" Lab.RefuseEnable)
                         "R1" Lab.live_interface "/golden/R1.cfg"
                         (Contents Lab.golden_interface) Writable tt))
               _ _ _ SessionError E eq_refl).
Defined.

Lemma compare_configs_sends_only_negations_witness :
  In (SendConfigSet ["interface Gi0/1"; "no shutdown"] (Ok tt))
     (snd (run (@compare_configs unit (Lab.device "" Lab.RefuseNothing) "R1"
                  Lab.live_interface "/golden/R1.cfg"
                  (Contents Lab.golden_interface) Writable) tt))
  /\ exists golden_config line,
       Contents Lab.golden_interface = Contents golden_config
       /\ In line (normalize_config Lab.live_interface)
       /\ (["interface Gi0/1"; "no shutdown"] = [("no " ++ line)%string]
           \/ exists context,
                In context (normalize_config golden_config)
                /\ is_mode_header context = true
                /\ ["interface Gi0/1"; "no shutdown"]
                   = [context; ("no " ++ line)%string]).
Proof.
  split; [vm_compute; do 3 right; left; reflexivity|].
  apply (@compare_configs_sends_only_negations
           unit (Lab.device "" Lab.RefuseNothing) "R1" Lab.live_interface
           "/golden/R1.cfg" (Contents Lab.golden_interface) Writable tt
           ["interface Gi0/1"; "no shutdown"] (Ok tt)).
  vm_compute. do 3 right. left. reflexivity.
Defined.

Lemma parse_ospf_timers_reports_real_faults_witness :
  fault_of
    (PyStr.splitlines (Demo.text [Demo.up_line; Demo.timer_line "10" "30" "5"]))
    {| tf_interface := "Ethernet1"; hello_timer := 10; dead_timer := 30;
       retransmit_timer := 5 |}.
Proof.
  apply (parse_ospf_timers_reports_real_faults
           (Demo.text [Demo.up_line; Demo.timer_line "10" "30" "5"])
           [ {| tf_interface := "Ethernet1"; hello_timer := 10;
                dead_timer := 30; retransmit_timer := 5 |} ]).
  - vm_compute. reflexivity.
  - left. reflexivity.
Defined.

Lemma parse_ospf_timers_without_timer_lines_witness :
  parse_ospf_timers
    (Demo.text [Demo.up_line; "  Process ID 1, Router ID 10.0.0.1"])
  = Ok [].
Proof.
  apply parse_ospf_timers_without_timer_lines.
  intros line Hin. vm_compute in Hin.
  destruct Hin as [<-|[<-|[]]]; vm_compute; auto.
Defined.

Lemma parse_ospf_neighbors_records_witness :
  In (Demo.row "10.0.0.2" "FULL/DR") (parse_ospf_neighbors Lab.table)
  /\ is_token (neighbor_id (Demo.row "10.0.0.2" "FULL/DR")).
Proof.
  split; [vm_compute; left; reflexivity|].
  apply (parse_ospf_neighbors_records Lab.table (Demo.row "10.0.0.2" "FULL/DR")).
  vm_compute. left. reflexivity.
Defined.

Lemma load_golden_agrees_with_parser_witness :
  load_golden_ospf_neighbors "R1" (Contents Lab.table)
  = (parse_ospf_neighbors Lab.table, []).
Proof.
  apply (load_golden_agrees_with_parser "R1" Lab.table). vm_compute. reflexivity.
Defined.

Lemma compare_ospf_config_stops_at_failure_witness :
  exists pre ev post,
    snd (run (@compare_ospf_config unit (Lab.device Lab.shut Lab.RefuseConfigSet)
                "10.0.0.2") tt)
    = pre ++ ev :: post
    /\ failure ev = Some SessionError
    /\ all_answered pre
    /\ post = [Log ERROR (CompareOspfConfigError "10.0.0.2" SessionError)].
Proof.
  eexists _, (SendConfigSet shutdown_fix (Raise SessionError)), _.
  assert (E : snd (run (@compare_ospf_config unit
                          (Lab.device Lab.shut Lab.RefuseConfigSet)
                          "10.0.0.2") tt)
              = firstn 3 (snd (run (@compare_ospf_config unit
                                      (Lab.device Lab.shut Lab.RefuseConfigSet)
                                      "10.0.0.2") tt))
                ++ SendConfigSet shutdown_fix (Raise SessionError)
                   :: [Log ERROR (CompareOspfConfigError "10.0.0.2" SessionError)])
    by (vm_compute; reflexivity).
  split; [exact E|]. split; [reflexivity|].
  exact (proj1 (proj2 (@compare_ospf_config_stops_at_failure
                         unit (Lab.device Lab.shut Lab.RefuseConfigSet)
                         "10.0.0.2" tt))
               _ _ _ SessionError E eq_refl).
Defined.

Lemma check_ospf_neighbors_mirror_witness :
  @check_ospf_neighbors unit (Lab.device Lab.table Lab.RefuseNothing)
                        Demo.insertion_order "R1" (Contents Lab.table) tt
  = (tt, [CheckLog DEBUG CheckingNeighbors;
          Engine (SendCommand show_ospf_neighbor (Ok Lab.table));
          Engine (Log INFO NeighborsMatch)]).
Proof.
  apply (@check_ospf_neighbors_mirror
           unit (Lab.device Lab.table Lab.RefuseNothing) Demo.insertion_order
           "R1" Lab.table tt tt).
  - reflexivity.
  - vm_compute. reflexivity.
  - intros n Hin. vm_compute in Hin. destruct Hin as [<-|[]]. reflexivity.
Defined.

Lemma check_ospf_neighbors_degenerate_witness :
  @check_ospf_neighbors unit Lab.silent Demo.insertion_order "R1" NoSuchFile tt
  = (tt, [CheckLog DEBUG CheckingNeighbors;
          Engine (SendCommand show_ospf_neighbor (Raise SessionError));
          CheckLog ERROR (CheckNeighborsError SessionError)])
  /\ exists evs,
       snd (@check_ospf_neighbors unit (Lab.device Lab.table Lab.RefuseNothing)
              Demo.insertion_order "R1" NoSuchFile tt)
       = [CheckLog DEBUG CheckingNeighbors;
          Engine (SendCommand show_ospf_neighbor (Ok Lab.table));
          CheckLog ERROR (GoldenStateNotFound (golden_state_path "R1"))]
         ++ map Engine evs
       /\ forallb is_log evs = true
       /\ In (Log INFO NeighborsMatch) evs.
Proof.
  split.
  - apply (proj1 (@check_ospf_neighbors_degenerate
                    unit Lab.silent Demo.insertion_order "R1" NoSuchFile tt tt)
                 SessionError).
    reflexivity.
  - apply (proj2 (@check_ospf_neighbors_degenerate
                    unit (Lab.device Lab.table Lab.RefuseNothing)
                    Demo.insertion_order "R1" NoSuchFile tt tt)
                 Lab.table); [reflexivity|now left].
Defined.
